(** * EagleTree: the FAST flash translation layer and the block manager

    A shallow embedding of [FTLs/fast_ftl.cpp] (class [FtlImpl_Fast]) and of
    [ssd_block_manager_parent.cpp] (class [Block_manager_parent]), with the
    properties of the specification stated over it.

    Conventions of the embedding:
    - machine integers are [Z]; unsigned 32-bit arithmetic that can wrap is
      written with [u32];
    - a member function becomes a function from the object's state to a
      [result] carrying the new state: [Ok] for a normal return,
      [AssertFailed] for a failed [assert], [Undefined] where C++ leaves the
      behaviour undefined (an index outside an array, an integer division
      by zero);
    - the collaborators declared in [ssd.h] (controller, manager, device,
      scheduler) are not part of the two files; what they return is an
      oracle of the environment record, what is sent to them is appended to
      a log kept in the state;
    - simulated times (doubles that are only copied from event to event)
      are left out of the events. *)

From stdpp Require Import base option list.
From Stdlib Require Import ZArith Lia Bool.

Open Scope Z_scope.

(** ** Shared vocabulary of [ssd.h] *)

Inductive status := SUCCESS | FAILURE.

Inductive event_type := READ | READ_COMMAND | WRITE | ERASE | TRIM.

(** Granularity tag of an address ([enum address_valid]). *)
Inductive address_valid := NONE | PACKAGE | DIE | PLANE | BLOCK | PAGE.

(** Page states; the specification calls [EMPTY] "FREE". *)
Inductive page_state := EMPTY | VALID | INVALID.

Inductive block_state := FREE | PARTIALLY_FREE | ACTIVE | INACTIVE.

Inductive block_type := LOG | DATA.

Global Instance status_eq_dec : EqDecision status.
Proof. solve_decision. Defined.
Global Instance event_type_eq_dec : EqDecision event_type.
Proof. solve_decision. Defined.
Global Instance address_valid_eq_dec : EqDecision address_valid.
Proof. solve_decision. Defined.
Global Instance page_state_eq_dec : EqDecision page_state.
Proof. solve_decision. Defined.
Global Instance block_state_eq_dec : EqDecision block_state.
Proof. solve_decision. Defined.
Global Instance block_type_eq_dec : EqDecision block_type.
Proof. solve_decision. Defined.

(** Wrap-around of [uint]. *)
Definition u32 (x : Z) : Z := x mod 2 ^ 32.

(** A [uint] value assigned to an [int]: the same 32 bits, read in two's
    complement. *)
Definition int_of_uint (x : Z) : Z :=
  if u32 x <? 2 ^ 31 then u32 x else u32 x - 2 ^ 32.

(** ** Outcomes of a member function *)

Inductive result (A : Type) : Type :=
  | Ok (a : A)
  | AssertFailed
  | Undefined.
Arguments Ok {A} a.
Arguments AssertFailed {A}.
Arguments Undefined {A}.

Global Instance result_ret : MRet result := @Ok.
Global Instance result_bind : MBind result := fun A B f m =>
  match m with
  | Ok a => f a
  | AssertFailed => AssertFailed
  | Undefined => Undefined
  end.

(** [assert(b)]. *)
Definition assert (b : bool) : result unit :=
  if b then Ok tt else AssertFailed.

(** An array access: outside the array the behaviour is undefined. *)
Definition at_index {A} (l : list A) (i : Z) : result A :=
  if decide (0 <= i) then
    match l !! Z.to_nat i with Some x => Ok x | None => Undefined end
  else Undefined.

Definition store_index {A} (l : list A) (i : Z) (x : A) : result (list A) :=
  if decide (0 <= i) then
    if decide (Z.to_nat i < length l)%nat then Ok (<[Z.to_nat i := x]> l)
    else Undefined
  else Undefined.

(** ** An ordered map, as [std::map<long, T>]

    Entries are kept in ascending key order, so that [begin()] is the head
    of the list. *)

Module OMap.
Section omap.
Context {V : Type}.

Fixpoint find (k : Z) (m : list (Z * V)) : option V :=
  match m with
  | [] => None
  | (k', v) :: m' => if k' =? k then Some v else find k m'
  end.

Fixpoint insert (k : Z) (v : V) (m : list (Z * V)) : list (Z * V) :=
  match m with
  | [] => [(k, v)]
  | (k', v') :: m' =>
      if k <? k' then (k, v) :: m
      else if k =? k' then (k, v) :: m'
      else (k', v') :: insert k v m'
  end.

Fixpoint erase (k : Z) (m : list (Z * V)) : list (Z * V) :=
  match m with
  | [] => []
  | (k', v') :: m' => if k' =? k then erase k m' else (k', v') :: erase k m'
  end.

Definition size (m : list (Z * V)) : Z := Z.of_nat (length m).

Definition begin (m : list (Z * V)) : option (Z * V) := head m.

End omap.
End OMap.

(** ** Configuration constants

    The constants of the configuration ([ssd_config.cpp] is not among the
    sources): they are parameters of every definition below. *)

Record Config := {
  SSD_SIZE : Z;       (* packages (channels) *)
  PACKAGE_SIZE : Z;   (* dies per package *)
  DIE_SIZE : Z;       (* planes per die *)
  PLANE_SIZE : Z;     (* blocks per plane *)
  BLOCK_SIZE : Z;     (* pages per block *)
  PAGE_SIZE : Z;      (* bytes per page *)
  BLOCK_ERASES : Z;   (* erase budget of a block *)
  PAGE_MAX_LOG : Z    (* size of the pool of random log blocks *)
}.

(** ** Addresses *)

Module Address.

Record t := make {
  package : Z;
  die : Z;
  plane : Z;
  block : Z;
  page : Z;
  real_address : Z;
  valid : address_valid
}.

Global Instance eq_dec : EqDecision t.
Proof. solve_decision. Defined.

(** Modelled from the spec: [Address::Address()], the default
    constructor of the absent [ssd_address.cpp]: no field is
    meaningful. *)
Definition default : t := make 0 0 0 0 0 0 NONE.

(** Modelled from the spec: [Address::set_linear_address] and the
    constructor [Address(linear, valid)] of the absent
    [ssd_address.cpp]. The linear address is the dense mixed-radix
    encoding of (package, die, plane, block, page); the page is
    [linear mod BLOCK_SIZE]. The linear address itself is kept in
    [real_address], the member [random_merge] reads. *)
Definition of_linear (cfg : Config) (linear : Z) (v : address_valid) : t :=
  let a1 := linear / BLOCK_SIZE cfg in
  let a2 := a1 / PLANE_SIZE cfg in
  let a3 := a2 / DIE_SIZE cfg in
  let a4 := a3 / PACKAGE_SIZE cfg in
  {| package := a4 mod SSD_SIZE cfg;
     die := a3 mod PACKAGE_SIZE cfg;
     plane := a2 mod DIE_SIZE cfg;
     block := a1 mod PLANE_SIZE cfg;
     page := linear mod BLOCK_SIZE cfg;
     real_address := linear;
     valid := v |}.

(** [Address::get_linear_address]. *)
Definition get_linear_address (a : t) : Z := real_address a.

Definition set_valid (v : address_valid) (a : t) : t :=
  make (package a) (die a) (plane a) (block a) (page a) (real_address a) v.

Definition set_page (p : Z) (a : t) : t :=
  make (package a) (die a) (plane a) (block a) p (real_address a) (valid a).

End Address.

(** ** Events

    An event and the chain of events hung off it ([set_next]): the chain is
    the list [chain], in order; [get_last_event] followed by [set_next]
    appends to it. *)

Record EventNode := {
  node_type : event_type;
  node_logical_address : Z;
  node_address : Address.t;
  node_payload : option Z   (* byte offset into [page_data], when set *)
}.

Record Event := {
  ev_type : event_type;
  logical_address : Z;
  address : Address.t;
  replace_address : Address.t;
  garbage_collection_op : bool;
  chain : list EventNode
}.

Global Instance EventNode_eq_dec : EqDecision EventNode.
Proof. solve_decision. Defined.
Global Instance Event_eq_dec : EqDecision Event.
Proof. solve_decision. Defined.

Definition set_address (a : Address.t) (e : Event) : Event :=
  {| ev_type := ev_type e; logical_address := logical_address e;
     address := a; replace_address := replace_address e;
     garbage_collection_op := garbage_collection_op e; chain := chain e |}.

Definition append_chain (ns : list EventNode) (e : Event) : Event :=
  {| ev_type := ev_type e; logical_address := logical_address e;
     address := address e; replace_address := replace_address e;
     garbage_collection_op := garbage_collection_op e;
     chain := chain e ++ ns |}.

(** [Event(type, logical_address, 1, start_time)]. *)
Definition new_event (t : event_type) (la : Z) : Event :=
  {| ev_type := t; logical_address := la; address := Address.default;
     replace_address := Address.default; garbage_collection_op := false;
     chain := [] |}.

(** * The FAST FTL ([FTLs/fast_ftl.cpp]) *)

Module LogPageBlock.

(** Modelled from the spec: [class LogPageBlock] (declared in the absent
    [ssd.h]): the address of the physical block and, per page offset of the
    logical block, the slot of the log block that holds the page, [-1] when
    the log block does not hold it. *)
Record t := make {
  pages : list Z;
  address : Address.t
}.

(** Modelled from the spec: [LogPageBlock::LogPageBlock()], every page
    offset empty. *)
Definition new (cfg : Config) : t :=
  make (replicate (Z.to_nat (BLOCK_SIZE cfg)) (-1)) Address.default.

Definition set_address (a : Address.t) (lb : t) : t := make (pages lb) a.

End LogPageBlock.

Module Fast.

(** What the FTL prints. *)
Inductive message :=
  | PageReadNotWritten (la : Z)
  | Killing (exLogicalBlock : Z) (exAddress : Z)
  | UsingNewLogBlock (linear : Z) (blk : Z) (logicalBlockAddress : Z)
  | UsingNewDataBlock (linear : Z) (blk : Z)
  | EmptyPage
  | SwitchSequential
  | MergeSequential.

(** What the FTL sends to the manager and to the controller. *)
Inductive call :=
  | GetFreeBlock (t : block_type)
  | Invalidate (a : Address.t) (t : block_type)
  | InsertEvents (e : Event)
  | SimulateMapWrite (e : Event)
  | SimulateMapRead (e : Event)
  | GetFreePage (a : Address.t)
  | Issue (e : Event).

(** The collaborators. Each answer may depend on everything the FTL has
    sent so far (the log of calls, oldest first). *)
Record Env := {
  env_get_free_block : list call -> block_type -> Address.t;
  env_get_state : list call -> Address.t -> page_state;
  env_get_block_state : list call -> Address.t -> block_state;
  env_get_free_page : list call -> Address.t -> Address.t;
  env_issue : list call -> Event -> status;
  env_consolidate_metaevent : list call -> Event -> Event
}.

(** The members of [FtlImpl_Fast], with the log of calls and the output. *)
Record State := {
  addressShift : Z;
  addressSize : Z;
  data_list : list Z;
  log_map : list (Z * LogPageBlock.t);
  sequential_address : Address.t;
  sequential_logical_address : Z;
  sequential_offset : Z;
  calls : list call;
  output : list message
}.

Definition set_data_list (dl : list Z) (st : State) : State :=
  {| addressShift := addressShift st; addressSize := addressSize st;
     data_list := dl; log_map := log_map st;
     sequential_address := sequential_address st;
     sequential_logical_address := sequential_logical_address st;
     sequential_offset := sequential_offset st;
     calls := calls st; output := output st |}.

Definition set_log_map (m : list (Z * LogPageBlock.t)) (st : State) : State :=
  {| addressShift := addressShift st; addressSize := addressSize st;
     data_list := data_list st; log_map := m;
     sequential_address := sequential_address st;
     sequential_logical_address := sequential_logical_address st;
     sequential_offset := sequential_offset st;
     calls := calls st; output := output st |}.

Definition set_sequential (a : Address.t) (l : Z) (off : Z) (st : State) : State :=
  {| addressShift := addressShift st; addressSize := addressSize st;
     data_list := data_list st; log_map := log_map st;
     sequential_address := a;
     sequential_logical_address := l;
     sequential_offset := off;
     calls := calls st; output := output st |}.

Definition log_call (c : call) (st : State) : State :=
  {| addressShift := addressShift st; addressSize := addressSize st;
     data_list := data_list st; log_map := log_map st;
     sequential_address := sequential_address st;
     sequential_logical_address := sequential_logical_address st;
     sequential_offset := sequential_offset st;
     calls := calls st ++ [c]; output := output st |}.

Definition add_output (ms : list message) (st : State) : State :=
  {| addressShift := addressShift st; addressSize := addressSize st;
     data_list := data_list st; log_map := log_map st;
     sequential_address := sequential_address st;
     sequential_logical_address := sequential_logical_address st;
     sequential_offset := sequential_offset st;
     calls := calls st; output := output st ++ ms |}.

Definition print (m : message) (st : State) : State := add_output [m] st.

(** Number of halvings that bring a positive [int] to zero: the loops
    [for (size = n; size > 0; count++) size /= 2] of the constructor. *)
Fixpoint halvings_pos (p : positive) : Z :=
  match p with
  | xH => 1
  | xO q | xI q => 1 + halvings_pos q
  end.

Definition halvings (n : Z) : Z :=
  match n with
  | Zpos p => halvings_pos p
  | _ => 0
  end.

Section fast.
Context (cfg : Config) (env : Env).

(** [FtlImpl_Fast::FtlImpl_Fast]. The constructor leaves
    [sequential_logical_address] uninitialised: its first value is the
    argument [s0]. The products of the sizes are [uint] products; the one
    of the first loop is assigned to an [int]. *)
Definition init (s0 : Z) : State :=
  let numBlocks :=
    u32 (SSD_SIZE cfg * PACKAGE_SIZE cfg * DIE_SIZE cfg * PLANE_SIZE cfg) in
  {| addressShift := halvings (BLOCK_SIZE cfg / 2);
     addressSize :=
       halvings
         (int_of_uint
            (SSD_SIZE cfg * PACKAGE_SIZE cfg * DIE_SIZE cfg * PLANE_SIZE cfg
             * 4));
     data_list := replicate (Z.to_nat numBlocks) (-1);
     log_map := [];
     sequential_address := Address.default;
     sequential_logical_address := s0;
     sequential_offset := 0;
     calls := [];
     output := [] |}.

(** [manager.get_free_block(type)]. *)
Definition get_free_block (t : block_type) (st : State) : Address.t * State :=
  (env_get_free_block env (calls st) t, log_call (GetFreeBlock t) st).

(** [controller.get_free_page(a)], which rewrites [a]. *)
Definition get_free_page (a : Address.t) (st : State) : Address.t * State :=
  (env_get_free_page env (calls st) a, log_call (GetFreePage a) st).

(** [controller.issue(event)]. *)
Definition issue (e : Event) (st : State) : status * State :=
  (env_issue env (calls st) e, log_call (Issue e) st).

(** [FtlImpl_Fast::read]. *)
Definition read (st : State) (event : Event) : result (status * Event * State) :=
  let la := logical_address event in
  let lookupBlock := Z.shiftr la (addressShift st) in
  let eventAddress := Address.of_linear cfg la NONE in
  let logBlock := OMap.find lookupBlock (log_map st) in
  d ← at_index (data_list st) lookupBlock;
  (* logBlock->pages[eventAddress.page], read whenever logBlock != NULL *)
  lp ← match logBlock with
       | None => Ok None
       | Some lb =>
           p ← at_index (LogPageBlock.pages lb) (Address.page eventAddress);
           Ok (Some (lb, p))
       end;
  if (d =? -1) && match lp with Some (_, p) => p =? -1 | None => false end then
    Ok (FAILURE, set_address (Address.of_linear cfg 0 PAGE) event,
        print (PageReadNotWritten la) st)
  else
    let returnAddress :=
      match lp with
      | Some (lb, p) =>
          if negb (p =? -1) then
            (* the page is in the log block *)
            Address.of_linear cfg
              (Address.get_linear_address (LogPageBlock.address lb) + p) PAGE
          else Address.of_linear cfg (d + la mod BLOCK_SIZE cfg) PAGE
      | None =>
          (* the page is in the data block *)
          Address.of_linear cfg (d + la mod BLOCK_SIZE cfg) PAGE
      end in
    let event := set_address returnAddress event in
    let st := log_call (SimulateMapRead event) st in
    let '(s, st) := issue event st in
    Ok (s, event, st).

(** [FtlImpl_Fast::allocate_new_logblock]. The merge of the block that is
    announced as killed is commented out in the source. The pointer
    argument [logBlock] is passed by value and overwritten: it carries
    nothing in or out. *)
Definition allocate_new_logblock (logicalBlockAddress : Z) (event : Event)
    (st : State) : result State :=
  st ← (if OMap.size (log_map st) >=? PAGE_MAX_LOG cfg then
          match OMap.begin (log_map st) with
          | Some (exLogicalBlock, exLogBlock) =>
              Ok (print (Killing exLogicalBlock
                           (Address.get_linear_address
                              (LogPageBlock.address exLogBlock))) st)
          | None => Undefined   (* dereference of end() *)
          end
        else Ok st);
  let '(a, st) := get_free_block LOG st in
  let logBlock := LogPageBlock.set_address a (LogPageBlock.new cfg) in
  let st := print (UsingNewLogBlock (Address.get_linear_address a)
                     (Address.block a) logicalBlockAddress) st in
  Ok (set_log_map (OMap.insert logicalBlockAddress logBlock (log_map st)) st).

(** [FtlImpl_Fast::dispose_logblock]. *)
Definition dispose_logblock (logicalBlockAddress : Z) (st : State) : State :=
  set_log_map (OMap.erase logicalBlockAddress (log_map st)) st.

(** [FtlImpl_Fast::switch_sequential]. *)
Definition switch_sequential (logicalBlockAddress : Z) (event : Event)
    (st : State) : result State :=
  d ← at_index (data_list st) logicalBlockAddress;
  let st :=
    if negb (d =? -1) then
      log_call (Invalidate (Address.of_linear cfg d BLOCK) DATA) st
    else st in
  dl ← store_index (data_list st) logicalBlockAddress
         (Address.get_linear_address (sequential_address st));
  let st := set_data_list dl st in
  let '(a, st) := get_free_block DATA st in
  let st := set_sequential a (-1) 0 st in
  let st := log_call (SimulateMapWrite event) st in
  Ok (print SwitchSequential st).

(** The events a merge creates:
    [Event(READ, event.get_logical_address(), 1, ...)] with its address,
    and [Event(WRITE, ...)] with its address and payload. *)
Definition read_node (la : Z) (a : Address.t) : EventNode :=
  {| node_type := READ; node_logical_address := la;
     node_address := a; node_payload := None |}.

Definition write_node (la : Z) (a : Address.t) (payload : Z) : EventNode :=
  {| node_type := WRITE; node_logical_address := la;
     node_address := a; node_payload := Some payload |}.

(** One slot of a merge: the READ from [readAddress] and the WRITE into
    slot [i] of the new data block, both carrying the logical address of
    the triggering event. *)
Definition merge_pair (newDataBlock : Address.t) (event : Event)
    (readAddress : Address.t) (i : Z) : list EventNode :=
  [ read_node (logical_address event) readAddress;
    write_node (logical_address event)
      (Address.of_linear cfg (Address.get_linear_address newDataBlock + i) PAGE)
      (Address.get_linear_address readAddress * PAGE_SIZE cfg) ].

(** Where slot [i] of [merge_sequential] is read from; [None] is the
    "Empty page" case. [d] is [data_list[logicalBlockAddress]]. *)
Definition merge_sequential_source (st : State) (d : Z) (i : Z) : option Address.t :=
  let seq :=
    Address.of_linear cfg
      (Address.get_linear_address (sequential_address st) + i) PAGE in
  if decide (env_get_state env (calls st) seq = VALID) then Some seq
  else if negb (d =? -1) then Some (Address.of_linear cfg (d + i) PAGE)
  else None.

(** The body of the loops of the two merges, for the slots in order: the
    chain grows by a pair per slot that has a source, and "Empty page" is
    printed for the others. *)
Fixpoint merge_loop (source : Z -> result (option Address.t))
    (newDataBlock : Address.t) (event : Event) (slots : list Z) (st : State)
    : result (Event * State) :=
  match slots with
  | [] => Ok (event, st)
  | i :: slots =>
      src ← source i;
      match src with
      | Some readAddress =>
          merge_loop source newDataBlock
            (append_chain (merge_pair newDataBlock event readAddress i) event)
            slots st
      | None => merge_loop source newDataBlock event slots (print EmptyPage st)
      end
  end.

(** The end of the two merges: invalidation of the log block and of the
    old data block, and the new mapping. *)
Definition merge_finish (logAddress : Address.t) (logicalBlockAddress : Z)
    (d : Z) (newDataBlock : Address.t) (event : Event) (st : State)
    : result State :=
  let st := log_call (Invalidate logAddress LOG) st in
  let st :=
    if negb (d =? -1) then
      log_call (Invalidate (Address.of_linear cfg d BLOCK) DATA) st
    else st in
  dl ← store_index (data_list st) logicalBlockAddress
         (Address.get_linear_address newDataBlock);
  let st := set_data_list dl st in
  let st := log_call (InsertEvents event) st in
  Ok (log_call (SimulateMapWrite event) st).

(** [FtlImpl_Fast::merge_sequential]. [data_list[logicalBlockAddress]] is
    read once here; the source reads it again at each use, with the same
    value, the table being written only at the end. *)
Definition merge_sequential (logicalBlockAddress : Z) (event : Event)
    (st : State) : result (Event * State) :=
  if sequential_logical_address st =? -1 then Ok (event, st)
  else
    let '(newDataBlock, st) := get_free_block DATA st in
    let st := print (UsingNewDataBlock (Address.get_linear_address newDataBlock)
                       (Address.block newDataBlock)) st in
    d ← at_index (data_list st) logicalBlockAddress;
    '(event, st) ← merge_loop (fun i => Ok (merge_sequential_source st d i))
                      newDataBlock event (seqZ 0 (BLOCK_SIZE cfg)) st;
    st ← merge_finish (sequential_address st) logicalBlockAddress d
           newDataBlock event st;
    Ok (event, print MergeSequential st).

(** Where slot [i] of [random_merge] is read from. The test is made on the
    page of the triggering event, the read on slot [i]. *)
Definition random_merge_source (logBlock : LogPageBlock.t) (event : Event)
    (d : Z) (i : Z) : result (option Address.t) :=
  let eventAddress := Address.of_linear cfg (logical_address event) NONE in
  p ← at_index (LogPageBlock.pages logBlock) (Address.page eventAddress);
  if negb (p =? -1) then
    q ← at_index (LogPageBlock.pages logBlock) i;
    Ok (Some (Address.of_linear cfg
                (Address.real_address (LogPageBlock.address logBlock) + q) PAGE))
  else if negb (d =? -1) then Ok (Some (Address.of_linear cfg (d + i) PAGE))
  else Ok None.

(** [FtlImpl_Fast::random_merge]. *)
Definition random_merge (logBlock : LogPageBlock.t) (logicalBlockAddress : Z)
    (event : Event) (st : State) : result (bool * Event * State) :=
  let '(newDataBlock, st) := get_free_block DATA st in
  let st := print (UsingNewDataBlock (Address.get_linear_address newDataBlock)
                     (Address.block newDataBlock)) st in
  d ← at_index (data_list st) logicalBlockAddress;
  '(event, st) ← merge_loop (random_merge_source logBlock event d)
                    newDataBlock event (seqZ 0 (BLOCK_SIZE cfg)) st;
  st ← merge_finish (LogPageBlock.address logBlock) logicalBlockAddress d
         newDataBlock event st;
  Ok (true, event, dispose_logblock logicalBlockAddress st).

(** [FtlImpl_Fast::write_to_log_block]. *)
Definition write_to_log_block (event : Event) (logicalBlockAddress : Z)
    (st : State) : result (bool * Event * State) :=
  let lbnOffset := u32 (logical_address event mod BLOCK_SIZE cfg) in
  if lbnOffset =? 0 then
    (* Case 1 in Figure 5 *)
    '(event, st) ←
      (if sequential_offset st =? u32 (BLOCK_SIZE cfg - 1) then
         st ← switch_sequential logicalBlockAddress event st; Ok (event, st)
       else merge_sequential logicalBlockAddress event st);
    let '(a, st) := get_free_block DATA st in
    let st := set_sequential a logicalBlockAddress 1 st in
    let '(seq, st) := get_free_page (sequential_address st) st in
    Ok (true, set_address seq event, st)
  else if sequential_logical_address st =? logicalBlockAddress then
    if lbnOffset =? sequential_offset st then
      (* append to the sequential log block *)
      let '(seq, st) := get_free_page (sequential_address st) st in
      let event := set_address seq event in
      Ok (true, event,
          set_sequential (sequential_address st) (sequential_logical_address st)
            (u32 (sequential_offset st + 1)) st)
    else
      '(event, st) ← merge_sequential logicalBlockAddress event st;
      let '(a, st) := get_free_block DATA st in
      Ok (true, event, set_sequential a logicalBlockAddress 1 st)
  else
    (* the random log blocks: the branch is empty in the source *)
    Ok (true, event, st).

(** [FtlImpl_Fast::write]. *)
Definition write (st : State) (event : Event) : result (status * Event * State) :=
  let logicalBlockAddress :=
    Z.shiftr (logical_address event) (addressShift st) in
  st ← (if OMap.find logicalBlockAddress (log_map st) is None
        then allocate_new_logblock logicalBlockAddress event st
        else Ok st);
  logBlock ← (match OMap.find logicalBlockAddress (log_map st) with
              | Some lb => Ok lb
              | None => Undefined
              end);
  let logBlockState :=
    env_get_block_state env (calls st) (LogPageBlock.address logBlock) in
  _ ← assert (bool_decide (logBlockState <> INACTIVE));
  let '(s, st) := issue event st in
  if decide (s = FAILURE) then Ok (FAILURE, event, st)
  else
    Ok (SUCCESS, env_consolidate_metaevent env (calls st) event, st).

End fast.
End Fast.

(** * The block manager ([ssd_block_manager_parent.cpp]) *)

(** ** A set of block pointers, as [std::set<Block*>]

    A pointer to a block is the index of the block in [all_blocks] (the
    order in which the constructor walks the device). A set is the list of
    its elements in ascending order, the order in which it is iterated. *)

Module BSet.

Fixpoint insert (x : Z) (s : list Z) : list Z :=
  match s with
  | [] => [x]
  | y :: s' =>
      if x <? y then x :: s
      else if x =? y then s
      else y :: insert x s'
  end.

Fixpoint erase (x : Z) (s : list Z) : list Z :=
  match s with
  | [] => []
  | y :: s' => if y =? x then erase x s' else y :: erase x s'
  end.

Fixpoint count (x : Z) (s : list Z) : Z :=
  match s with
  | [] => 0
  | y :: s' => if y =? x then 1 else count x s'
  end.

Definition size (s : list Z) : Z := Z.of_nat (length s).

End BSet.

(** ** Nested vectors *)

Definition at_index3 {A} (v : list (list (list A))) (i j k : Z) : result A :=
  x ← at_index v i; y ← at_index x j; at_index y k.

Definition update_index3 {A} (v : list (list (list A))) (i j k : Z)
    (f : A -> A) : result (list (list (list A))) :=
  x ← at_index v i;
  y ← at_index x j;
  z ← at_index y k;
  y' ← store_index y k (f z);
  x' ← store_index x j y';
  store_index v i x'.

(** A loop that gathers one value per index. *)
Fixpoint gather {A B} (f : A -> result B) (l : list A) : result (list B) :=
  match l with
  | [] => Ok []
  | x :: l' => y ← f x; ys ← gather f l'; Ok (y :: ys)
  end.

Module BM.

(** Modelled from the spec: what the block manager reads of a [Block] of
    the device (the class is declared in the absent [ssd.h]): its physical
    address, the numbers of valid and invalid pages, its state, the erases
    it has left and the states of its pages. *)
Record Block := {
  physical_address : Z;
  pages_valid : Z;
  pages_invalid : Z;
  state : block_state;
  erases_remaining : Z;
  page_states : list page_state
}.

(** The members of [Block_manager_parent], and what it has handed to the
    scheduler: each entry of [scheduled] is one call of
    [schedule_independent_event] (one event) or of
    [schedule_dependent_events] (the queue, in order). The page counters
    are declared in the absent [ssd.h]; arithmetic on them is exact here.
    The ages are [uint]. *)
Record State := {
  free_block_pointers : list (list Address.t);
  free_blocks : list (list (list (list Address.t)));
  all_blocks : list Z;
  greedy_gc : bool;
  max_age : Z;
  min_age : Z;
  num_age_classes : Z;
  blocks_with_min_age : list Z;
  num_free_pages : Z;
  num_available_pages_for_new_writes : Z;
  gc_candidates : list (list (list (list Z)));
  scheduled : list (list Event)
}.

Definition set_max_age (x : Z) (st : State) : State :=
  {| free_block_pointers := free_block_pointers st;
     free_blocks := free_blocks st; all_blocks := all_blocks st;
     greedy_gc := greedy_gc st; max_age := x; min_age := min_age st;
     num_age_classes := num_age_classes st;
     blocks_with_min_age := blocks_with_min_age st;
     num_free_pages := num_free_pages st;
     num_available_pages_for_new_writes := num_available_pages_for_new_writes st;
     gc_candidates := gc_candidates st; scheduled := scheduled st |}.

Definition set_free_blocks (x : list (list (list (list Address.t))))
    (st : State) : State :=
  {| free_block_pointers := free_block_pointers st;
     free_blocks := x; all_blocks := all_blocks st;
     greedy_gc := greedy_gc st; max_age := max_age st; min_age := min_age st;
     num_age_classes := num_age_classes st;
     blocks_with_min_age := blocks_with_min_age st;
     num_free_pages := num_free_pages st;
     num_available_pages_for_new_writes := num_available_pages_for_new_writes st;
     gc_candidates := gc_candidates st; scheduled := scheduled st |}.

Definition set_blocks_with_min_age (x : list Z) (st : State) : State :=
  {| free_block_pointers := free_block_pointers st;
     free_blocks := free_blocks st; all_blocks := all_blocks st;
     greedy_gc := greedy_gc st; max_age := max_age st; min_age := min_age st;
     num_age_classes := num_age_classes st;
     blocks_with_min_age := x;
     num_free_pages := num_free_pages st;
     num_available_pages_for_new_writes := num_available_pages_for_new_writes st;
     gc_candidates := gc_candidates st; scheduled := scheduled st |}.

Definition set_num_free_pages (x : Z) (st : State) : State :=
  {| free_block_pointers := free_block_pointers st;
     free_blocks := free_blocks st; all_blocks := all_blocks st;
     greedy_gc := greedy_gc st; max_age := max_age st; min_age := min_age st;
     num_age_classes := num_age_classes st;
     blocks_with_min_age := blocks_with_min_age st;
     num_free_pages := x;
     num_available_pages_for_new_writes := num_available_pages_for_new_writes st;
     gc_candidates := gc_candidates st; scheduled := scheduled st |}.

Definition set_num_available (x : Z) (st : State) : State :=
  {| free_block_pointers := free_block_pointers st;
     free_blocks := free_blocks st; all_blocks := all_blocks st;
     greedy_gc := greedy_gc st; max_age := max_age st; min_age := min_age st;
     num_age_classes := num_age_classes st;
     blocks_with_min_age := blocks_with_min_age st;
     num_free_pages := num_free_pages st;
     num_available_pages_for_new_writes := x;
     gc_candidates := gc_candidates st; scheduled := scheduled st |}.

Definition set_gc_candidates (x : list (list (list (list Z))))
    (st : State) : State :=
  {| free_block_pointers := free_block_pointers st;
     free_blocks := free_blocks st; all_blocks := all_blocks st;
     greedy_gc := greedy_gc st; max_age := max_age st; min_age := min_age st;
     num_age_classes := num_age_classes st;
     blocks_with_min_age := blocks_with_min_age st;
     num_free_pages := num_free_pages st;
     num_available_pages_for_new_writes := num_available_pages_for_new_writes st;
     gc_candidates := x; scheduled := scheduled st |}.

Definition schedule (es : list Event) (st : State) : State :=
  {| free_block_pointers := free_block_pointers st;
     free_blocks := free_blocks st; all_blocks := all_blocks st;
     greedy_gc := greedy_gc st; max_age := max_age st; min_age := min_age st;
     num_age_classes := num_age_classes st;
     blocks_with_min_age := blocks_with_min_age st;
     num_free_pages := num_free_pages st;
     num_available_pages_for_new_writes := num_available_pages_for_new_writes st;
     gc_candidates := gc_candidates st; scheduled := scheduled st ++ [es] |}.

Section bm.
(** The device ([ssd]) is read, never written, by the block manager: it is
    the list of its blocks in the order of [all_blocks]. The FTL answers
    [get_logical_address]. *)
Context (cfg : Config) (ssd : list Block) (get_logical_address : Address.t -> Z).

(** [&ssd.getPackages()[a.package].getDies()[a.die].getPlanes()[a.plane]
    .getBlocks()[a.block]]: each subscript has to be inside its array. *)
Definition block_pointer (a : Address.t) : result Z :=
  if bool_decide (0 <= Address.package a < SSD_SIZE cfg) &&
     bool_decide (0 <= Address.die a < PACKAGE_SIZE cfg) &&
     bool_decide (0 <= Address.plane a < DIE_SIZE cfg) &&
     bool_decide (0 <= Address.block a < PLANE_SIZE cfg)
  then
    Ok (((Address.package a * PACKAGE_SIZE cfg + Address.die a) * DIE_SIZE cfg
         + Address.plane a) * PLANE_SIZE cfg + Address.block a)
  else Undefined.

(** Dereference of a block pointer. *)
Definition deref (b : Z) : result Block := at_index ssd b.

(** [Block_manager_parent::sort_into_age_class]. The quotient of the two
    [uint] differences is an integer division; its conversion to [double]
    is exact. The product with [num_age_classes] and [0.99999] is taken in
    exact arithmetic: [floor(q * n * 0.99999)] is [(q * n * 99999) / 100000]. *)
Definition sort_into_age_class (a : Address.t) (st : State) : result (Z * State) :=
  p ← block_pointer a;
  b ← deref p;
  let age := u32 (BLOCK_ERASES cfg - erases_remaining b) in
  let st := if age >? max_age st then set_max_age age st else st in
  let denominator := u32 (max_age st - min_age st) in
  if denominator =? 0 then Undefined
  else
    let normalized_age := u32 (age - min_age st) / denominator in
    let klass := (normalized_age * num_age_classes st * 99999) / 100000 in
    Ok (klass, st).

(** [Block_manager_parent::register_erase_outcome]. *)
Definition register_erase_outcome (event : Event) (s : status) (st : State)
    : result State :=
  let a := Address.set_page 0 (Address.set_valid PAGE (address event)) in
  '(age_class, st) ← sort_into_age_class a st;
  fb ← update_index3 (free_blocks st) (Address.package a) (Address.die a)
         age_class (fun v => v ++ [a]);
  let st := set_free_blocks fb st in
  let st := set_num_free_pages (num_free_pages st + BLOCK_SIZE cfg) st in
  Ok (set_num_available
        (num_available_pages_for_new_writes st + BLOCK_SIZE cfg) st).

(** [Event(t, logical_address, 1, ...)] with [set_garbage_collection_op(true)]. *)
Definition gc_event (t : event_type) (la : Z) (a ra : Address.t) : Event :=
  {| ev_type := t; logical_address := la; address := a;
     replace_address := ra; garbage_collection_op := true; chain := [] |}.

(** The body of the loop of [migrate] for page [i] of the block. *)
Definition migrate_page (block : Block) (st : State) (i : Z) : result State :=
  pg ← at_index (page_states block) i;
  if decide (pg = VALID) then
    let addr :=
      Address.set_page i (Address.of_linear cfg (physical_address block) PAGE) in
    let logical_address := get_logical_address addr in
    let read := gc_event READ logical_address addr Address.default in
    let write := gc_event WRITE logical_address Address.default addr in
    Ok (schedule [read; write] st)
  else Ok st.

Fixpoint migrate_pages (block : Block) (slots : list Z) (st : State)
    : result State :=
  match slots with
  | [] => Ok st
  | i :: slots => st ← migrate_page block st i; migrate_pages block slots st
  end.

(** [Block_manager_parent::migrate]. *)
Definition migrate (b : Z) (st : State) : result State :=
  block ← deref b;
  _ ← assert (bool_decide (state block <> FREE) &&
              bool_decide (state block <> PARTIALLY_FREE) &&
              (pages_valid block <=? num_available_pages_for_new_writes st));
  let st :=
    set_num_available
      (num_available_pages_for_new_writes st - pages_valid block) st in
  migrate_pages block (seqZ 0 (BLOCK_SIZE cfg)) st.

(** The scan of [choose_gc_victim] over one candidate set, then over all of
    them: the pair is ([min_valid_pages], [best_block]). *)
Fixpoint scan_set (s : list Z) (acc : Z * option Z) : result (Z * option Z) :=
  match s with
  | [] => Ok acc
  | candidate :: s' =>
      block ← deref candidate;
      if pages_valid block <? fst acc
      then scan_set s' (pages_valid block, Some candidate)
      else scan_set s' acc
  end.

Fixpoint scan_candidates (candidates : list (list Z)) (acc : Z * option Z)
    : result (Z * option Z) :=
  match candidates with
  | [] => Ok acc
  | s :: candidates' => acc ← scan_set s acc; scan_candidates candidates' acc
  end.

(** [Block_manager_parent::choose_gc_victim]. *)
Definition choose_gc_victim (candidates : list (list Z)) (st : State)
    : result State :=
  '(_, best_block) ← scan_candidates candidates (BLOCK_SIZE cfg, None);
  match best_block with
  | None => Ok st
  | Some best =>
      block ← deref best;
      let addr := Address.of_linear cfg (physical_address block) BLOCK in
      '(age_class, st) ← sort_into_age_class addr st;
      s ← at_index3 (gc_candidates st) (Address.package addr)
            (Address.die addr) age_class;
      _ ← assert (BSet.count best s =? 1);
      gc ← update_index3 (gc_candidates st) (Address.package addr)
             (Address.die addr) age_class (BSet.erase best);
      let st := set_gc_candidates gc st in
      s ← at_index3 (gc_candidates st) (Address.package addr)
            (Address.die addr) age_class;
      _ ← assert (BSet.count best s =? 0);
      migrate best st
  end.

(** The vector [candidates] that each overload of [perform_gc] fills
    before it calls [choose_gc_victim]: the whole device, one die, one age
    class, one age class of one die. *)
Definition candidates_of_device (st : State) : result (list (list Z)) :=
  candidates ←
    gather (fun i =>
      gather (fun j =>
        gather (fun k => at_index3 (gc_candidates st) i j k)
          (seqZ 0 (num_age_classes st)))
        (seqZ 0 (PACKAGE_SIZE cfg)))
      (seqZ 0 (SSD_SIZE cfg));
  Ok (concat (concat candidates)).

Definition candidates_of_die (package_id die_id : Z) (st : State)
    : result (list (list Z)) :=
  x ← at_index (gc_candidates st) package_id;
  at_index x die_id.

Definition candidates_of_class (klass : Z) (st : State)
    : result (list (list Z)) :=
  candidates ←
    gather (fun i =>
      gather (fun j => at_index3 (gc_candidates st) i j klass)
        (seqZ 0 (PACKAGE_SIZE cfg)))
      (seqZ 0 (SSD_SIZE cfg));
  Ok (concat candidates).

Definition candidates_of_die_class (package_id die_id klass : Z) (st : State)
    : result (list (list Z)) :=
  s ← at_index3 (gc_candidates st) package_id die_id klass;
  Ok [s].

(** [Block_manager_parent::perform_gc(double)]: the whole device. *)
Definition perform_gc (st : State) : result State :=
  candidates ← candidates_of_device st;
  choose_gc_victim candidates st.

(** [Block_manager_parent::perform_gc(uint, uint, double)]: one die. *)
Definition perform_gc_die (package_id die_id : Z) (st : State) : result State :=
  candidates ← candidates_of_die package_id die_id st;
  choose_gc_victim candidates st.

(** [Block_manager_parent::perform_gc(uint, double)]: one age class. *)
Definition perform_gc_class (klass : Z) (st : State) : result State :=
  candidates ← candidates_of_class klass st;
  choose_gc_victim candidates st.

(** [Block_manager_parent::perform_gc(uint, uint, uint, double)]: one age
    class of one die. *)
Definition perform_gc_die_class (package_id die_id klass : Z) (st : State)
    : result State :=
  candidates ← candidates_of_die_class package_id die_id klass st;
  choose_gc_victim candidates st.

(** [Block_manager_parent::register_write_outcome]. *)
Definition register_write_outcome (event : Event) (s : status) (st : State)
    : result State :=
  _ ← assert (num_free_pages st >? 0);
  let st := set_num_free_pages (num_free_pages st - 1) st in
  st ← (if negb (garbage_collection_op event) then
          _ ← assert (num_available_pages_for_new_writes st >? 0);
          Ok (set_num_available (num_available_pages_for_new_writes st - 1) st)
        else Ok st);
  (* very few pages left: emergency GC *)
  st ← (if num_free_pages st <=? BLOCK_SIZE cfg then perform_gc st else Ok st);
  let ra := replace_address event in
  p ← block_pointer ra;
  block ← deref p;
  '(age_class, st) ← sort_into_age_class ra st;
  st ← (if bool_decide (state block = ACTIVE) then
          small ← (if pages_invalid block <? BLOCK_SIZE cfg / 4 then Ok true
                   else
                     c ← at_index3 (gc_candidates st) (Address.package ra)
                           (Address.die ra) age_class;
                     Ok (BSet.size c =? 0));
          if (small : bool) then
            gc ← update_index3 (gc_candidates st) (Address.package ra)
                   (Address.die ra) age_class (BSet.insert p);
            Ok (set_gc_candidates gc st)
          else Ok st
        else Ok st);
  (* the block is now empty of valid data: erase it *)
  if pages_invalid block =? BLOCK_SIZE cfg then
    let erase :=
      gc_event ERASE 0 (Address.of_linear cfg (physical_address block) BLOCK)
        Address.default in
    gc ← update_index3 (gc_candidates st) (Address.package ra)
           (Address.die ra) age_class (BSet.erase p);
    Ok (schedule [erase] (set_gc_candidates gc st))
  else Ok st.

(** [Block_manager_parent::update_blocks_with_min_age]. *)
Fixpoint update_blocks_with_min_age_from (blocks : list Z) (min_age : Z)
    (st : State) : result State :=
  match blocks with
  | [] => Ok st
  | b :: blocks' =>
      block ← deref b;
      let age_ith_block := u32 (BLOCK_ERASES cfg - erases_remaining block) in
      let st :=
        if age_ith_block =? min_age
        then set_blocks_with_min_age (BSet.insert b (blocks_with_min_age st)) st
        else st in
      update_blocks_with_min_age_from blocks' min_age st
  end.

Definition update_blocks_with_min_age (min_age : Z) (st : State) : result State :=
  update_blocks_with_min_age_from (all_blocks st) min_age st.

(** The last loop of [Wear_Level] over the queue [blocks_to_wl]. *)
Fixpoint wear_level_queue (blocks_to_wl : list Z) (st : State) : result State :=
  match blocks_to_wl with
  | [] => Ok st
  | target :: rest =>
      block ← deref target;
      if num_available_pages_for_new_writes st >? pages_valid block then
        let st :=
          set_num_available
            (num_available_pages_for_new_writes st - pages_valid block) st in
        st ← migrate target st;
        wear_level_queue rest st
      else Ok st
  end.

(** [Block_manager_parent::Wear_Level]. The [min_age] of this function is a
    local variable of that name, not the member. *)
Definition Wear_Level (event : Event) (st : State) : result State :=
  let pba := address event in
  b ← block_pointer pba;
  block ← deref b;
  let age := u32 (BLOCK_ERASES cfg - erases_remaining block) in
  first ← (match blocks_with_min_age st with
           | f :: _ => deref f
           | [] => Undefined   (* dereference of end() *)
           end);
  let min_age := u32 (BLOCK_ERASES cfg - erases_remaining first) in
  '(blocks_to_wl, st) ←
    (if age >? max_age st then
       let st := set_max_age age st in
       let age_diff := u32 (max_age st - min_age) in
       if age_diff >? 500 then
         let queue := blocks_with_min_age st in
         st ← update_blocks_with_min_age (u32 (min_age + 1)) st;
         Ok (queue, st)
       else Ok ([], st)
     else if (BSet.count b (blocks_with_min_age st) =? 1) &&
             (BSet.size (blocks_with_min_age st) >? 1) then
       Ok ([], set_blocks_with_min_age (BSet.erase b (blocks_with_min_age st)) st)
     else if (BSet.count b (blocks_with_min_age st) =? 1) &&
             (BSet.size (blocks_with_min_age st) =? 1) then
       let st :=
         set_blocks_with_min_age (BSet.erase b (blocks_with_min_age st)) st in
       st ← update_blocks_with_min_age min_age st;
       Ok ([], st)
     else Ok ([], st));
  wear_level_queue blocks_to_wl st.

(** [Block_manager_parent::register_read_outcome]. *)
Definition register_read_outcome (event : Event) (s : status) (st : State)
    : result State :=
  _ ← assert (bool_decide (ev_type event = READ_COMMAND));
  Ok st.

(** [Block_manager_parent::can_write]. *)
Definition can_write (write : Event) (st : State) : bool :=
  (num_available_pages_for_new_writes st >? 0) || garbage_collection_op write.

(** [Block_manager_parent::check_if_should_trigger_more_GC]: the loop over
    the dies, then the function. *)
Fixpoint check_dies (dies : list (Z * Z)) (st : State) : result State :=
  match dies with
  | [] => Ok st
  | (i, j) :: dies' =>
      x ← at_index (free_block_pointers st) i;
      pointer ← at_index x j;
      st ← (if Address.page pointer >=? BLOCK_SIZE cfg
            then perform_gc_die_class i j 0 st else Ok st);
      check_dies dies' st
  end.

(** The pairs (package, die) in the order of the two nested loops. *)
Definition all_dies : list (Z * Z) :=
  i ← seqZ 0 (SSD_SIZE cfg); j ← seqZ 0 (PACKAGE_SIZE cfg); [(i, j)].

Definition check_if_should_trigger_more_GC (st : State) : result State :=
  st ← (if num_free_pages st <=? BLOCK_SIZE cfg then perform_gc st else Ok st);
  check_dies all_dies st.

(** [Block_manager_parent::find_free_unused_block(uint, uint, uint, double)]:
    a free block of one age class of one die. *)
Definition find_free_unused_block_die_class (package_id die_id klass : Z)
    (st : State) : result (Address.t * State) :=
  _ ← assert (klass <? num_age_classes st);
  v ← at_index3 (free_blocks st) package_id die_id klass;
  '(to_return, st) ←
    (match last v with
     | Some a =>
         fb ← update_index3 (free_blocks st) package_id die_id klass
                (@removelast Address.t);
         Ok (a, set_free_blocks fb st)
     | None => Ok (Address.of_linear cfg 0 NONE, st)
     end);
  v ← at_index3 (free_blocks st) package_id die_id klass;
  st ← (if greedy_gc st && (Z.of_nat (length v) <? 2)
        then perform_gc_die_class package_id die_id klass st else Ok st);
  Ok (to_return, st).

(** The loops of the other overloads: the first address that is not NONE
    among the answers of [find] for the indices in turn. *)
Fixpoint first_found (find : Z -> State -> result (Address.t * State))
    (indices : list Z) (st : State) : result (Address.t * State) :=
  match indices with
  | [] => Ok (Address.of_linear cfg 0 NONE, st)
  | i :: indices' =>
      '(address, st) ← find i st;
      if bool_decide (Address.valid address <> NONE) then Ok (address, st)
      else first_found find indices' st
  end.

(** [Block_manager_parent::find_free_unused_block(uint, uint, double)]: a
    free block of one die. The bound of the loop is the number of age
    classes of the die in [free_blocks], which no call changes. *)
Definition find_free_unused_block_die (package_id die_id : Z) (st : State)
    : result (Address.t * State) :=
  x ← at_index (free_blocks st) package_id;
  classes ← at_index x die_id;
  first_found (find_free_unused_block_die_class package_id die_id)
    (seqZ 0 (Z.of_nat (length classes))) st.

(** [Block_manager_parent::find_free_unused_block(uint, double)]: a free
    block of one package. *)
Definition find_free_unused_block_package (package_id : Z) (st : State)
    : result (Address.t * State) :=
  first_found (find_free_unused_block_die package_id)
    (seqZ 0 (PACKAGE_SIZE cfg)) st.

(** [Block_manager_parent::find_free_unused_block(double)]: a free block
    from anywhere. *)
Definition find_free_unused_block (st : State) : result (Address.t * State) :=
  first_found find_free_unused_block_package (seqZ 0 (SSD_SIZE cfg)) st.

(** [Block_manager_parent::find_free_unused_block_with_class]: the loop
    over the dies, then the function. [back()] of an empty vector is
    undefined. *)
Fixpoint with_class_dies (klass : Z) (dies : list (Z * Z)) (st : State)
    : result (Address.t * State) :=
  match dies with
  | [] => Ok (Address.of_linear cfg 0 NONE, st)
  | (i, j) :: dies' =>
      v ← at_index3 (free_blocks st) i j klass;
      match last v with
      | None => Undefined
      | Some a =>
          if bool_decide (Address.valid a <> NONE) then
            st ← (if greedy_gc st && (Z.of_nat (length v) <? 2)
                  then perform_gc_die_class i j klass st else Ok st);
            Ok (a, st)
          else with_class_dies klass dies' st
      end
  end.

Definition find_free_unused_block_with_class (klass : Z) (st : State)
    : result (Address.t * State) :=
  _ ← assert (klass <? num_age_classes st);
  with_class_dies klass all_dies st.

(** The blocks of die [j] of package [i], in the order of the two inner
    loops of the constructor: for each block its pointer and the address
    [Address(block.get_physical_address(), PAGE)]. *)
Definition die_blocks (i j : Z) : result (list (Z * Address.t)) :=
  rows ←
    gather (fun t =>
      gather (fun b =>
        p ← block_pointer (Address.make i j t b 0 0 NONE);
        block ← deref p;
        Ok (p, Address.of_linear cfg (physical_address block) PAGE))
        (seqZ 0 (PLANE_SIZE cfg)))
      (seqZ 0 (DIE_SIZE cfg));
  Ok (concat rows).

(** [Block_manager_parent::Block_manager_parent]. For each die the blocks
    are pushed on the free list of class 0, and the last of them is taken
    back as the append pointer of the die: without a class 0, or without a
    block in the die, the access is outside a vector. (A negative number
    of classes makes the vector constructors throw; it is [Undefined]
    here.) *)
Definition init (num_age_classes : Z) : result State :=
  if num_age_classes <? 0 then Undefined
  else
    dies ←
      gather (fun i =>
        gather (fun j =>
          blocks ← die_blocks i j;
          if num_age_classes =? 0 then Undefined
          else
            match last blocks with
            | None => Undefined
            | Some (_, pointer) =>
                Ok (map fst blocks, pointer, removelast (map snd blocks))
            end)
          (seqZ 0 (PACKAGE_SIZE cfg)))
        (seqZ 0 (SSD_SIZE cfg));
    let blocks := concat (map (fun '(ps, _, _) => ps) (concat dies)) in
    let pages :=
      SSD_SIZE cfg * PACKAGE_SIZE cfg * DIE_SIZE cfg * PLANE_SIZE cfg
      * BLOCK_SIZE cfg in
    Ok {| free_block_pointers := map (map (fun '(_, pointer, _) => pointer)) dies;
          free_blocks :=
            map (map (fun '(_, _, rest) =>
                        rest :: replicate (Z.to_nat (num_age_classes - 1)) []))
              dies;
          all_blocks := blocks;
          greedy_gc := true;
          max_age := 1;
          min_age := 0;
          num_age_classes := num_age_classes;
          blocks_with_min_age :=
            fold_left (fun s p => BSet.insert p s) blocks [];
          num_free_pages := pages;
          num_available_pages_for_new_writes := pages;
          gc_candidates :=
            replicate (Z.to_nat (SSD_SIZE cfg))
              (replicate (Z.to_nat (PACKAGE_SIZE cfg))
                 (replicate (Z.to_nat num_age_classes) []));
          scheduled := [] |}.

End bm.
End BM.

(** * The configuration of the end-to-end scenarios

    [BLOCK_SIZE = 4], [PAGE_MAX_LOG = 2], one package, one die, one plane,
    eight blocks, [BLOCK_ERASES = 1000]. *)

Module Scenario.

Definition cfg : Config :=
  {| SSD_SIZE := 1; PACKAGE_SIZE := 1; DIE_SIZE := 1; PLANE_SIZE := 8;
     BLOCK_SIZE := 4; PAGE_SIZE := 4096; BLOCK_ERASES := 1000;
     PAGE_MAX_LOG := 2 |}.

Definition is_allocation (c : Fast.call) : bool :=
  match c with Fast.GetFreeBlock _ => true | _ => false end.

(** Collaborators of the FTL: the manager hands out blocks 1, 2, 3, ... in
    turn; the first two pages of every block are valid; the controller
    accepts every event and answers page 0 for a block. *)
Definition env : Fast.Env :=
  {| Fast.env_get_free_block := fun h _ =>
       Address.of_linear cfg
         (4 * (1 + Z.of_nat (length (filter is_allocation h)))) PAGE;
     Fast.env_get_state := fun _ a =>
       if Address.page a <? 2 then VALID else EMPTY;
     Fast.env_get_block_state := fun _ _ => FREE;
     Fast.env_get_free_page := fun _ a => Address.set_page 0 a;
     Fast.env_issue := fun _ _ => SUCCESS;
     Fast.env_consolidate_metaevent := fun _ e => e |}.

(** The write of logical address [la], from state [st]. *)
Definition write (la : Z) (st : Fast.State) : result Fast.State :=
  '(_, _, st) ← Fast.write cfg env st (new_event WRITE la); Ok st.

(** The sequential log block of logical block 0 at physical address 4,
    the first block the manager handed out, two pages appended. *)
Definition filling_state : Fast.State :=
  Fast.set_sequential (Address.of_linear cfg 4 PAGE) 0 2
    (Fast.log_call (Fast.GetFreeBlock DATA) (Fast.init cfg (-1))).

(** The log block and the state of the divergence of [random_merge]: in the
    scenario configuration, logical block 0 has its data block at physical
    address 16 and a log block at physical address 8 that holds page 0 only,
    in its slot 0. *)
Definition log_block_with_page_0 : LogPageBlock.t :=
  LogPageBlock.make [0; -1; -1; -1] (Address.of_linear cfg 8 PAGE).

Definition state_with_log_block : Fast.State :=
  Fast.set_log_map [(0, log_block_with_page_0)]
    (Fast.set_data_list [16; -1; -1; -1; -1; -1; -1; -1]
       (Fast.init cfg (-1))).

End Scenario.

(** ** The device and the block manager of the scenarios

    Eight blocks of four pages, two age classes. Block 0 has two valid and
    two invalid pages; block 1 is full of valid pages and is the one
    candidate for garbage collection; block 2, erased once, is the append
    frontier of the die; every page of block 3 is invalid; blocks 4 to 7
    are free. *)

Module ScenarioBM.

Definition cfg : Config := Scenario.cfg.

Definition free_block (physical erases : Z) : BM.Block :=
  {| BM.physical_address := physical; BM.pages_valid := 0;
     BM.pages_invalid := 0; BM.state := FREE;
     BM.erases_remaining := erases;
     BM.page_states := [EMPTY; EMPTY; EMPTY; EMPTY] |}.

Definition ssd : list BM.Block :=
  [ {| BM.physical_address := 0; BM.pages_valid := 2; BM.pages_invalid := 2;
       BM.state := ACTIVE; BM.erases_remaining := 1000;
       BM.page_states := [VALID; INVALID; VALID; INVALID] |};
    {| BM.physical_address := 4; BM.pages_valid := 4; BM.pages_invalid := 0;
       BM.state := ACTIVE; BM.erases_remaining := 1000;
       BM.page_states := [VALID; VALID; VALID; VALID] |};
    free_block 8 999;
    {| BM.physical_address := 12; BM.pages_valid := 0; BM.pages_invalid := 4;
       BM.state := ACTIVE; BM.erases_remaining := 1000;
       BM.page_states := [INVALID; INVALID; INVALID; INVALID] |};
    free_block 16 1000; free_block 20 1000; free_block 24 1000;
    free_block 28 1000 ].

(** The FTL's reverse map: here the identity on the pages of the device. *)
Definition get_logical_address (a : Address.t) : Z :=
  Address.real_address a - Address.real_address a mod 4 + Address.page a.

Definition st : BM.State :=
  {| BM.free_block_pointers := [[Address.of_linear cfg 8 PAGE]];
     BM.free_blocks :=
       [[[ map (fun x => Address.of_linear cfg x PAGE) [16; 20; 24; 28];
           [] ]]];
     BM.all_blocks := [0; 1; 2; 3; 4; 5; 6; 7];
     BM.greedy_gc := true;
     BM.max_age := 1;
     BM.min_age := 0;
     BM.num_age_classes := 2;
     BM.blocks_with_min_age := [0; 1; 3; 4; 5; 6; 7];
     BM.num_free_pages := 20;
     BM.num_available_pages_for_new_writes := 20;
     BM.gc_candidates := [[[ [1]; [] ]]];
     BM.scheduled := [] |}.

(** The completion of a write that replaces page 1 of block 0. *)
Definition overwrite_of_page_1 : Event :=
  {| ev_type := WRITE; logical_address := 1;
     address := Address.of_linear cfg 8 PAGE;
     replace_address := Address.of_linear cfg 1 PAGE;
     garbage_collection_op := false; chain := [] |}.

(** The device when the erase of block 3 completes, with [erases] erases
    left to the block. *)
Definition ssd_after_erase (erases : Z) : list BM.Block :=
  <[3%nat := free_block 12 erases]> ssd.

Definition erase_of_block_3 : Event :=
  BM.gc_event ERASE 0 (Address.of_linear cfg 12 BLOCK) Address.default.

(** The completion of a write that replaces page 0 of block 3. *)
Definition overwrite_in_block_3 : Event :=
  {| ev_type := WRITE; logical_address := 12;
     address := Address.of_linear cfg 9 PAGE;
     replace_address := Address.of_linear cfg 12 PAGE;
     garbage_collection_op := false; chain := [] |}.

(** A manager for which every block so far has the same age 1. *)
Definition st_one_age : BM.State :=
  {| BM.free_block_pointers := BM.free_block_pointers st;
     BM.free_blocks := BM.free_blocks st;
     BM.all_blocks := BM.all_blocks st;
     BM.greedy_gc := true;
     BM.max_age := 1;
     BM.min_age := 1;
     BM.num_age_classes := 2;
     BM.blocks_with_min_age := BM.blocks_with_min_age st;
     BM.num_free_pages := 20;
     BM.num_available_pages_for_new_writes := 20;
     BM.gc_candidates := BM.gc_candidates st;
     BM.scheduled := [] |}.


End ScenarioBM.

(** * Vocabulary of the statements *)

(** The events of one slot, given where the slot is read from. *)
Definition slot_events (cfg : Config) (newDataBlock : Address.t) (la : Z)
    (src : option Address.t) (i : Z) : list EventNode :=
  match src with
  | Some readAddress =>
      [ Fast.read_node la readAddress;
        Fast.write_node la
          (Address.of_linear cfg (Address.get_linear_address newDataBlock + i) PAGE)
          (Address.get_linear_address readAddress * PAGE_SIZE cfg) ]
  | None => []
  end.

(** The events [nodes] copy one page: a READ at the address [from]
    followed by a WRITE at the address [into] with the payload of the page
    read, both with the logical address [la]. *)
Definition copies_page (cfg : Config) (la : Z) (from into : Address.t)
    (nodes : list EventNode) : Prop :=
  exists r w,
    nodes = [r; w]
    /\ node_type r = READ
    /\ node_logical_address r = la
    /\ node_address r = from
    /\ node_type w = WRITE
    /\ node_logical_address w = la
    /\ node_address w = into
    /\ node_payload w = Some (Address.get_linear_address from * PAGE_SIZE cfg).

(** ** Runs of the FTL

    A run is a sequence of calls of the public operations and of
    [write_to_log_block]. Beside the state, a run keeps the list [placed]
    of the writes that [write_to_log_block] has directed to the current
    sequential log block ([event.set_address(seq)]) since the block was
    taken from the manager, oldest first, each as the pair of its logical
    block and page offset. *)

Inductive operation :=
  | OpRead (event : Event)
  | OpWrite (event : Event)
  | OpWriteToLogBlock (event : Event) (logicalBlockAddress : Z).

Definition placed_after (cfg : Config) (st : Fast.State) (event : Event)
    (L : Z) (placed : list (Z * Z)) : list (Z * Z) :=
  let lbnOffset := u32 (logical_address event mod BLOCK_SIZE cfg) in
  if lbnOffset =? 0 then [(L, 0)]
  else if Fast.sequential_logical_address st =? L then
    if lbnOffset =? Fast.sequential_offset st then placed ++ [(L, lbnOffset)]
    else []
  else placed.

Definition step (cfg : Config) (env : Fast.Env) (op : operation)
    (sp : Fast.State * list (Z * Z)) : result (Fast.State * list (Z * Z)) :=
  let '(st, placed) := sp in
  match op with
  | OpRead event =>
      '(_, _, st') ← Fast.read cfg env st event; Ok (st', placed)
  | OpWrite event =>
      '(_, _, st') ← Fast.write cfg env st event; Ok (st', placed)
  | OpWriteToLogBlock event L =>
      '(_, _, st') ← Fast.write_to_log_block cfg env event L st;
      Ok (st', placed_after cfg st event L placed)
  end.

Fixpoint run (cfg : Config) (env : Fast.Env) (ops : list operation)
    (sp : Fast.State * list (Z * Z)) : result (Fast.State * list (Z * Z)) :=
  match ops with
  | [] => Ok sp
  | op :: ops' => sp' ← step cfg env op sp; run cfg env ops' sp'
  end.

(** The owner of the sequential log block was contiguous, as the
    specification has it: the pages [0, sequential_offset) of the block
    hold the pages of the owner, written in strict ascending page-offset
    order. In the terms of a run: the writes placed in the block are those
    of the page offsets 0, 1, ..., [sequential_offset - 1] of the owner's
    logical block, in this order. *)
Definition owner_contiguous (st : Fast.State) (placed : list (Z * Z)) : Prop :=
  placed =
    map (fun i => (Fast.sequential_logical_address st, i))
      (seqZ 0 (Fast.sequential_offset st)).

(** ** Vocabulary of the block manager *)

(** The four overloads of [perform_gc]. *)
Inductive gc_scope :=
  | WholeDevice
  | OneDie (package_id die_id : Z)
  | OneClass (klass : Z)
  | OneDieClass (package_id die_id klass : Z).

Definition perform_gc_in (cfg : Config) (ssd : list BM.Block)
    (get_logical_address : Address.t -> Z) (scope : gc_scope) (st : BM.State)
    : result BM.State :=
  match scope with
  | WholeDevice => BM.perform_gc cfg ssd get_logical_address st
  | OneDie p d => BM.perform_gc_die cfg ssd get_logical_address p d st
  | OneClass k => BM.perform_gc_class cfg ssd get_logical_address k st
  | OneDieClass p d k =>
      BM.perform_gc_die_class cfg ssd get_logical_address p d k st
  end.





(** The pairs of events that migrate the valid pages of a block, by
    ascending page. *)
Definition migration_of (cfg : Config) (get_logical_address : Address.t -> Z)
    (block : BM.Block) (slots : list Z) : list (list Event) :=
  map (fun i =>
         let addr :=
           Address.set_page i
             (Address.of_linear cfg (BM.physical_address block) PAGE) in
         [ BM.gc_event READ (get_logical_address addr) addr Address.default;
           BM.gc_event WRITE (get_logical_address addr) Address.default addr ])
    (filter (fun i => BM.page_states block !! Z.to_nat i = Some VALID) slots).

(** The age class as the specification writes it, with real division:
    the floor of [(age - min_age) / (max_age - min_age) * num_age_classes
    * 0.99999]. *)
Definition age_class_of_spec (age min_age max_age num_age_classes : Z) : Z :=
  ((age - min_age) * num_age_classes * 99999)
  / ((max_age - min_age) * 100000).

(** ** Runs of the block manager

    The callbacks and the requests that the scheduler and the FTL send to
    the block manager, and a run of them; the device may change between
    two calls. *)

Inductive bm_operation :=
  | BmWriteOutcome (event : Event) (s : status)
  | BmEraseOutcome (event : Event) (s : status)
  | BmReadOutcome (event : Event) (s : status)
  | BmWearLevel (event : Event)
  | BmGc (scope : gc_scope)
  | BmCheckGc
  | BmFind
  | BmFindPackage (package_id : Z)
  | BmFindDie (package_id die_id : Z)
  | BmFindDieClass (package_id die_id klass : Z)
  | BmFindWithClass (klass : Z).

Definition bm_step (cfg : Config) (ssd : list BM.Block)
    (get_logical_address : Address.t -> Z) (op : bm_operation) (st : BM.State)
    : result BM.State :=
  match op with
  | BmWriteOutcome event s =>
      BM.register_write_outcome cfg ssd get_logical_address event s st
  | BmEraseOutcome event s => BM.register_erase_outcome cfg ssd event s st
  | BmReadOutcome event s => BM.register_read_outcome event s st
  | BmWearLevel event => BM.Wear_Level cfg ssd get_logical_address event st
  | BmGc scope => perform_gc_in cfg ssd get_logical_address scope st
  | BmCheckGc =>
      BM.check_if_should_trigger_more_GC cfg ssd get_logical_address st
  | BmFind =>
      r ← BM.find_free_unused_block cfg ssd get_logical_address st;
      Ok (snd r)
  | BmFindPackage p =>
      r ← BM.find_free_unused_block_package cfg ssd get_logical_address p st;
      Ok (snd r)
  | BmFindDie p d =>
      r ← BM.find_free_unused_block_die cfg ssd get_logical_address p d st;
      Ok (snd r)
  | BmFindDieClass p d k =>
      r ← BM.find_free_unused_block_die_class cfg ssd get_logical_address
                p d k st;
      Ok (snd r)
  | BmFindWithClass k =>
      r ← BM.find_free_unused_block_with_class cfg ssd get_logical_address
                k st;
      Ok (snd r)
  end.

(** A call of the block manager: the operation, with the device and the
    FTL's reverse map as they are when the call is made. *)
Record bm_call := BmCall {
  call_device : list BM.Block;
  call_get_logical_address : Address.t -> Z;
  call_operation : bm_operation
}.

Fixpoint bm_run (cfg : Config) (calls : list bm_call) (st : BM.State)
    : result BM.State :=
  match calls with
  | [] => Ok st
  | c :: calls' =>
      st' ← bm_step cfg (call_device c) (call_get_logical_address c)
              (call_operation c) st;
      bm_run cfg calls' st'
  end.

(** The calls of a run whose operation satisfies [p], counted. *)
Definition is_write_outcome (op : bm_operation) : bool :=
  match op with BmWriteOutcome _ _ => true | _ => false end.

Definition is_erase_outcome (op : bm_operation) : bool :=
  match op with BmEraseOutcome _ _ => true | _ => false end.

Definition count_calls (p : bm_operation -> bool) (calls : list bm_call) : Z :=
  Z.of_nat (length (List.filter (fun c => p (call_operation c)) calls)).

(** What an operation adds to [num_free_pages]. *)
Definition free_pages_delta (cfg : Config) (op : bm_operation) : Z :=
  match op with
  | BmWriteOutcome _ _ => -1
  | BmEraseOutcome _ _ => BLOCK_SIZE cfg
  | _ => 0
  end.

(** Two vectors indexed by package, die and age class have the same
    shape. *)
Definition same_shape3 {A} (v v' : list (list (list A))) : Prop :=
  Forall2 (Forall2 (fun x y => length x = length y)) v v'.

(** A vector indexed by package, die and age class has the dimensions of
    the device and [n] age classes. *)
Definition has_shape3 {A} (cfg : Config) (n : Z) (v : list (list (list A)))
    : Prop :=
  length v = Z.to_nat (SSD_SIZE cfg)
  /\ Forall (fun x =>
               length x = Z.to_nat (PACKAGE_SIZE cfg)
               /\ Forall (fun y => length y = Z.to_nat n) x) v.

(** What no operation of the block manager changes: the ages' lower end,
    the number of age classes, the list of all blocks, the append pointers
    of the dies, the greedy mode and the shapes of the two vectors; and
    [max_age] only grows, to the age of a block, a [uint]. *)
Definition frame (st st' : BM.State) : Prop :=
  BM.max_age st <= BM.max_age st'
  /\ (BM.max_age st' = BM.max_age st \/ 0 <= BM.max_age st' < 2 ^ 32)
  /\ BM.min_age st' = BM.min_age st
  /\ BM.num_age_classes st' = BM.num_age_classes st
  /\ BM.all_blocks st' = BM.all_blocks st
  /\ BM.greedy_gc st' = BM.greedy_gc st
  /\ BM.free_block_pointers st' = BM.free_block_pointers st
  /\ same_shape3 (BM.gc_candidates st) (BM.gc_candidates st')
  /\ same_shape3 (BM.free_blocks st) (BM.free_blocks st').

(** An operation keeps the frame and adds [d] to [num_free_pages]. *)
Definition effect (d : Z) (st st' : BM.State) : Prop :=
  frame st st' /\ BM.num_free_pages st' = BM.num_free_pages st + d.

(** The scenario after the writes of logical pages 0, 1 and 2 through
    [write_to_log_block]: the state and the writes placed in the
    sequential log block. *)
Definition three_appends : list operation :=
  [OpWriteToLogBlock (new_event WRITE 0) 0;
   OpWriteToLogBlock (new_event WRITE 1) 0;
   OpWriteToLogBlock (new_event WRITE 2) 0].

Definition after_three_appends : Fast.State * list (Z * Z) :=
  Eval vm_compute in
    match run Scenario.cfg Scenario.env three_appends
            (Fast.init Scenario.cfg (-1), []) with
    | Ok sp => sp
    | _ => (Fast.init Scenario.cfg (-1), [])
    end.

(** The writes of logical pages 0, 2, 1 and 2 (all of logical block 0)
    through [write_to_log_block]. *)
Definition out_of_order_appends : list operation :=
  [OpWriteToLogBlock (new_event WRITE 0) 0;
   OpWriteToLogBlock (new_event WRITE 2) 0;
   OpWriteToLogBlock (new_event WRITE 1) 0;
   OpWriteToLogBlock (new_event WRITE 2) 0].

(** ** Further scenarios *)

Module ScenarioMore.

(** The collaborators of [Scenario.env], with a controller that reports
    every block INACTIVE. *)
Definition env_inactive : Fast.Env :=
  {| Fast.env_get_free_block := Fast.env_get_free_block Scenario.env;
     Fast.env_get_state := Fast.env_get_state Scenario.env;
     Fast.env_get_block_state := fun _ _ => INACTIVE;
     Fast.env_get_free_page := Fast.env_get_free_page Scenario.env;
     Fast.env_issue := Fast.env_issue Scenario.env;
     Fast.env_consolidate_metaevent :=
       Fast.env_consolidate_metaevent Scenario.env |}.

(** Logical block 0 has its data block at physical address 16; there is no
    log block. *)
Definition state_with_data_block : Fast.State :=
  Fast.set_data_list [16; -1; -1; -1; -1; -1; -1; -1]
    (Fast.init Scenario.cfg (-1)).

(** The sequential log block of logical block 0, three pages appended. *)
Definition last_page_pending : Fast.State :=
  Fast.set_sequential (Address.of_linear Scenario.cfg 4 PAGE) 0 3
    (Fast.log_call (Fast.GetFreeBlock DATA) (Fast.init Scenario.cfg (-1))).

(** A run of the block manager: a write completes, the erase of block 3
    completes, and the block is asked for again. *)
Definition three_calls : list bm_call :=
  [ BmCall ScenarioBM.ssd ScenarioBM.get_logical_address
      (BmWriteOutcome ScenarioBM.overwrite_of_page_1 SUCCESS);
    BmCall (ScenarioBM.ssd_after_erase 999) ScenarioBM.get_logical_address
      (BmEraseOutcome ScenarioBM.erase_of_block_3 SUCCESS);
    BmCall (ScenarioBM.ssd_after_erase 999) ScenarioBM.get_logical_address
      (BmFindDieClass 0 0 1) ].

(** A manager with no page available for new writes, and one with
    three. *)
Definition st_no_page_available : BM.State :=
  BM.set_num_available 0 ScenarioBM.st.

Definition st_three_pages_available : BM.State :=
  BM.set_num_available 3 ScenarioBM.st.

(** A manager whose only free block, block 3, is in age class 1. *)
Definition st_free_in_class_1 : BM.State :=
  BM.set_free_blocks [[[ []; [Address.of_linear ScenarioBM.cfg 12 PAGE] ]]]
    ScenarioBM.st.

(** A manager for which block 2 is the only block of minimal age, and the
    event of an erase of that block. *)
Definition st_block_2_youngest : BM.State :=
  BM.set_blocks_with_min_age [2] ScenarioBM.st.

Definition erase_of_block_2 : Event :=
  BM.gc_event ERASE 0 (Address.of_linear ScenarioBM.cfg 8 BLOCK)
    Address.default.

End ScenarioMore.

(** * Properties *)

(** ** Arrays and maps *)

Lemma at_index_Ok {A} (l : list A) i x :
  at_index l i = Ok x <-> 0 <= i /\ l !! Z.to_nat i = Some x.
Proof.
  unfold at_index. destruct (decide (0 <= i)) as [Hi|Hi].
  - destruct (l !! Z.to_nat i) eqn:E; split.
    + intros [= ->]. auto.
    + intros [_ [= ->]]. reflexivity.
    + discriminate.
    + intros [_ [=]].
  - split; [discriminate | intros [? _]; lia].
Qed.

Lemma at_index_lt {A} (l : list A) i x :
  at_index l i = Ok x -> (Z.to_nat i < length l)%nat.
Proof.
  intros H. apply at_index_Ok in H as [_ H]. by eapply lookup_lt_Some.
Qed.

Lemma store_index_Ok {A} (l : list A) i x :
  0 <= i -> (Z.to_nat i < length l)%nat ->
  store_index l i x = Ok (<[Z.to_nat i := x]> l).
Proof. intros. unfold store_index. by repeat case_decide. Qed.

Lemma store_index_inv {A} (l : list A) i x l' :
  store_index l i x = Ok l' ->
  0 <= i /\ (Z.to_nat i < length l)%nat /\ l' = <[Z.to_nat i := x]> l.
Proof.
  unfold store_index. repeat case_decide; intros [=]; subst; auto.
Qed.

Lemma store_index_at {A} (l : list A) i x l' :
  store_index l i x = Ok l' -> at_index l' i = Ok x.
Proof.
  intros H. apply store_index_inv in H as (Hi & Hlt & ->).
  apply at_index_Ok. split; [done|]. by apply list_lookup_insert_eq.
Qed.

Lemma omap_find_insert_eq {V} k (v : V) m :
  OMap.find k (OMap.insert k v m) = Some v.
Proof.
  induction m as [|[k' v'] m IH]; simpl.
  - by rewrite Z.eqb_refl.
  - destruct (k <? k') eqn:E1; simpl.
    + by rewrite Z.eqb_refl.
    + destruct (k =? k') eqn:E2; simpl.
      * by rewrite Z.eqb_refl.
      * rewrite Z.eqb_sym, E2. exact IH.
Qed.

Lemma omap_size_insert_fresh {V} k (v : V) m :
  OMap.find k m = None -> OMap.size (OMap.insert k v m) = OMap.size m + 1.
Proof.
  unfold OMap.size. induction m as [|[k' v'] m IH]; simpl; intros H.
  - reflexivity.
  - destruct (k' =? k) eqn:E; [discriminate|].
    destruct (k <? k'); simpl; [lia|].
    rewrite Z.eqb_sym, E. simpl. specialize (IH H). lia.
Qed.

(** ** The FAST FTL *)

Section fast_facts.
Context (cfg : Config) (env : Fast.Env).
Import Fast.

(** A read of a logical block that has no log block goes to the data
    block address, whatever [data_list] holds for it, the unmapped mark
    [-1] included: the test that answers FAILURE needs a log block. *)
Lemma read_without_log_block st event d :
  let la := logical_address event in
  let L := Z.shiftr la (addressShift st) in
  OMap.find L (log_map st) = None ->
  at_index (data_list st) L = Ok d ->
  let event' :=
    set_address (Address.of_linear cfg (d + la mod BLOCK_SIZE cfg) PAGE) event in
  read cfg env st event =
    Ok (env_issue env (calls st ++ [SimulateMapRead event']) event', event',
        log_call (Issue event') (log_call (SimulateMapRead event') st)).
Proof.
  intros la L Hfind Hd event'. unfold read. fold la. fold L.
  rewrite Hd, Hfind. simpl. rewrite andb_false_r. reflexivity.
Qed.

(** The log copy wins: when the log block of the logical block holds the
    page, the read goes to the slot of the log block, whatever the data
    block. *)
Lemma read_log_copy_wins st event d lb p :
  let la := logical_address event in
  let L := Z.shiftr la (addressShift st) in
  OMap.find L (log_map st) = Some lb ->
  at_index (data_list st) L = Ok d ->
  at_index (LogPageBlock.pages lb) (la mod BLOCK_SIZE cfg) = Ok p ->
  p <> -1 ->
  let event' :=
    set_address
      (Address.of_linear cfg
         (Address.get_linear_address (LogPageBlock.address lb) + p) PAGE)
      event in
  read cfg env st event =
    Ok (env_issue env (calls st ++ [SimulateMapRead event']) event', event',
        log_call (Issue event') (log_call (SimulateMapRead event') st)).
Proof.
  intros la L Hfind Hd Hp Hne event'. unfold read. fold la. fold L.
  rewrite Hd, Hfind. simpl. rewrite Hp. simpl.
  assert ((p =? -1) = false) as -> by lia.
  rewrite andb_false_r. reflexivity.
Qed.

(** With a log block that does not hold the page, the read goes to the
    data block when there is one and fails when there is none. *)
Lemma read_log_block_without_page st event d lb :
  let la := logical_address event in
  let L := Z.shiftr la (addressShift st) in
  OMap.find L (log_map st) = Some lb ->
  at_index (data_list st) L = Ok d ->
  at_index (LogPageBlock.pages lb) (la mod BLOCK_SIZE cfg) = Ok (-1) ->
  read cfg env st event =
    if d =? -1 then
      Ok (FAILURE, set_address (Address.of_linear cfg 0 PAGE) event,
          print (PageReadNotWritten la) st)
    else
      let event' :=
        set_address (Address.of_linear cfg (d + la mod BLOCK_SIZE cfg) PAGE)
          event in
      Ok (env_issue env (calls st ++ [SimulateMapRead event']) event', event',
          log_call (Issue event') (log_call (SimulateMapRead event') st)).
Proof.
  intros la L Hfind Hd Hp. unfold read. fold la. fold L.
  rewrite Hd, Hfind. simpl. rewrite Hp. simpl.
  destruct (d =? -1); reflexivity.
Qed.

End fast_facts.

(** C1. A read of a page that was never written has to answer FAILURE.
    Right after construction nothing has been written; the read of logical
    page 1 is nevertheless handed to the controller, against physical page
    0 (the unmapped mark [-1] plus the page offset 1), and answers what the
    controller answers: SUCCESS when the controller accepts the event. *)
Theorem read_of_never_written_page_is_issued (env : Fast.Env) (s0 : Z) :
  let st := Fast.init Scenario.cfg s0 in
  let event := new_event READ 1 in
  let event' := set_address (Address.of_linear Scenario.cfg 0 PAGE) event in
  Fast.read Scenario.cfg env st event =
    Ok (Fast.env_issue env [Fast.SimulateMapRead event'] event', event',
        Fast.log_call (Fast.Issue event')
          (Fast.log_call (Fast.SimulateMapRead event') st))
  /\ Fast.read Scenario.cfg Scenario.env st event
     = Ok (SUCCESS, event',
           Fast.log_call (Fast.Issue event')
             (Fast.log_call (Fast.SimulateMapRead event') st)).
Proof. split; reflexivity. Qed.

Section log_map_facts.
Context (cfg : Config) (env : Fast.Env).
Import Fast.

(** [allocate_new_logblock] removes nothing from [log_map]: for a logical
    block that has no entry, the map grows by one, full or not. *)
Lemma allocate_new_logblock_grows L event st st' :
  OMap.find L (log_map st) = None ->
  allocate_new_logblock cfg env L event st = Ok st' ->
  OMap.size (log_map st') = OMap.size (log_map st) + 1.
Proof.
  intros Hfind. unfold allocate_new_logblock.
  destruct (OMap.size (log_map st) >=? PAGE_MAX_LOG cfg).
  - destruct (OMap.begin (log_map st)) as [[ex exb]|]; simpl; [|discriminate].
    intros [= <-]. simpl. by apply omap_size_insert_fresh.
  - simpl. intros [= <-]. simpl. by apply omap_size_insert_fresh.
Qed.

(** A write to a logical block without a log block gives it one, and
    leaves every other log block in place. *)
Lemma write_grows_log_map st event s event' st' :
  let L := Z.shiftr (logical_address event) (addressShift st) in
  OMap.find L (log_map st) = None ->
  write cfg env st event = Ok (s, event', st') ->
  OMap.size (log_map st') = OMap.size (log_map st) + 1.
Proof.
  intros L Hfind. unfold write. fold L. rewrite Hfind.
  destruct (allocate_new_logblock cfg env L event st) as [st1| |] eqn:Halloc;
    simpl; try discriminate.
  apply allocate_new_logblock_grows in Halloc; [|done].
  destruct (OMap.find L (log_map st1)); simpl; [|discriminate].
  destruct (assert _); simpl; try discriminate.
  case_decide; intros [= <- <- <-]; simpl; exact Halloc.
Qed.

End log_map_facts.

(** C2. [log_map] has to stay within [PAGE_MAX_LOG] entries. With
    [PAGE_MAX_LOG = 2], the writes of logical addresses 0, 4 and 8 (logical
    blocks 0, 1 and 2) succeed and leave three log blocks: at the third
    write the FTL announces that it kills the log block of logical block 0
    (at physical address 4) and keeps it. *)
Theorem log_map_grows_past_PAGE_MAX_LOG :
  exists st,
    (st ← Scenario.write 0 (Fast.init Scenario.cfg (-1));
     st ← Scenario.write 4 st;
     Scenario.write 8 st) = Ok st
    /\ map fst (Fast.log_map st) = [0; 1; 2]
    /\ OMap.size (Fast.log_map st) = 3
    /\ PAGE_MAX_LOG Scenario.cfg = 2
    /\ Fast.output st =
         [Fast.UsingNewLogBlock 4 1 0; Fast.UsingNewLogBlock 8 2 1;
          Fast.Killing 0 4; Fast.UsingNewLogBlock 12 3 2].
Proof. eexists. split; [vm_compute; reflexivity|]. repeat split. Qed.

(** C5. Each slot of [random_merge] has to follow its own page offset. For
    the log block that holds page 0 only, and a triggering write of page 0,
    the reads of slots 1, 2 and 3 have to come from the data block
    (addresses 17, 18, 19); the code tests page 0, the page of the event,
    for every slot, and reads the three slots from the log block at the
    unset index [-1]: address 7. *)
Theorem random_merge_tests_the_page_of_the_event :
  exists event' st',
    Fast.random_merge Scenario.cfg Scenario.env
      Scenario.log_block_with_page_0 0 (new_event WRITE 0)
      Scenario.state_with_log_block = Ok (true, event', st')
    /\ map (fun n => Address.real_address (node_address n))
         (filter (fun n => bool_decide (node_type n = READ)) (chain event'))
       = [8; 7; 7; 7]
    /\ map (fun n => Address.real_address (node_address n))
         (filter (fun n => bool_decide (node_type n = WRITE)) (chain event'))
       = [4; 5; 6; 7]
    /\ at_index (Fast.data_list st') 0 = Ok 4
    /\ Fast.log_map st' = [].
Proof. do 2 eexists. split; [vm_compute; reflexivity|]. repeat split. Qed.

Section merge_facts.
Context (cfg : Config) (env : Fast.Env).
Import Fast.

Lemma append_chain_nil e : append_chain [] e = e.
Proof. destruct e. unfold append_chain. simpl. by rewrite app_nil_r. Qed.

Lemma append_chain_app ns ms e :
  append_chain ms (append_chain ns e) = append_chain (ns ++ ms) e.
Proof. unfold append_chain. simpl. by rewrite app_assoc. Qed.

Lemma add_output_nil st : add_output [] st = st.
Proof. destruct st. unfold add_output. simpl. by rewrite app_nil_r. Qed.

Lemma add_output_app ns ms st :
  add_output ms (add_output ns st) = add_output (ns ++ ms) st.
Proof. unfold add_output. simpl. by rewrite app_assoc. Qed.

(** The loop of a merge whose sources are all defined: the chain of the
    event grows by the events of the slots, in the order of the slots, and
    the state changes by its output only. *)
Lemma merge_loop_chain (source : Z -> result (option Address.t))
    (f : Z -> option Address.t) newDataBlock slots :
  Forall (fun i => source i = Ok (f i)) slots ->
  forall event st,
  exists ms,
    merge_loop cfg source newDataBlock event slots st =
      Ok (append_chain
            (concat (map (fun i => slot_events cfg newDataBlock
                                     (logical_address event) (f i) i) slots))
            event,
          add_output ms st)
    /\ Forall (fun m => m = EmptyPage) ms.
Proof.
  induction 1 as [|i slots Hi _ IH]; intros event st.
  - exists []. simpl. by rewrite append_chain_nil, add_output_nil.
  - simpl. rewrite Hi. simpl. destruct (f i) as [r|] eqn:Ef.
    + destruct (IH (append_chain (merge_pair cfg newDataBlock event r i) event) st)
        as (ms & -> & Hms).
      exists ms. split; [|done].
      rewrite append_chain_app. reflexivity.
    + destruct (IH event (print EmptyPage st)) as (ms & -> & Hms).
      exists (EmptyPage :: ms). split; [|by constructor].
      unfold print. rewrite add_output_app. reflexivity.
Qed.

(** [merge_sequential(L)] with the sentinel or without it. With
    [sequential_logical_address = -1] nothing changes. Otherwise a fresh
    data block D' is taken from the manager and, for every page offset [i]
    of the block in ascending order: when page [i] of the sequential block
    is VALID the READ comes from it; otherwise, when [data_list[L]] is
    mapped, from [data_list[L] + i]; otherwise the slot is skipped. Each
    READ is followed in the chain of the triggering event by the WRITE into
    slot [i] of D'. Then the sequential block and, if mapped, the old data
    block are invalidated, and [data_list[L]] becomes D'. *)
Theorem merge_sequential_copies_each_slot L event st d :
  at_index (data_list st) L = Ok d ->
  (sequential_logical_address st = -1 ->
     merge_sequential cfg env L event st = Ok (event, st))
  /\ (sequential_logical_address st <> -1 ->
      let D' := env_get_free_block env (calls st) DATA in
      let h := calls st ++ [GetFreeBlock DATA] in
      let la := logical_address event in
      let seq i :=
        Address.of_linear cfg
          (Address.get_linear_address (sequential_address st) + i) PAGE in
      let into i :=
        Address.of_linear cfg (Address.get_linear_address D' + i) PAGE in
      exists event' st' (slot : Z -> list EventNode),
        merge_sequential cfg env L event st = Ok (event', st')
        /\ chain event' =
             chain event ++ concat (map slot (seqZ 0 (BLOCK_SIZE cfg)))
        /\ (forall i, 0 <= i < BLOCK_SIZE cfg ->
             (env_get_state env h (seq i) = VALID ->
                copies_page cfg la (seq i) (into i) (slot i)
                /\ Address.real_address (seq i)
                   = Address.get_linear_address (sequential_address st) + i)
             /\ (env_get_state env h (seq i) <> VALID -> d <> -1 ->
                  copies_page cfg la (Address.of_linear cfg (d + i) PAGE)
                    (into i) (slot i)
                  /\ Address.real_address (Address.of_linear cfg (d + i) PAGE)
                     = d + i)
             /\ (env_get_state env h (seq i) <> VALID -> d = -1 ->
                  slot i = [])
             /\ Address.real_address (into i)
                = Address.get_linear_address D' + i
             /\ Address.valid (into i) = PAGE)
        /\ calls st' =
             h ++ [Invalidate (sequential_address st) LOG]
               ++ (if decide (d = -1) then []
                   else [Invalidate (Address.of_linear cfg d BLOCK) DATA])
               ++ [InsertEvents event'; SimulateMapWrite event']
        /\ data_list st' =
             <[Z.to_nat L := Address.get_linear_address D']> (data_list st)
        /\ at_index (data_list st') L = Ok (Address.get_linear_address D')
        /\ log_map st' = log_map st
        /\ sequential_address st' = sequential_address st
        /\ sequential_logical_address st' = sequential_logical_address st
        /\ sequential_offset st' = sequential_offset st).
Proof.
  intros Hd. split; intros HS.
  - unfold merge_sequential. by rewrite HS.
  - intros D' h la seq into.
    unfold merge_sequential.
    destruct (sequential_logical_address st =? -1) eqn:E; [lia|clear E].
    cbn [get_free_block]. fold D'.
    set (st1 := print _ (log_call _ st)).
    assert (data_list st1 = data_list st) as Hdl by reflexivity.
    rewrite Hdl, Hd. cbn [mbind result_bind].
    destruct (merge_loop_chain (fun i => Ok (merge_sequential_source cfg env st1 d i))
                (merge_sequential_source cfg env st1 d) D'
                (seqZ 0 (BLOCK_SIZE cfg))
                ltac:(by apply Forall_forall) event st1) as (ms & -> & _).
    cbn [mbind result_bind].
    pose proof (at_index_lt _ _ _ Hd) as Hlt.
    apply at_index_Ok in Hd as Hd'. destruct Hd' as [HL _].
    assert (forall x st0, data_list st0 = data_list st ->
              store_index (data_list st0) L x = Ok (<[Z.to_nat L := x]> (data_list st)))
      as Hstore.
    { intros x st0 ->. by apply store_index_Ok. }
    exists
      (append_chain
         (concat (map (fun i => slot_events cfg D' la
                                  (merge_sequential_source cfg env st1 d i) i)
                    (seqZ 0 (BLOCK_SIZE cfg)))) event).
    unfold merge_finish.
    destruct (d =? -1) eqn:E; cbn [negb];
      (rewrite Hstore by reflexivity); cbn [mbind result_bind];
      eexists _, (fun i => slot_events cfg D' la (merge_sequential_source cfg env st1 d i) i);
      (split; [reflexivity|]); (split; [reflexivity|]);
      (split; [|split; [|split; [|split; [|repeat split]]]]).
    all: try (intros i Hi; unfold merge_sequential_source;
              change (calls st1) with h;
              change (sequential_address st1) with (sequential_address st);
              fold (seq i); rewrite E; cbn [negb];
              (split; [|split; [|split; [|split; reflexivity]]]);
              [ intros ->; rewrite decide_True by done;
                split; [|reflexivity]; eexists _, _; by repeat split
              | intros Hne Hd1; rewrite decide_False by done; try lia;
                try (split; [|reflexivity]; eexists _, _; by repeat split)
              | intros Hne Hd1; rewrite decide_False by done; try lia;
                reflexivity ]).
    all: try reflexivity.
    all: try (cbn; apply at_index_Ok; split; [done|]; by apply list_lookup_insert_eq).
    all: pose proof E as E'; first [apply Z.eqb_eq in E' | apply Z.eqb_neq in E'].
    all: subst h; cbn; case_decide; try lia; cbn; rewrite <- ?app_assoc;
      reflexivity.
Qed.

End merge_facts.

Section sequential_facts.
Context (cfg : Config) (env : Fast.Env).
Import Fast.

Lemma u32_small x : 0 <= x < 2 ^ 32 -> u32 x = x.
Proof. intros. unfold u32. by apply Z.mod_small. Qed.

(** [merge_sequential] returns when [data_list] has the logical block; it is
    idle without a previous sequential block and ends on its message
    otherwise. *)
Lemma merge_sequential_returns L event st d :
  at_index (data_list st) L = Ok d ->
  exists event1 st1,
    merge_sequential cfg env L event st = Ok (event1, st1)
    /\ (sequential_logical_address st = -1 -> st1 = st /\ event1 = event)
    /\ (sequential_logical_address st <> -1 ->
        last (output st1) = Some MergeSequential).
Proof.
  intros Hd. unfold merge_sequential.
  destruct (Z.eqb_spec (sequential_logical_address st) (-1)) as [HS|HS].
  { exists event, st. by repeat split. }
  cbn [get_free_block].
  set (D' := env_get_free_block env (calls st) DATA).
  set (st1 := print _ (log_call _ st)).
  change (data_list st1) with (data_list st). rewrite Hd.
  cbn [mbind result_bind].
  destruct (merge_loop_chain cfg
              (fun i => Ok (merge_sequential_source cfg env st1 d i))
              (merge_sequential_source cfg env st1 d) D'
              (seqZ 0 (BLOCK_SIZE cfg))
              ltac:(by apply Forall_forall) event st1) as (ms & -> & _).
  cbn [mbind result_bind].
  pose proof (at_index_lt _ _ _ Hd) as Hlt.
  apply at_index_Ok in Hd as [HL _].
  unfold merge_finish.
  destruct (d =? -1); cbn [negb];
    (rewrite store_index_Ok by done); cbn [mbind result_bind];
    do 2 eexists; (split; [reflexivity|]); (split; [done|]);
    intros _; unfold print, add_output; cbn [output]; apply last_snoc.
Qed.

(** [switch_sequential] returns when [data_list] has the logical block, and
    ends on its message. *)
Lemma switch_sequential_returns L event st d :
  at_index (data_list st) L = Ok d ->
  exists st1,
    switch_sequential cfg env L event st = Ok st1
    /\ last (output st1) = Some SwitchSequential
    /\ at_index (data_list st1) L
       = Ok (Address.get_linear_address (sequential_address st)).
Proof.
  intros Hd. unfold switch_sequential. rewrite Hd. cbn [mbind result_bind].
  pose proof (at_index_lt _ _ _ Hd) as Hlt.
  apply at_index_Ok in Hd as [HL _].
  destruct (d =? -1); cbn [negb];
    (rewrite store_index_Ok by done); cbn [mbind result_bind];
    eexists; (split; [reflexivity|]);
    (split; [unfold print, add_output; cbn [output]; apply last_snoc|]);
    cbn; apply at_index_Ok; (split; [done|]); by apply list_lookup_insert_eq.
Qed.

(** The write of the first page of a logical block, from any state. *)
Lemma write_to_log_block_offset_zero event L st d :
  0 < BLOCK_SIZE cfg < 2 ^ 32 ->
  logical_address event mod BLOCK_SIZE cfg = 0 ->
  at_index (data_list st) L = Ok d ->
  exists event1 st1,
    (sequential_offset st = BLOCK_SIZE cfg - 1 ->
       switch_sequential cfg env L event st = Ok st1 /\ event1 = event
       /\ last (output st1) = Some SwitchSequential)
    /\ (sequential_offset st <> BLOCK_SIZE cfg - 1 ->
        merge_sequential cfg env L event st = Ok (event1, st1)
        /\ (sequential_logical_address st = -1 -> st1 = st /\ event1 = event)
        /\ (sequential_logical_address st <> -1 ->
            last (output st1) = Some MergeSequential))
    /\ let fresh := env_get_free_block env (calls st1) DATA in
       write_to_log_block cfg env event L st =
         Ok (true,
             set_address
               (env_get_free_page env (calls st1 ++ [GetFreeBlock DATA]) fresh)
               event1,
             log_call (GetFreePage fresh)
               (set_sequential fresh L 1 (log_call (GetFreeBlock DATA) st1))).
Proof.
  intros HB Hoff Hd. unfold write_to_log_block. rewrite Hoff.
  change (u32 0 =? 0) with true. cbn match.
  rewrite (u32_small (BLOCK_SIZE cfg - 1)) by lia.
  destruct (Z.eqb_spec (sequential_offset st) (BLOCK_SIZE cfg - 1)) as [E|E].
  - destruct (switch_sequential_returns L event st d Hd) as (st1 & Hsw & Hlast & _).
    exists event, st1. rewrite Hsw. split; [done|]. split; [done|reflexivity].
  - destruct (merge_sequential_returns L event st d Hd)
      as (event1 & st1 & Hm & Hidle & Hlast).
    exists event1, st1. rewrite Hm. split; [done|]. split; [done|reflexivity].
Qed.

(** How [write_to_log_block] moves the sequential log block: the counter
    advances by one exactly on the write of the owner's logical block at
    the page offset the counter shows; every other write restarts it at 1
    or leaves it alone. *)
Lemma write_to_log_block_sequential_fields event L st b event' st' :
  write_to_log_block cfg env event L st = Ok (b, event', st') ->
  let lbnOffset := u32 (logical_address event mod BLOCK_SIZE cfg) in
  (lbnOffset = 0 ->
     sequential_logical_address st' = L /\ sequential_offset st' = 1)
  /\ (lbnOffset <> 0 -> sequential_logical_address st = L ->
      lbnOffset = sequential_offset st ->
      sequential_logical_address st' = L
      /\ sequential_offset st' = u32 (sequential_offset st + 1)
      /\ sequential_address st' = sequential_address st)
  /\ (lbnOffset <> 0 -> sequential_logical_address st = L ->
      lbnOffset <> sequential_offset st ->
      sequential_logical_address st' = L /\ sequential_offset st' = 1)
  /\ (lbnOffset <> 0 -> sequential_logical_address st <> L -> st' = st).
Proof.
  intros H lbnOffset. unfold write_to_log_block in H. fold lbnOffset in H.
  destruct (Z.eqb_spec lbnOffset 0) as [E0|E0].
  - repeat split; try done.
    all: destruct (sequential_offset st =? u32 (BLOCK_SIZE cfg - 1));
      [ destruct (switch_sequential cfg env L event st) as [s1| |]
      | destruct (merge_sequential cfg env L event st) as [[e1 s1]| |] ];
      simpl in H; try discriminate; by injection H as <- <- <-.
  - destruct (Z.eqb_spec (sequential_logical_address st) L) as [ES|ES].
    + destruct (Z.eqb_spec lbnOffset (sequential_offset st)) as [EO|EO].
      * simpl in H. injection H as <- <- <-. by repeat split.
      * destruct (merge_sequential cfg env L event st) as [[e1 s1]| |];
          simpl in H; try discriminate. injection H as <- <- <-.
        by repeat split.
    + injection H as <- <- <-. by repeat split.
Qed.

Lemma read_sequential_fields st event s event' st' :
  read cfg env st event = Ok (s, event', st') ->
  sequential_logical_address st' = sequential_logical_address st
  /\ sequential_offset st' = sequential_offset st.
Proof.
  unfold read.
  destruct (at_index (data_list st) _) as [d| |]; simpl; try discriminate.
  destruct (OMap.find _ (log_map st)) as [lb|]; simpl.
  - destruct (at_index (LogPageBlock.pages lb) _) as [p| |]; simpl;
      try discriminate.
    destruct ((d =? -1) && (p =? -1)); intros [= <- <- <-]; done.
  - rewrite andb_false_r. intros [= <- <- <-]; done.
Qed.

Lemma write_sequential_fields st event s event' st' :
  write cfg env st event = Ok (s, event', st') ->
  sequential_logical_address st' = sequential_logical_address st
  /\ sequential_offset st' = sequential_offset st.
Proof.
  unfold write.
  set (L := Z.shiftr _ _).
  assert (forall st1, allocate_new_logblock cfg env L event st = Ok st1 ->
            sequential_logical_address st1 = sequential_logical_address st
            /\ sequential_offset st1 = sequential_offset st) as Halloc.
  { intros st1. unfold allocate_new_logblock.
    destruct (OMap.size (log_map st) >=? PAGE_MAX_LOG cfg).
    - destruct (OMap.begin (log_map st)) as [[ex exb]|]; simpl;
        [|discriminate]. intros [= <-]; done.
    - simpl. intros [= <-]; done. }
  destruct (OMap.find L (log_map st)) eqn:Hfind.
  - simpl. rewrite Hfind. simpl.
    destruct (assert _); simpl; try discriminate.
    case_decide; intros [= <- <- <-]; done.
  - destruct (allocate_new_logblock cfg env L event st) as [st1| |];
      simpl; try discriminate.
    destruct (Halloc st1 eq_refl) as [H1 H2].
    destruct (OMap.find L (log_map st1)); simpl; try discriminate.
    destruct (assert _); simpl; try discriminate.
    case_decide; intros [= <- <- <-]; simpl; done.
Qed.

End sequential_facts.

(** C3. The write of page offset 0 of a logical block has to switch only
    a sequential log block whose owner was contiguous, and to merge
    otherwise. The code tests the counter alone. On the FTL as
    constructed, whatever the uninitialised [sequential_logical_address]
    holds, after the writes of logical pages 0, 2, 1 and 2 through
    [write_to_log_block] the sequential log block holds the pages 1
    and 2 of logical block 0 and never received page 0 (the out-of-order
    write of page 2 restarted the block with the counter at 1 and was
    given no place in it), yet the counter is [BLOCK_SIZE - 1 = 3]: the
    write of logical page 4 (page offset 0 of logical block 1) runs
    [switch_sequential], which prints its message and makes that block the
    data block of logical block 1; [merge_sequential] is not run. *)
Theorem offset_zero_write_switches_block_without_page_0 (s0 : Z) :
  exists st placed event' st',
    run Scenario.cfg Scenario.env out_of_order_appends
      (Fast.init Scenario.cfg s0, []) = Ok (st, placed)
    /\ placed = [(0, 1); (0, 2)]
    /\ Fast.sequential_logical_address st = 0
    /\ Fast.sequential_offset st = BLOCK_SIZE Scenario.cfg - 1
    /\ ~ owner_contiguous st placed
    /\ Fast.write_to_log_block Scenario.cfg Scenario.env (new_event WRITE 4) 1
         st = Ok (true, event', st')
    /\ Fast.output st' = Fast.output st ++ [Fast.SwitchSequential]
    /\ at_index (Fast.data_list st) 1 = Ok (-1)
    /\ at_index (Fast.data_list st') 1
       = Ok (Address.get_linear_address (Fast.sequential_address st))
    /\ Fast.sequential_logical_address st' = 1
    /\ Fast.sequential_offset st' = 1.
Proof.
  (* the uninitialised member is read once, by the test of
     [merge_sequential] in the first write: it is -1 or it is not *)
  destruct s0 as [|p|[q|q|]];
    eexists _, _, _, _;
    (split; [vm_compute; reflexivity|]);
    (split; [reflexivity|]); (split; [reflexivity|]);
    (split; [reflexivity|]); (split; [vm_compute; discriminate|]);
    (split; [vm_compute; reflexivity|]);
    vm_compute; by repeat split.
Qed.

(** In the scenario, with the sequential log block of logical block 0 at
    address 4 (pages 0 and 1 valid) and the data block at address 16: slot
    0 is read from the sequential block, slot 2 from the data block, both
    are written to the new data block at address 8, which becomes
    [data_list[0]]. *)
Lemma merge_sequential_copies_each_slot_witness :
  let st :=
    Fast.set_data_list [16; -1; -1; -1; -1; -1; -1; -1] Scenario.filling_state in
  let event := new_event WRITE 2 in
  at_index (Fast.data_list st) 0 = Ok 16
  /\ Fast.sequential_logical_address st <> -1
  /\ exists event' st' slot,
       Fast.merge_sequential Scenario.cfg Scenario.env 0 event st
       = Ok (event', st')
       /\ chain event' = concat (map slot [0; 1; 2; 3])
       /\ copies_page Scenario.cfg 2 (Address.of_linear Scenario.cfg 4 PAGE)
            (Address.of_linear Scenario.cfg 8 PAGE) (slot 0)
       /\ copies_page Scenario.cfg 2 (Address.of_linear Scenario.cfg 18 PAGE)
            (Address.of_linear Scenario.cfg 10 PAGE) (slot 2)
       /\ at_index (Fast.data_list st') 0 = Ok 8.
Proof.
  intros st event.
  assert (at_index (Fast.data_list st) 0 = Ok 16) as Hd by reflexivity.
  assert (Fast.sequential_logical_address st <> -1) as HS by discriminate.
  split; [exact Hd|]. split; [exact HS|].
  destruct (merge_sequential_copies_each_slot Scenario.cfg Scenario.env
              0 event st 16 Hd) as [_ H].
  destruct (H HS)
    as (event' & st' & slot & Hm & Hchain & Hslot & _ & _ & Hat & _).
  exists event', st', slot.
  split; [exact Hm|]. split; [exact Hchain|].
  destruct (Hslot 0) as (H0 & _ & _); [simpl; lia|].
  destruct (Hslot 2) as (_ & H2 & _); [simpl; lia|].
  split; [exact (proj1 (H0 eq_refl))|].
  split; [|exact Hat].
  exact (proj1 (H2 ltac:(discriminate) ltac:(discriminate))).
Defined.

(** C4. Without a previous sequential block [merge_sequential] has to
    change nothing. The code takes [sequential_logical_address = -1] for
    that, the value [switch_sequential] resets the field to, and the
    constructor leaves the field uninitialised. On the FTL as constructed
    (no block was ever taken from the manager, the sequential address is
    the default one), with any value but -1 in the field,
    [merge_sequential(0)] runs a full merge: it takes a data block from the manager, chains READs of
    the pages 0 and 1 of physical block 0 and WRITEs into the new block to
    the event, has address 0 invalidated as a log block, and maps logical
    block 0 to the new block. *)
Theorem merge_sequential_merges_on_constructed_ftl (s0 : Z) :
  let st := Fast.init Scenario.cfg s0 in
  let event := new_event WRITE 0 in
  Fast.calls st = []
  /\ Fast.sequential_address st = Address.default
  /\ at_index (Fast.data_list st) 0 = Ok (-1)
  /\ ((s0 = -1
       /\ Fast.merge_sequential Scenario.cfg Scenario.env 0 event st
          = Ok (event, st))
      \/ (s0 <> -1
          /\ exists event' st',
               Fast.merge_sequential Scenario.cfg Scenario.env 0 event st
               = Ok (event', st')
               /\ map node_type (chain event') = [READ; WRITE; READ; WRITE]
               /\ map (fun n => Address.real_address (node_address n))
                    (chain event') = [0; 4; 1; 5]
               /\ at_index (Fast.data_list st') 0 = Ok 4
               /\ Fast.calls st' =
                    [ Fast.GetFreeBlock DATA;
                      Fast.Invalidate Address.default LOG;
                      Fast.InsertEvents event'; Fast.SimulateMapWrite event' ]
               /\ last (Fast.output st') = Some Fast.MergeSequential)).
Proof.
  intros st event. split; [reflexivity|]. split; [reflexivity|].
  split; [reflexivity|].
  destruct s0 as [|p|[q|q|]];
    [right..|left; split; reflexivity];
    (split; [discriminate|]); eexists _, _;
    (split; [vm_compute; reflexivity|]); vm_compute; by repeat split.
Qed.

(** ** The block manager *)

Section gc_facts.
Context (cfg : Config) (ssd : list BM.Block)
  (get_logical_address : Address.t -> Z).
Import BM.

Lemma scan_candidates_concat candidates acc :
  scan_candidates ssd candidates acc = scan_set ssd (concat candidates) acc.
Proof.
  revert acc. induction candidates as [|s candidates IH]; intros acc.
  - reflexivity.
  - simpl. revert acc. induction s as [|c s IHs]; intros acc; simpl.
    + apply IH.
    + destruct (deref ssd c) as [b| |]; simpl; try reflexivity.
      destruct (pages_valid b <? fst acc); apply IHs.
Qed.




(** [sort_into_age_class] changes [max_age] at most, and raises it to the
    age of the block when that is larger. *)
Lemma sort_into_age_class_state a st klass st' :
  sort_into_age_class cfg ssd a st = Ok (klass, st') ->
  exists p b,
    block_pointer cfg a = Ok p /\ deref ssd p = Ok b
    /\ st' = (let age := u32 (BLOCK_ERASES cfg - erases_remaining b) in
              if age >? max_age st then set_max_age age st else st)
    /\ max_age st' =
         Z.max (max_age st) (u32 (BLOCK_ERASES cfg - erases_remaining b)).
Proof.
  unfold sort_into_age_class.
  destruct (block_pointer cfg a) as [p| |]; simpl; try discriminate.
  destruct (deref ssd p) as [b| |] eqn:Hb; simpl; try discriminate.
  set (age := u32 (BLOCK_ERASES cfg - erases_remaining b)).
  destruct (_ =? 0); [discriminate|]. intros [= _ <-].
  exists p, b. split; [done|]. split; [done|]. split; [done|].
  destruct (Z.gtb_spec age (max_age st)); simpl; lia.
Qed.

Lemma sort_into_age_class_keeps a st klass st' :
  sort_into_age_class cfg ssd a st = Ok (klass, st') ->
  gc_candidates st' = gc_candidates st
  /\ scheduled st' = scheduled st
  /\ free_blocks st' = free_blocks st
  /\ min_age st' = min_age st
  /\ blocks_with_min_age st' = blocks_with_min_age st
  /\ num_free_pages st' = num_free_pages st
  /\ num_available_pages_for_new_writes st'
     = num_available_pages_for_new_writes st.
Proof.
  intros H. apply sort_into_age_class_state in H as (p & b & _ & _ & -> & _).
  cbv zeta. by destruct (_ >? _).
Qed.

(** The loop of [migrate] schedules the pairs of the valid pages, one
    call of the scheduler per page. *)
Lemma migrate_pages_result block slots st st' :
  migrate_pages cfg get_logical_address block slots st = Ok st' ->
  st' = fold_left (fun s es => schedule es s)
          (migration_of cfg get_logical_address block slots) st.
Proof.
  revert st. induction slots as [|i slots IH]; intros st H; simpl in H.
  - by injection H as <-.
  - unfold migrate_page in H.
    destruct (at_index (page_states block) i) as [pg| |] eqn:Hpg;
      simpl in H; try discriminate.
    apply at_index_Ok in Hpg as [_ Hpg].
    unfold migration_of. rewrite filter_cons.
    destruct (decide (pg = VALID)) as [->|Hne]; simpl in H.
    + rewrite decide_True by done. simpl. by apply IH.
    + rewrite decide_False by congruence. by apply IH.
Qed.

Lemma fold_schedule_fields ess st :
  let st' := fold_left (fun s es => schedule es s) ess st in
  scheduled st' = scheduled st ++ ess
  /\ gc_candidates st' = gc_candidates st
  /\ num_available_pages_for_new_writes st'
     = num_available_pages_for_new_writes st
  /\ num_free_pages st' = num_free_pages st
  /\ max_age st' = max_age st.
Proof.
  revert st. induction ess as [|es ess IH]; intros st; simpl.
  - by rewrite app_nil_r.
  - destruct (IH (schedule es st)) as (-> & -> & -> & -> & ->).
    simpl. by rewrite <- app_assoc.
Qed.

(** [migrate]: what it needs and what it does. *)
Lemma migrate_result b st st' :
  migrate cfg ssd get_logical_address b st = Ok st' ->
  exists block,
    deref ssd b = Ok block
    /\ state block <> FREE /\ state block <> PARTIALLY_FREE
    /\ pages_valid block <= num_available_pages_for_new_writes st
    /\ st' = fold_left (fun s es => schedule es s)
               (migration_of cfg get_logical_address block
                  (seqZ 0 (BLOCK_SIZE cfg)))
               (set_num_available
                  (num_available_pages_for_new_writes st - pages_valid block)
                  st).
Proof.
  unfold migrate.
  destruct (deref ssd b) as [block| |]; simpl; try discriminate.
  destruct (bool_decide (state block <> FREE)) eqn:E1; simpl;
    try discriminate.
  destruct (bool_decide (state block <> PARTIALLY_FREE)) eqn:E2; simpl;
    try discriminate.
  destruct (Z.leb_spec (pages_valid block)
              (num_available_pages_for_new_writes st)) as [Hle|Hgt]; simpl;
    try discriminate.
  intros H. apply migrate_pages_result in H.
  apply bool_decide_eq_true in E1, E2. exists block. by repeat split.
Qed.

(** [choose_gc_victim]: without a best block the state is returned as it
    is; with one, the block is taken out of the candidate set of its
    address and present age class, and migrated. *)
Lemma choose_gc_victim_result candidates st st' :
  choose_gc_victim cfg ssd get_logical_address candidates st = Ok st' ->
  exists m best,
    scan_set ssd (concat candidates) (BLOCK_SIZE cfg, None) = Ok (m, best)
    /\ match best with
       | None => st' = st
       | Some v =>
           exists block klass st1 s gc,
             deref ssd v = Ok block
             /\ let addr := Address.of_linear cfg (physical_address block) BLOCK in
                sort_into_age_class cfg ssd addr st = Ok (klass, st1)
                /\ at_index3 (gc_candidates st) (Address.package addr)
                     (Address.die addr) klass = Ok s
                /\ BSet.count v s = 1
                /\ update_index3 (gc_candidates st) (Address.package addr)
                     (Address.die addr) klass (BSet.erase v) = Ok gc
                /\ migrate cfg ssd get_logical_address v
                     (set_gc_candidates gc st1) = Ok st'
       end.
Proof.
  unfold choose_gc_victim. rewrite scan_candidates_concat.
  destruct (scan_set ssd (concat candidates) (BLOCK_SIZE cfg, None))
    as [[m best]| |]; cbn [mbind result_bind]; try discriminate.
  intros H. exists m, best. split; [done|].
  destruct best as [v|]; [|by injection H as <-].
  destruct (deref ssd v) as [block| |] eqn:Hblock;
    cbn [mbind result_bind] in H; try discriminate.
  set (addr := Address.of_linear cfg (physical_address block) BLOCK) in *.
  destruct (sort_into_age_class cfg ssd addr st) as [[klass st1]| |] eqn:Hs;
    cbn [mbind result_bind] in H; try discriminate.
  destruct (sort_into_age_class_keeps _ _ _ _ Hs) as (Hgc & _).
  rewrite Hgc in H.
  destruct (at_index3 (gc_candidates st) _ _ klass) as [s| |] eqn:Hat;
    cbn [mbind result_bind] in H; try discriminate.
  destruct (Z.eqb_spec (BSet.count v s) 1) as [Hc|Hc];
    cbn [mbind result_bind assert] in H; try discriminate.
  destruct (update_index3 (gc_candidates st) _ _ klass _) as [gc| |] eqn:Hup;
    cbn [mbind result_bind] in H; try discriminate.
  cbn [gc_candidates set_gc_candidates] in H.
  destruct (at_index3 gc _ _ klass) as [s2| |];
    cbn [mbind result_bind] in H; try discriminate.
  destruct (BSet.count v s2 =? 0); cbn [mbind result_bind assert] in H;
    try discriminate.
  exists block, klass, st1, s, gc. by repeat split.
Qed.

Lemma update_index3_at {A} (v v' : list (list (list A))) i j k f :
  update_index3 v i j k f = Ok v' ->
  exists z, at_index3 v i j k = Ok z /\ at_index3 v' i j k = Ok (f z).
Proof.
  unfold update_index3, at_index3.
  destruct (at_index v i) as [x| |]; cbn [mbind result_bind]; try discriminate.
  destruct (at_index x j) as [y| |]; cbn [mbind result_bind]; try discriminate.
  destruct (at_index y k) as [z| |]; cbn [mbind result_bind]; try discriminate.
  destruct (store_index y k (f z)) as [y'| |] eqn:Hy;
    cbn [mbind result_bind]; try discriminate.
  destruct (store_index x j y') as [x'| |] eqn:Hx;
    cbn [mbind result_bind]; try discriminate.
  intros Hv. exists z. split; [done|].
  rewrite (store_index_at _ _ _ _ Hv). cbn [mbind result_bind].
  rewrite (store_index_at _ _ _ _ Hx). cbn [mbind result_bind].
  exact (store_index_at _ _ _ _ Hy).
Qed.

Lemma bset_count_erase x s : BSet.count x (BSet.erase x s) = 0.
Proof.
  induction s as [|y s IH]; simpl; [done|].
  destruct (y =? x) eqn:E; [done|]. simpl. by rewrite E.
Qed.




End gc_facts.




(** C6. A write completion has to add the block of the replaced page to
    the candidates when the block has at least [BLOCK_SIZE / 4] invalid
    pages. Block 0 is ACTIVE and has 2 invalid pages of 4, with
    [BLOCK_SIZE / 4 = 1]; the candidate set of its age class holds block 1.
    The code adds a block that has fewer than [BLOCK_SIZE / 4] invalid
    pages, or when the set is empty: block 0 is left out. The other half of
    the claim holds: block 3, all of whose pages are invalid, is erased,
    and is no candidate. *)
Theorem write_outcome_leaves_out_block_with_invalid_pages :
  (exists b0,
     BM.deref ScenarioBM.ssd 0 = Ok b0 /\ BM.state b0 = ACTIVE
     /\ BM.pages_invalid b0 = 2
     /\ BLOCK_SIZE ScenarioBM.cfg / 4 <= BM.pages_invalid b0
        < BLOCK_SIZE ScenarioBM.cfg)
  /\ BM.gc_candidates ScenarioBM.st = [[[ [1]; [] ]]]
  /\ (exists st',
        BM.register_write_outcome ScenarioBM.cfg ScenarioBM.ssd
          ScenarioBM.get_logical_address ScenarioBM.overwrite_of_page_1
          SUCCESS ScenarioBM.st = Ok st'
        /\ BM.gc_candidates st' = [[[ [1]; [] ]]]
        /\ BM.scheduled st' = [])
  /\ (exists st',
        BM.register_write_outcome ScenarioBM.cfg ScenarioBM.ssd
          ScenarioBM.get_logical_address ScenarioBM.overwrite_in_block_3
          SUCCESS ScenarioBM.st = Ok st'
        /\ BM.gc_candidates st' = [[[ [1]; [] ]]]
        /\ BM.scheduled st' =
             [[ BM.gc_event ERASE 0
                  (Address.of_linear ScenarioBM.cfg 12 BLOCK)
                  Address.default ]]).
Proof.
  split.
  { eexists. split; [reflexivity|]. split; [reflexivity|].
    split; [reflexivity|]. vm_compute. repeat split; discriminate. }
  split; [reflexivity|].
  split; eexists; (split; [vm_compute; reflexivity|]); split; reflexivity.
Qed.

Section erase_facts.
Context (cfg : Config) (ssd : list BM.Block).
Import BM.

(** C8, as the code has it. [register_erase_outcome] computes the age
    class of the freed block with [sort_into_age_class], appends the
    address of the block, at the granularity of pages and with page 0, to
    [free_blocks] of its package, die and class, and adds [BLOCK_SIZE] to
    both page counters. [max_age] is raised to the age of the block when
    that is larger; [min_age] and [blocks_with_min_age] are left as they
    were. *)
Theorem register_erase_outcome_frees_block event s st st' :
  register_erase_outcome cfg ssd event s st = Ok st' ->
  let a := Address.set_page 0 (Address.set_valid PAGE (address event)) in
  exists p b klass v,
    block_pointer cfg a = Ok p /\ deref ssd p = Ok b
    /\ (exists st1, sort_into_age_class cfg ssd a st = Ok (klass, st1))
    /\ at_index3 (free_blocks st) (Address.package a) (Address.die a) klass
       = Ok v
    /\ update_index3 (free_blocks st) (Address.package a) (Address.die a)
         klass (fun v => v ++ [a]) = Ok (free_blocks st')
    /\ at_index3 (free_blocks st') (Address.package a) (Address.die a) klass
       = Ok (v ++ [a])
    /\ num_free_pages st' = num_free_pages st + BLOCK_SIZE cfg
    /\ num_available_pages_for_new_writes st'
       = num_available_pages_for_new_writes st + BLOCK_SIZE cfg
    /\ max_age st'
       = Z.max (max_age st) (u32 (BLOCK_ERASES cfg - erases_remaining b))
    /\ min_age st' = min_age st
    /\ blocks_with_min_age st' = blocks_with_min_age st
    /\ gc_candidates st' = gc_candidates st
    /\ scheduled st' = scheduled st.
Proof.
  intros H a. unfold register_erase_outcome in H. fold a in H.
  destruct (sort_into_age_class cfg ssd a st) as [[klass st1]| |] eqn:Hs;
    cbn [mbind result_bind] in H; try discriminate.
  destruct (sort_into_age_class_keeps _ _ _ _ _ _ Hs)
    as (Hgc & Hsch & Hfb & Hmin & Hset & Hnf & Hna).
  destruct (sort_into_age_class_state _ _ _ _ _ _ Hs)
    as (p & b & Hp & Hb & _ & Hmax).
  rewrite Hfb in H.
  destruct (update_index3 (free_blocks st) _ _ klass _) as [fb| |] eqn:Hup;
    cbn [mbind result_bind] in H; try discriminate.
  injection H as <-. cbn.
  destruct (update_index3_at _ _ _ _ _ _ Hup) as (v & Hv & Hv').
  exists p, b, klass, v.
  rewrite Hnf, Hna.
  split; [done|]. split; [done|]. split; [eauto|]. by repeat split.
Qed.

End erase_facts.

(** C8, as the claim states it, fails. When the first erase of block 3
    completes, block 3 has age 1 and [min_age] is 0:
    [register_erase_outcome] puts the block in the free list of class 1
    and leaves it in [blocks_with_min_age], from which the wear-levelling
    rules ([Wear_Level], a callback of its own) take it out. *)
Lemma register_erase_outcome_keeps_blocks_with_min_age :
  exists st' st'',
    BM.register_erase_outcome ScenarioBM.cfg (ScenarioBM.ssd_after_erase 999)
      ScenarioBM.erase_of_block_3 SUCCESS ScenarioBM.st = Ok st'
    /\ BM.blocks_with_min_age st' = [0; 1; 3; 4; 5; 6; 7]
    /\ BM.blocks_with_min_age st' = BM.blocks_with_min_age ScenarioBM.st
    /\ BM.min_age st' = 0
    /\ BM.Wear_Level ScenarioBM.cfg (ScenarioBM.ssd_after_erase 999)
         ScenarioBM.get_logical_address ScenarioBM.erase_of_block_3
         ScenarioBM.st = Ok st''
    /\ BM.blocks_with_min_age st'' = [0; 1; 4; 5; 6; 7].
Proof.
  do 2 eexists. split; [vm_compute; reflexivity|].
  split; [reflexivity|]. split; [reflexivity|]. split; [reflexivity|].
  split; [vm_compute; reflexivity|]. reflexivity.
Qed.

(** The completion of the first erase of block 3 in the scenario. *)
Lemma register_erase_outcome_frees_block_witness :
  exists st' v,
    BM.register_erase_outcome ScenarioBM.cfg (ScenarioBM.ssd_after_erase 999)
      ScenarioBM.erase_of_block_3 SUCCESS ScenarioBM.st = Ok st'
    /\ at_index3 (BM.free_blocks ScenarioBM.st) 0 0 1 = Ok v
    /\ at_index3 (BM.free_blocks st') 0 0 1
       = Ok (v ++ [Address.of_linear ScenarioBM.cfg 12 PAGE])
    /\ BM.num_free_pages st' = 24
    /\ BM.blocks_with_min_age st' = BM.blocks_with_min_age ScenarioBM.st.
Proof.
  destruct (BM.register_erase_outcome ScenarioBM.cfg
              (ScenarioBM.ssd_after_erase 999) ScenarioBM.erase_of_block_3
              SUCCESS ScenarioBM.st) as [st'| |] eqn:H;
    [|vm_compute in H; discriminate..].
  destruct (register_erase_outcome_frees_block _ _ _ _ _ _ H)
    as (p & b & klass & v & _ & _ & [st1 Hs] & Hv & _ & Hv' & Hnf & _ & _ & _ & Hset & _).
  assert (klass = 1) as ->.
  { vm_compute in Hs. by injection Hs as <- _. }
  exists st', v.
  split; [reflexivity|]. split; [exact Hv|]. split; [exact Hv'|].
  split; [exact Hnf|exact Hset].
Defined.

(** C9. The age class has to be the floor of [(age - min_age) / (max_age -
    min_age) * num_age_classes * 0.99999]. For a block of age 2 with
    [min_age = 0], [max_age = 3] and two age classes that is the floor of
    1.33332, class 1; the code divides the two [uint] differences with the
    integer division, gets 0 for the normalized age, and answers class 0.
    With [max_age = min_age] the same division is a division by zero, where
    the claim has class 0. *)
Theorem sort_into_age_class_divides_integers :
  (exists st',
     BM.sort_into_age_class ScenarioBM.cfg (ScenarioBM.ssd_after_erase 998)
       (Address.of_linear ScenarioBM.cfg 12 BLOCK)
       (BM.set_max_age 3 ScenarioBM.st) = Ok (0, st')
     /\ BM.max_age st' = 3 /\ BM.min_age st' = 0
     /\ BM.num_age_classes st' = 2)
  /\ u32 (BLOCK_ERASES ScenarioBM.cfg - 998) = 2
  /\ age_class_of_spec 2 0 3 2 = 1
  /\ BM.sort_into_age_class ScenarioBM.cfg (ScenarioBM.ssd_after_erase 999)
       (Address.of_linear ScenarioBM.cfg 12 BLOCK) ScenarioBM.st_one_age
     = Undefined.
Proof.
  split.
  { eexists. split; [vm_compute; reflexivity|]. repeat split. }
  repeat split.
Qed.

(** ** The scope of a garbage collection, and the range of the age class *)




(** Where the claim on the range of the age class holds: when the block is
    not younger than [min_age], the class that [sort_into_age_class]
    returns is below [num_age_classes]. The integer quotient is then 0 or
    1. *)
Lemma sort_into_age_class_below_num_age_classes
    cfg ssd a st klass st' p b :
  BM.sort_into_age_class cfg ssd a st = Ok (klass, st') ->
  BM.block_pointer cfg a = Ok p ->
  BM.deref ssd p = Ok b ->
  0 < BM.num_age_classes st ->
  0 <= BM.min_age st <= u32 (BLOCK_ERASES cfg - BM.erases_remaining b) ->
  BM.max_age st < 2 ^ 32 ->
  0 <= klass < BM.num_age_classes st.
Proof.
  unfold BM.sort_into_age_class. intros H Hp Hb Hn Hmin Hmax.
  rewrite Hp in H. cbn [mbind result_bind] in H.
  rewrite Hb in H. cbn [mbind result_bind] in H.
  set (age := u32 (BLOCK_ERASES cfg - BM.erases_remaining b)) in *.
  assert (0 <= age < 2 ^ 32) as Hage by (apply Z.mod_pos_bound; lia).
  set (st1 := if age >? BM.max_age st then BM.set_max_age age st else st) in *.
  assert (BM.max_age st1 = Z.max (BM.max_age st) age
          /\ BM.min_age st1 = BM.min_age st
          /\ BM.num_age_classes st1 = BM.num_age_classes st)
    as (Hm1 & Hm2 & Hm3).
  { unfold st1. destruct (Z.gtb_spec age (BM.max_age st)); simpl;
      repeat split; lia. }
  rewrite Hm2, Hm3 in H.
  rewrite (u32_small (BM.max_age st1 - BM.min_age st)) in H by lia.
  rewrite (u32_small (age - BM.min_age st)) in H by lia.
  destruct (Z.eqb_spec (BM.max_age st1 - BM.min_age st) 0) as [E|E];
    [discriminate|].
  injection H as <- _.
  set (q := (age - BM.min_age st) / (BM.max_age st1 - BM.min_age st)).
  assert (0 <= q <= 1) as Hq.
  { unfold q. split.
    - apply Z.div_pos; lia.
    - apply Z.div_le_upper_bound; lia. }
  set (n := BM.num_age_classes st) in *.
  assert (q = 0 \/ q = 1) as [->| ->] by lia.
  - rewrite !Z.mul_0_l, Z.div_0_l by lia. lia.
  - rewrite Z.mul_1_l. split.
    + apply Z.div_pos; lia.
    + apply Z.div_lt_upper_bound; lia.
Qed.

(** ** What the code does where it departs from the claims *)

Section departures.
Context (cfg : Config).

(** [random_merge] for a log block with a slot index per page offset: one
    test, on the page of the triggering event, decides for all the slots
    whether they are read from the log block; the data block is used when
    the log block does not hold that page. Afterwards [data_list[L]] is the
    new data block, the log block has left [log_map], and the answer is
    [true]. *)
Lemma random_merge_slots (env : Fast.Env) logBlock L event st d p :
  at_index (Fast.data_list st) L = Ok d ->
  length (LogPageBlock.pages logBlock) = Z.to_nat (BLOCK_SIZE cfg) ->
  at_index (LogPageBlock.pages logBlock)
    (logical_address event mod BLOCK_SIZE cfg) = Ok p ->
  let D' := Fast.env_get_free_block env (Fast.calls st) DATA in
  let source i :=
    if negb (p =? -1) then
      Some (Address.of_linear cfg
              (Address.real_address (LogPageBlock.address logBlock)
               + nth (Z.to_nat i) (LogPageBlock.pages logBlock) 0) PAGE)
    else if negb (d =? -1) then Some (Address.of_linear cfg (d + i) PAGE)
    else None in
  exists event' st',
    Fast.random_merge cfg env logBlock L event st = Ok (true, event', st')
    /\ chain event' =
         chain event
         ++ concat (map (fun i => slot_events cfg D' (logical_address event)
                                    (source i) i)
                      (seqZ 0 (BLOCK_SIZE cfg)))
    /\ Fast.data_list st' =
         <[Z.to_nat L := Address.get_linear_address D']> (Fast.data_list st)
    /\ Fast.log_map st' = OMap.erase L (Fast.log_map st).
Proof.
  intros Hd Hlen Hp D' source. unfold Fast.random_merge.
  cbn [Fast.get_free_block]. fold D'.
  set (st1 := Fast.print _ (Fast.log_call _ st)).
  change (Fast.data_list st1) with (Fast.data_list st). rewrite Hd.
  cbn [mbind result_bind].
  assert (Forall (fun i => Fast.random_merge_source cfg logBlock event d i
                           = Ok (source i)) (seqZ 0 (BLOCK_SIZE cfg))) as HF.
  { apply Forall_forall. intros i Hi. apply elem_of_seqZ in Hi.
    unfold Fast.random_merge_source, source. cbn [Address.page Address.of_linear].
    rewrite Hp. cbn [mbind result_bind].
    destruct (negb (p =? -1)); [|by destruct (negb (d =? -1))].
    assert (Z.to_nat i < length (LogPageBlock.pages logBlock))%nat as Hlt by lia.
    destruct (lookup_lt_is_Some_2 _ _ Hlt) as [q Hq].
    assert (at_index (LogPageBlock.pages logBlock) i = Ok q) as ->
      by (apply at_index_Ok; split; [lia|done]).
    cbn [mbind result_bind].
    by rewrite (nth_lookup_Some _ _ 0 _ Hq). }
  destruct (merge_loop_chain cfg _ source D' _ HF event st1) as (ms & -> & _).
  cbn [mbind result_bind].
  pose proof (at_index_lt _ _ _ Hd) as Hlt.
  apply at_index_Ok in Hd as [HL _].
  unfold Fast.merge_finish.
  destruct (d =? -1); cbn [negb];
    (rewrite store_index_Ok by done); cbn [mbind result_bind];
    do 2 eexists; (split; [reflexivity|]); by repeat split.
Qed.

(** [register_write_outcome], away from the emergency collection, for a
    block that is ACTIVE and not wholly invalid: the block joins the
    candidate set of its age class when it has FEWER than [BLOCK_SIZE / 4]
    invalid pages, or when the set is empty, and the set is left alone
    otherwise. *)
Lemma register_write_outcome_candidates
    (ssd : list BM.Block) (get_logical_address : Address.t -> Z)
    event s st st' p b :
  BM.register_write_outcome cfg ssd get_logical_address event s st = Ok st' ->
  BLOCK_SIZE cfg < BM.num_free_pages st - 1 ->
  BM.block_pointer cfg (replace_address event) = Ok p ->
  BM.deref ssd p = Ok b ->
  BM.state b = ACTIVE ->
  BM.pages_invalid b <> BLOCK_SIZE cfg ->
  let ra := replace_address event in
  exists klass set,
    at_index3 (BM.gc_candidates st) (Address.package ra) (Address.die ra) klass
    = Ok set
    /\ at_index3 (BM.gc_candidates st') (Address.package ra) (Address.die ra)
         klass
       = Ok (if (BM.pages_invalid b <? BLOCK_SIZE cfg / 4)
                || (BSet.size set =? 0)
             then BSet.insert p set else set).
Proof.
  intros H Hfree Hp Hb Hact Hinv ra. unfold BM.register_write_outcome in H.
  destruct (assert (BM.num_free_pages st >? 0)); cbn [mbind result_bind] in H;
    try discriminate.
  set (st0 := BM.set_num_free_pages _ st) in H.
  destruct (if negb (garbage_collection_op event) then _ else Ok st0)
    as [st1| |] eqn:H1; cbn [mbind result_bind] in H; try discriminate.
  assert (BM.num_free_pages st1 = BM.num_free_pages st - 1
          /\ BM.gc_candidates st1 = BM.gc_candidates st) as [Hnf Hgc1].
  { destruct (negb (garbage_collection_op event)).
    - destruct (assert _); cbn [mbind result_bind] in H1; try discriminate.
      by injection H1 as <-.
    - by injection H1 as <-. }
  destruct (Z.leb_spec (BM.num_free_pages st1) (BLOCK_SIZE cfg)) as [Hle|_];
    [lia|]. cbn [mbind result_bind] in H.
  fold ra in H, Hp. rewrite Hp in H. cbn [mbind result_bind] in H.
  rewrite Hb in H. cbn [mbind result_bind] in H.
  destruct (BM.sort_into_age_class cfg ssd ra st1) as [[klass st2]| |] eqn:Hs;
    cbn [mbind result_bind] in H; try discriminate.
  destruct (sort_into_age_class_keeps _ _ _ _ _ _ Hs) as (Hgc2 & _).
  rewrite Hact in H. rewrite bool_decide_eq_true_2 in H by done.
  destruct (Z.eqb_spec (BM.pages_invalid b) (BLOCK_SIZE cfg)) as [|_];
    [done|].
  rewrite Hgc2, Hgc1 in H.
  exists klass.
  destruct (BM.pages_invalid b <? BLOCK_SIZE cfg / 4) eqn:Hsmall;
    cbn [mbind result_bind orb] in H.
  - destruct (update_index3 (BM.gc_candidates st) _ _ klass _)
      as [gc| |] eqn:Hup; cbn [mbind result_bind] in H; try discriminate.
    injection H as <-.
    destruct (update_index3_at _ _ _ _ _ _ Hup) as (set & Hset & Hset').
    exists set. by split.
  - destruct (at_index3 (BM.gc_candidates st) _ _ klass) as [set| |] eqn:Hset;
      cbn [mbind result_bind] in H; try discriminate.
    exists set. split; [done|].
    destruct (BSet.size set =? 0); cbn [mbind result_bind orb] in H.
    + destruct (update_index3 (BM.gc_candidates st) _ _ klass _)
        as [gc| |] eqn:Hup; cbn [mbind result_bind] in H; try discriminate.
      injection H as <-.
      destruct (update_index3_at _ _ _ _ _ _ Hup) as (set' & Hs1 & Hs2).
      rewrite Hset in Hs1. by injection Hs1 as <-.
    + injection H as <-. by rewrite Hgc2, Hgc1.
Qed.

End departures.

(** * Further properties of the two files *)

(** ** The FAST FTL: construction and address arithmetic *)

Lemma halvings_pos_size p : Fast.halvings_pos p = Zpos (Pos.size p).
Proof.
  induction p as [p IH|p IH|]; simpl; rewrite ?IH; try reflexivity;
    by rewrite Pos2Z.inj_succ, Z.add_1_l.
Qed.

Lemma halvings_half_log2 n : 1 <= n -> Fast.halvings (n / 2) = Z.log2 n.
Proof.
  intros Hn. rewrite <- Z.div2_div.
  destruct n as [|[p|p|]|]; try lia; simpl; try reflexivity;
    apply halvings_pos_size.
Qed.

(** The constructor of the FTL sets [addressShift] to the integer binary
    logarithm of [BLOCK_SIZE], a [uint]. When [BLOCK_SIZE] is a power of
    two, the logical block [la >> addressShift] and the page offset
    [la mod BLOCK_SIZE] are the quotient and the remainder of the logical
    address by [BLOCK_SIZE]. *)
Theorem init_addressShift cfg s0 k la :
  0 <= k < 32 ->
  BLOCK_SIZE cfg = 2 ^ k ->
  Fast.addressShift (Fast.init cfg s0) = Z.log2 (BLOCK_SIZE cfg)
  /\ Fast.addressShift (Fast.init cfg s0) = k
  /\ Z.shiftr la (Fast.addressShift (Fast.init cfg s0)) = la / BLOCK_SIZE cfg
  /\ la = Z.shiftr la (Fast.addressShift (Fast.init cfg s0)) * BLOCK_SIZE cfg
          + la mod BLOCK_SIZE cfg.
Proof.
  intros [Hk _] HB.
  assert (Fast.addressShift (Fast.init cfg s0) = Z.log2 (BLOCK_SIZE cfg)) as H1.
  { cbn [Fast.addressShift Fast.init]. apply halvings_half_log2.
    rewrite HB. pose proof (Z.pow_pos_nonneg 2 k). lia. }
  assert (Fast.addressShift (Fast.init cfg s0) = k) as H2.
  { rewrite H1, HB. by apply Z.log2_pow2. }
  split; [done|]. split; [done|].
  rewrite H2, Z.shiftr_div_pow2, <- HB by done.
  split; [done|].
  assert (BLOCK_SIZE cfg <> 0)
    by (rewrite HB; pose proof (Z.pow_pos_nonneg 2 k); lia).
  rewrite Z.mul_comm. by apply Z.div_mod.
Qed.

Lemma init_addressShift_witness :
  Fast.addressShift (Fast.init Scenario.cfg (-1)) = 2
  /\ Z.shiftr 9 (Fast.addressShift (Fast.init Scenario.cfg (-1))) = 9 / 4.
Proof.
  destruct (init_addressShift Scenario.cfg (-1) 2 9 ltac:(lia) eq_refl)
    as (_ & H2 & H3 & _).
  split; [exact H2|exact H3].
Defined.

(** When [BLOCK_SIZE] is no power of two, the shift and the remainder part
    ways: the constructor still takes the integer logarithm, so that the
    logical block is [la / 2 ^ log2 BLOCK_SIZE], not [la / BLOCK_SIZE]. *)
Theorem init_addressShift_rounds_down cfg s0 la :
  1 <= BLOCK_SIZE cfg < 2 ^ 32 ->
  let shift := Fast.addressShift (Fast.init cfg s0) in
  shift = Z.log2 (BLOCK_SIZE cfg)
  /\ 2 ^ shift <= BLOCK_SIZE cfg < 2 ^ (shift + 1)
  /\ Z.shiftr la shift = la / 2 ^ shift.
Proof.
  intros [HB _] shift.
  assert (shift = Z.log2 (BLOCK_SIZE cfg)) as ->
    by (apply halvings_half_log2; lia).
  split; [done|]. split.
  - pose proof (Z.log2_spec (BLOCK_SIZE cfg) ltac:(lia)). lia.
  - apply Z.shiftr_div_pow2, Z.log2_nonneg.
Qed.

Lemma init_addressShift_rounds_down_witness :
  let cfg6 :=
    {| SSD_SIZE := 1; PACKAGE_SIZE := 1; DIE_SIZE := 1; PLANE_SIZE := 8;
       BLOCK_SIZE := 6; PAGE_SIZE := 4096; BLOCK_ERASES := 1000;
       PAGE_MAX_LOG := 2 |} in
  Fast.addressShift (Fast.init cfg6 (-1)) = 2
  /\ Z.shiftr 5 (Fast.addressShift (Fast.init cfg6 (-1))) = 1.
Proof.
  intros cfg6.
  destruct (init_addressShift_rounds_down cfg6 (-1) 5 ltac:(simpl; lia))
    as (H1 & _ & H3).
  split; [exact H1|exact H3].
Defined.

(** ** The FAST FTL: reads and writes *)

Section ftl_more.
Context (cfg : Config) (env : Fast.Env).
Import Fast.

Lemma omap_find_insert_ne {V} k k' (v : V) m :
  k <> k' -> OMap.find k' (OMap.insert k v m) = OMap.find k' m.
Proof.
  intros Hne. induction m as [|[k0 v0] m IH]; simpl.
  - destruct (Z.eqb_spec k k'); [done|reflexivity].
  - destruct (k <? k0) eqn:E1; simpl.
    + destruct (Z.eqb_spec k k'); [done|reflexivity].
    + destruct (Z.eqb_spec k k0) as [->|E2]; simpl.
      * destruct (Z.eqb_spec k0 k'); [done|reflexivity].
      * by rewrite IH.
Qed.

Lemma omap_erase_absent {V} k (m : list (Z * V)) :
  OMap.find k m = None -> OMap.erase k m = m.
Proof.
  induction m as [|[k0 v0] m IH]; simpl; [done|].
  destruct (k0 =? k); [discriminate|]. intros H. by rewrite IH.
Qed.

Lemma omap_erase_insert {V} k (v : V) m :
  OMap.find k m = None -> OMap.erase k (OMap.insert k v m) = m.
Proof.
  induction m as [|[k0 v0] m IH]; simpl.
  - by rewrite Z.eqb_refl.
  - destruct (Z.eqb_spec k0 k) as [->|Hne]; [discriminate|]. intros H.
    destruct (k <? k0); simpl.
    + rewrite Z.eqb_refl. destruct (Z.eqb_spec k0 k); [done|].
      by rewrite omap_erase_absent.
    + destruct (Z.eqb_spec k k0) as [->|_]; [done|]. simpl.
      destruct (Z.eqb_spec k0 k); [done|]. by rewrite IH.
Qed.

Lemma omap_find_erase_eq {V} k (m : list (Z * V)) :
  OMap.find k (OMap.erase k m) = None.
Proof.
  induction m as [|[k0 v0] m IH]; simpl; [done|].
  destruct (k0 =? k) eqn:E; [done|]. simpl. by rewrite E.
Qed.

Lemma omap_find_erase_ne {V} k k' (m : list (Z * V)) :
  k <> k' -> OMap.find k' (OMap.erase k m) = OMap.find k' m.
Proof.
  intros Hne. induction m as [|[k0 v0] m IH]; simpl; [done|].
  destruct (Z.eqb_spec k0 k) as [->|E]; simpl.
  - destruct (Z.eqb_spec k k'); [done|exact IH].
  - by rewrite IH.
Qed.

(** What [allocate_new_logblock] returns: the log block of the manager's
    answer, every page offset empty, is in the map; nothing else of the FTL
    moves. *)
Lemma allocate_new_logblock_inv L event st st1 :
  allocate_new_logblock cfg env L event st = Ok st1 ->
  let a := env_get_free_block env (calls st) LOG in
  log_map st1 =
    OMap.insert L
      (LogPageBlock.make (replicate (Z.to_nat (BLOCK_SIZE cfg)) (-1)) a)
      (log_map st)
  /\ calls st1 = calls st ++ [GetFreeBlock LOG]
  /\ data_list st1 = data_list st
  /\ addressShift st1 = addressShift st
  /\ sequential_address st1 = sequential_address st
  /\ sequential_logical_address st1 = sequential_logical_address st
  /\ sequential_offset st1 = sequential_offset st.
Proof.
  unfold allocate_new_logblock.
  destruct (OMap.size (log_map st) >=? PAGE_MAX_LOG cfg).
  - destruct (OMap.begin (log_map st)) as [[ex exb]|]; simpl;
      [|discriminate]. intros [= <-]. by repeat split.
  - simpl. intros [= <-]. by repeat split.
Qed.

(** What [write] returns. *)
Lemma write_inv st event s event' st' :
  write cfg env st event = Ok (s, event', st') ->
  let L := Z.shiftr (logical_address event) (addressShift st) in
  exists st1 lb,
    match OMap.find L (log_map st) with
    | Some _ => st1 = st
    | None => allocate_new_logblock cfg env L event st = Ok st1
    end
    /\ OMap.find L (log_map st1) = Some lb
    /\ env_get_block_state env (calls st1) (LogPageBlock.address lb) <> INACTIVE
    /\ st' = log_call (Issue event) st1
    /\ s = env_issue env (calls st1) event
    /\ event' =
         (if decide (s = FAILURE) then event
          else env_consolidate_metaevent env (calls st1 ++ [Issue event]) event).
Proof.
  intros H L. unfold write in H. fold L in H.
  destruct (OMap.find L (log_map st)) as [lb0|] eqn:Hfind.
  - cbn [mbind result_bind] in H. rewrite Hfind in H.
    cbn [mbind result_bind] in H.
    destruct (bool_decide _) eqn:Hstate; cbn [assert mbind result_bind] in H;
      [|discriminate].
    apply bool_decide_eq_true in Hstate.
    exists st, lb0. cbn [issue] in H.
    case_decide as Hs; injection H as <- <- <-.
    + rewrite decide_True by done. by repeat split.
    + rewrite decide_False by done.
      destruct (env_issue env _ event); by repeat split.
  - destruct (allocate_new_logblock cfg env L event st) as [st1| |] eqn:Ha;
      cbn [mbind result_bind] in H; try discriminate.
    destruct (OMap.find L (log_map st1)) as [lb|] eqn:Hfind1;
      cbn [mbind result_bind] in H; [|discriminate].
    destruct (bool_decide _) eqn:Hstate; cbn [assert mbind result_bind] in H;
      [|discriminate].
    apply bool_decide_eq_true in Hstate.
    exists st1, lb. cbn [issue] in H.
    case_decide as Hs; injection H as <- <- <-.
    + rewrite decide_True by done. by repeat split.
    + rewrite decide_False by done.
      destruct (env_issue env _ event); by repeat split.
Qed.

(** [read] moves nothing in the FTL: the mapping table, the log blocks and
    the sequential log block are as before, whatever it answers; and a
    read that fails sends nothing to the manager or the controller. *)
Theorem read_changes_no_mapping st event s event' st' :
  read cfg env st event = Ok (s, event', st') ->
  data_list st' = data_list st
  /\ log_map st' = log_map st
  /\ sequential_address st' = sequential_address st
  /\ sequential_logical_address st' = sequential_logical_address st
  /\ sequential_offset st' = sequential_offset st
  /\ logical_address event' = logical_address event
  /\ (calls st' = calls st
      \/ calls st' = calls st ++ [SimulateMapRead event'; Issue event']
         /\ s = env_issue env (calls st ++ [SimulateMapRead event']) event').
Proof.
  unfold read.
  destruct (at_index (data_list st) _) as [d| |]; simpl; try discriminate.
  destruct (OMap.find _ (log_map st)) as [lb|]; simpl.
  - destruct (at_index (LogPageBlock.pages lb) _) as [p| |]; simpl;
      try discriminate.
    destruct ((d =? -1) && (p =? -1)); intros [= <- <- <-]; simpl;
      repeat split; auto.
    right. by rewrite <- app_assoc.
  - rewrite andb_false_r. intros [= <- <- <-]. simpl. repeat split.
    right. by rewrite <- app_assoc.
Qed.

(** A read of a logical block beyond the mapping table is not caught: the
    table is read outside its bounds. *)
Theorem read_beyond_data_list st event :
  Z.of_nat (length (data_list st))
    <= Z.shiftr (logical_address event) (addressShift st) ->
  read cfg env st event = Undefined.
Proof.
  intros H.
  assert (at_index (data_list st)
            (Z.shiftr (logical_address event) (addressShift st)) = Undefined)
    as Hat.
  { unfold at_index. case_decide; [|reflexivity].
    rewrite lookup_ge_None_2 by lia. reflexivity. }
  unfold read. rewrite Hat. reflexivity.
Qed.

(** [write] keeps the block mapping and the sequential log block as they
    are. Afterwards the logical block of the write has a log block; the
    log blocks of the other logical blocks are the ones of before, and a
    log block that was there is kept as it is. *)
Theorem write_keeps_mapping st event s event' st' :
  write cfg env st event = Ok (s, event', st') ->
  let L := Z.shiftr (logical_address event) (addressShift st) in
  data_list st' = data_list st
  /\ sequential_address st' = sequential_address st
  /\ sequential_logical_address st' = sequential_logical_address st
  /\ sequential_offset st' = sequential_offset st
  /\ (exists lb, OMap.find L (log_map st') = Some lb)
  /\ (forall L', L' <> L ->
        OMap.find L' (log_map st') = OMap.find L' (log_map st))
  /\ (forall lb, OMap.find L (log_map st) = Some lb ->
        log_map st' = log_map st).
Proof.
  intros H L. apply write_inv in H as (st1 & lb & Hst1 & Hlb & _ & -> & _).
  fold L in Hst1, Hlb. cbn.
  destruct (OMap.find L (log_map st)) as [lb0|] eqn:Hfind.
  - subst st1. repeat split; eauto.
  - apply allocate_new_logblock_inv in Hst1
      as (Hmap & _ & Hdl & _ & Hsa & Hsl & Hso).
    repeat split; eauto.
    + intros L' Hne. rewrite Hmap. by apply omap_find_insert_ne.
    + intros lb' [=].
Qed.

(** The answer of [write] is the answer of the controller, and the event
    goes to the controller as it came: [write] gives it no address. The
    log of the calls grows by [get_free_block(LOG)] exactly when the
    logical block had no log block, and then by the [issue] of the event
    (the query [get_block_state] in between is answered without being
    logged). On FAILURE the event is returned as it came, otherwise after
    [consolidate_metaevent]. *)
Theorem write_answers_as_the_controller st event s event' st' :
  write cfg env st event = Ok (s, event', st') ->
  let L := Z.shiftr (logical_address event) (addressShift st) in
  exists h,
    calls st' = h ++ [Issue event]
    /\ s = env_issue env h event
    /\ h = calls st
           ++ match OMap.find L (log_map st) with
              | Some _ => []
              | None => [GetFreeBlock LOG]
              end
    /\ (s = FAILURE -> event' = event)
    /\ (s <> FAILURE ->
        event' = env_consolidate_metaevent env (calls st') event).
Proof.
  intros H L. apply write_inv in H as (st1 & lb & Hst1 & _ & _ & -> & -> & ->).
  fold L in Hst1.
  exists (calls st1). split; [reflexivity|]. split; [reflexivity|]. split.
  - destruct (OMap.find L (log_map st)).
    + subst. by rewrite app_nil_r.
    + by apply allocate_new_logblock_inv in Hst1 as (_ & -> & _).
  - split.
    + intros ->. by rewrite decide_True.
    + intros Hs. by rewrite decide_False.
Qed.

(** [write] stops on its assertion when the controller reports the log
    block of the logical block INACTIVE. *)
Theorem write_asserts_log_block_active st event lb :
  OMap.find (Z.shiftr (logical_address event) (addressShift st)) (log_map st)
  = Some lb ->
  env_get_block_state env (calls st) (LogPageBlock.address lb) = INACTIVE ->
  write cfg env st event = AssertFailed.
Proof.
  intros Hfind Hstate. unfold write. rewrite Hfind.
  cbn [mbind result_bind]. rewrite Hfind. cbn [mbind result_bind].
  rewrite Hstate. reflexivity.
Qed.

(** A write leaves every page offset of the log block it allocates empty.
    After the first write to a logical block, a read of any page of the
    block, the written one included, is therefore answered from the data
    block when the logical block has one, and fails otherwise. *)
Theorem read_after_first_write st event s event' st' rd d :
  0 < BLOCK_SIZE cfg ->
  let L := Z.shiftr (logical_address event) (addressShift st) in
  OMap.find L (log_map st) = None ->
  at_index (data_list st) L = Ok d ->
  write cfg env st event = Ok (s, event', st') ->
  Z.shiftr (logical_address rd) (addressShift st) = L ->
  read cfg env st' rd =
    if d =? -1 then
      Ok (FAILURE, set_address (Address.of_linear cfg 0 PAGE) rd,
          print (PageReadNotWritten (logical_address rd)) st')
    else
      let rd' :=
        set_address
          (Address.of_linear cfg
             (d + logical_address rd mod BLOCK_SIZE cfg) PAGE) rd in
      Ok (env_issue env (calls st' ++ [SimulateMapRead rd']) rd', rd',
          log_call (Issue rd') (log_call (SimulateMapRead rd') st')).
Proof.
  intros HB L Hfind Hd Hw HL.
  apply write_inv in Hw as (st1 & lb & Hst1 & Hlb & _ & -> & _).
  fold L in Hst1, Hlb. rewrite Hfind in Hst1.
  apply allocate_new_logblock_inv in Hst1
    as (Hmap & _ & Hdl & Hshift & _).
  rewrite Hmap, omap_find_insert_eq in Hlb. injection Hlb as <-.
  eapply (read_log_block_without_page cfg env).
  - cbn [log_map addressShift log_call]. rewrite Hshift, HL, Hmap.
    apply omap_find_insert_eq.
  - cbn [data_list addressShift log_call]. by rewrite Hshift, HL, Hdl.
  - cbn [LogPageBlock.pages]. apply at_index_Ok.
    pose proof (Z.mod_pos_bound (logical_address rd) (BLOCK_SIZE cfg) HB).
    split; [lia|]. apply lookup_replicate_2. lia.
Qed.

(** [dispose_logblock] undoes [allocate_new_logblock]: for a logical block
    that had no log block, the map of before is back; and after
    [dispose_logblock] the logical block has no log block, the others keep
    theirs. *)
Theorem dispose_after_allocate L event st st1 :
  OMap.find L (log_map st) = None ->
  allocate_new_logblock cfg env L event st = Ok st1 ->
  log_map (dispose_logblock L st1) = log_map st
  /\ (forall st0, OMap.find L (log_map (dispose_logblock L st0)) = None)
  /\ (forall st0 L', L <> L' ->
        OMap.find L' (log_map (dispose_logblock L st0))
        = OMap.find L' (log_map st0)).
Proof.
  intros Hfind Ha. apply allocate_new_logblock_inv in Ha as (Hmap & _).
  split; [|split].
  - cbn. rewrite Hmap. by apply omap_erase_insert.
  - intros st0. apply omap_find_erase_eq.
  - intros st0 L' Hne. by apply omap_find_erase_ne.
Qed.

End ftl_more.

(** ** The FAST FTL: switch, merge and the sequential log block *)

Section ftl_sequential_more.
Context (cfg : Config) (env : Fast.Env).
Import Fast.

(** [switch_sequential] promotes the sequential log block: it becomes the
    data block of the logical block, the old data block (if any) is handed
    to the manager for invalidation, no event is created, and the
    sequential log block is reset to a fresh block without owner. From
    then on a read of the logical block (without a log block) is sent to
    the promoted block. *)
Theorem switch_sequential_promotes st L event d :
  at_index (data_list st) L = Ok d ->
  exists st',
    switch_sequential cfg env L event st = Ok st'
    /\ data_list st' =
         <[Z.to_nat L := Address.get_linear_address (sequential_address st)]>
           (data_list st)
    /\ log_map st' = log_map st
    /\ sequential_logical_address st' = -1
    /\ sequential_offset st' = 0
    /\ calls st' =
         calls st
         ++ (if decide (d = -1) then []
             else [Invalidate (Address.of_linear cfg d BLOCK) DATA])
         ++ [GetFreeBlock DATA; SimulateMapWrite event]
    /\ forall rd,
         Z.shiftr (logical_address rd) (addressShift st) = L ->
         OMap.find L (log_map st) = None ->
         let rd' :=
           set_address
             (Address.of_linear cfg
                (Address.get_linear_address (sequential_address st)
                 + logical_address rd mod BLOCK_SIZE cfg) PAGE) rd in
         read cfg env st' rd =
           Ok (env_issue env (calls st' ++ [SimulateMapRead rd']) rd', rd',
               log_call (Issue rd') (log_call (SimulateMapRead rd') st')).
Proof.
  intros Hd. unfold switch_sequential. rewrite Hd. cbn [mbind result_bind].
  pose proof (at_index_lt _ _ _ Hd) as Hlt.
  apply at_index_Ok in Hd as [HL _].
  assert (forall st0 : State,
            data_list st0 = data_list st ->
            store_index (data_list st0) L
              (Address.get_linear_address (sequential_address st))
            = Ok (<[Z.to_nat L := Address.get_linear_address
                                    (sequential_address st)]> (data_list st)))
    as Hstore by (intros st0 ->; by apply store_index_Ok).
  destruct (Z.eqb_spec d (-1)) as [Hd1|Hd1]; cbn [negb];
    (rewrite Hstore by reflexivity); cbn [mbind result_bind];
    eexists; (split; [reflexivity|]); cbn;
    (split; [reflexivity|]); (split; [reflexivity|]);
    (split; [reflexivity|]); (split; [reflexivity|]);
    (split; [case_decide; try done; by rewrite <- ?app_assoc|]);
    intros rd HL' Hfind;
    apply (read_without_log_block cfg env); cbn; rewrite ?HL'; try done;
    apply at_index_Ok; (split; [done|]); by apply list_lookup_insert_eq.
Qed.

(** The chain that [merge_sequential] builds, when there is a sequential
    block to merge. *)
Lemma merge_sequential_chain st L event d :
  sequential_logical_address st <> -1 ->
  at_index (data_list st) L = Ok d ->
  let D' := env_get_free_block env (calls st) DATA in
  let st1 :=
    print (UsingNewDataBlock (Address.get_linear_address D') (Address.block D'))
      (log_call (GetFreeBlock DATA) st) in
  exists st',
    merge_sequential cfg env L event st =
      Ok (append_chain
            (concat (map (fun i => slot_events cfg D' (logical_address event)
                                     (merge_sequential_source cfg env st1 d i) i)
                       (seqZ 0 (BLOCK_SIZE cfg))))
            event, st').
Proof.
  intros HS Hd D' st1. unfold merge_sequential.
  destruct (Z.eqb_spec (sequential_logical_address st) (-1)); [done|].
  cbn [get_free_block]. fold D'. fold st1.
  change (data_list st1) with (data_list st). rewrite Hd.
  cbn [mbind result_bind].
  destruct (merge_loop_chain cfg
              (fun i => Ok (merge_sequential_source cfg env st1 d i))
              (merge_sequential_source cfg env st1 d) D'
              (seqZ 0 (BLOCK_SIZE cfg))
              ltac:(by apply Forall_forall) event st1) as (ms & -> & _).
  cbn [mbind result_bind].
  pose proof (at_index_lt _ _ _ Hd) as Hlt.
  apply at_index_Ok in Hd as [HL _].
  unfold merge_finish.
  destruct (d =? -1); cbn [negb];
    (rewrite store_index_Ok by done); cbn [mbind result_bind];
    eexists; reflexivity.
Qed.

(** The events of a list of slots: a READ and a WRITE for each slot that
    has a source, all with the logical address of the triggering event. *)
Lemma slot_events_cost D' la (f : Z -> option Address.t) slots :
  let added := concat (map (fun i => slot_events cfg D' la (f i) i) slots) in
  let n := length (filter (fun i => is_Some (f i)) slots) in
  length added = (2 * n)%nat
  /\ length (filter (fun nd => node_type nd = READ) added) = n
  /\ length (filter (fun nd => node_type nd = WRITE) added) = n
  /\ Forall (fun nd => node_logical_address nd = la) added.
Proof.
  induction slots as [|i slots IH]; cbn zeta in *.
  - repeat split; constructor.
  - destruct IH as (H1 & H2 & H3 & H4).
    cbn [map concat]. rewrite filter_cons.
    destruct (f i) as [r|] eqn:Hf; cbn [slot_events].
    + rewrite decide_True by eauto.
      rewrite !filter_app, !length_app, H1, H2, H3.
      split; [simpl; lia|]. split; [reflexivity|]. split; [reflexivity|].
      apply Forall_app. split; [by repeat constructor|done].
    + rewrite decide_False by (intros [? [=]]). done.
Qed.

Lemma filter_all {A} (P : A -> Prop) `{forall x, Decision (P x)} (l : list A) :
  Forall P l -> filter P l = l.
Proof.
  induction 1 as [|x l Hx _ IH]; [done|].
  rewrite filter_cons, decide_True by done. by rewrite IH.
Qed.

(** The cost of a sequential merge: the chain of the triggering event
    grows by as many READs as WRITEs, one pair per page offset that has a
    copy, hence at most [BLOCK_SIZE] of each; when the logical block has a
    data block, every page offset is copied. *)
Theorem merge_sequential_cost st L event d event' st' :
  sequential_logical_address st <> -1 ->
  at_index (data_list st) L = Ok d ->
  merge_sequential cfg env L event st = Ok (event', st') ->
  exists added n,
    chain event' = chain event ++ added
    /\ length added = (2 * n)%nat
    /\ (n <= Z.to_nat (BLOCK_SIZE cfg))%nat
    /\ (d <> -1 -> n = Z.to_nat (BLOCK_SIZE cfg))
    /\ length (filter (fun nd => node_type nd = READ) added) = n
    /\ length (filter (fun nd => node_type nd = WRITE) added) = n
    /\ Forall (fun nd => node_logical_address nd = logical_address event) added.
Proof.
  intros HS Hd H.
  destruct (merge_sequential_chain st L event d HS Hd) as (st0 & Hm).
  cbv zeta in Hm. rewrite Hm in H. injection H as <- <-.
  set (D' := env_get_free_block env (calls st) DATA).
  set (st1 := print _ (log_call _ st)).
  set (f := merge_sequential_source cfg env st1 d).
  destruct (slot_events_cost D' (logical_address event) f
              (seqZ 0 (BLOCK_SIZE cfg))) as (H1 & H2 & H3 & H4).
  cbv zeta in H1, H2, H3, H4.
  eexists _, _. split; [reflexivity|].
  split; [exact H1|].
  split.
  { etransitivity; [apply length_filter|]. rewrite length_seqZ. lia. }
  split.
  { intros Hd1.
    assert (filter (fun i => is_Some (f i)) (seqZ 0 (BLOCK_SIZE cfg))
            = seqZ 0 (BLOCK_SIZE cfg)) as ->.
    { apply filter_all, Forall_forall. intros i _.
      unfold f, merge_sequential_source.
      case_decide; [eauto|].
      destruct (Z.eqb_spec d (-1)); [done|]. cbn. eauto. }
    apply length_seqZ. }
  by repeat split.
Qed.

(** In every run the counter of the sequential log block stays within the
    block: [0 <= sequential_offset <= BLOCK_SIZE]. *)
Theorem sequential_offset_stays_in_block ops s0 st placed :
  0 < BLOCK_SIZE cfg < 2 ^ 32 ->
  run cfg env ops (init cfg s0, []) = Ok (st, placed) ->
  0 <= sequential_offset st <= BLOCK_SIZE cfg.
Proof.
  intros HB.
  assert (0 <= sequential_offset (init cfg s0) <= BLOCK_SIZE cfg) as Hinit
    by (simpl; lia).
  revert Hinit. generalize (init cfg s0). generalize (@nil (Z * Z)).
  induction ops as [|op ops IH]; intros placed0 st0 Hinv Hrun;
    cbn [run] in Hrun.
  - by injection Hrun as <- <-.
  - destruct (step cfg env op (st0, placed0)) as [[st1 placed1]| |] eqn:Hstep;
      cbn [mbind result_bind] in Hrun; try discriminate.
    apply (IH placed1 st1); [|done].
    destruct op as [event|event|event L]; cbn [step] in Hstep.
    + destruct (read cfg env st0 event) as [[[s e] st2]| |] eqn:Hr;
        cbn [mbind result_bind] in Hstep; try discriminate.
      injection Hstep as <- <-.
      apply read_sequential_fields in Hr as [_ ->]. done.
    + destruct (write cfg env st0 event) as [[[s e] st2]| |] eqn:Hw;
        cbn [mbind result_bind] in Hstep; try discriminate.
      injection Hstep as <- <-.
      apply write_sequential_fields in Hw as [_ ->]. done.
    + destruct (write_to_log_block cfg env event L st0)
        as [[[b e] st2]| |] eqn:Hw;
        cbn [mbind result_bind] in Hstep; try discriminate.
      injection Hstep as <- <-.
      apply write_to_log_block_sequential_fields in Hw
        as (HA & HB' & HC & HD).
      set (lbnOffset := u32 (logical_address event mod BLOCK_SIZE cfg)) in *.
      assert (0 <= lbnOffset < BLOCK_SIZE cfg) as Hrange.
      { unfold lbnOffset.
        pose proof (Z.mod_pos_bound (logical_address event) (BLOCK_SIZE cfg)
                      ltac:(lia)).
        rewrite u32_small; lia. }
      destruct (Z.eq_dec lbnOffset 0) as [E0|E0].
      { destruct (HA E0) as [_ ->]. lia. }
      destruct (Z.eq_dec (sequential_logical_address st0) L) as [ES|ES].
      * destruct (Z.eq_dec lbnOffset (sequential_offset st0)) as [EO|EO].
        -- destruct (HB' E0 ES EO) as (_ & -> & _).
           rewrite u32_small by lia. lia.
        -- destruct (HC E0 ES EO) as [_ ->]. lia.
      * by rewrite (HD E0 ES).
Qed.

(** A sequential log block that has received all its [BLOCK_SIZE] pages in
    order is merged, not switched: the append of the last page offset
    brings the counter to [BLOCK_SIZE], past the value
    [BLOCK_SIZE - 1] that the next write of a page offset 0 tests for. *)
Theorem full_sequential_block_is_merged st L event event2 L2 d :
  2 <= BLOCK_SIZE cfg < 2 ^ 32 ->
  sequential_logical_address st = L ->
  L <> -1 ->
  sequential_offset st = BLOCK_SIZE cfg - 1 ->
  logical_address event mod BLOCK_SIZE cfg = BLOCK_SIZE cfg - 1 ->
  logical_address event2 mod BLOCK_SIZE cfg = 0 ->
  at_index (data_list st) L2 = Ok d ->
  exists e1 st1 em stm e2 st2,
    write_to_log_block cfg env event L st = Ok (true, e1, st1)
    /\ sequential_offset st1 = BLOCK_SIZE cfg
    /\ merge_sequential cfg env L2 event2 st1 = Ok (em, stm)
    /\ last (output stm) = Some MergeSequential
    /\ write_to_log_block cfg env event2 L2 st1 = Ok (true, e2, st2)
    /\ output st2 = output stm
    /\ at_index (data_list st2) L2
       = Ok (Address.get_linear_address
               (env_get_free_block env
                  (calls st ++ [GetFreePage (sequential_address st)]) DATA)).
Proof.
  intros HB HS HL HO Hoff Hoff2 Hd.
  assert (write_to_log_block cfg env event L st =
            Ok (true,
                set_address (env_get_free_page env (calls st)
                               (sequential_address st)) event,
                set_sequential (sequential_address st) L (BLOCK_SIZE cfg)
                  (log_call (GetFreePage (sequential_address st)) st)))
    as Hw1.
  { unfold write_to_log_block. rewrite Hoff.
    rewrite (u32_small (BLOCK_SIZE cfg - 1)) by lia.
    destruct (Z.eqb_spec (BLOCK_SIZE cfg - 1) 0); [lia|].
    rewrite HS, Z.eqb_refl, HO, Z.eqb_refl. cbn.
    rewrite HS, HO.
    replace (BLOCK_SIZE cfg - 1 + 1) with (BLOCK_SIZE cfg) by lia.
    by rewrite u32_small by lia. }
  set (st1 := set_sequential _ L _ _) in Hw1.
  assert (at_index (data_list st1) L2 = Ok d) as Hd1 by exact Hd.
  destruct (write_to_log_block_offset_zero cfg env event2 L2 st1 d
              ltac:(lia) Hoff2 Hd1) as (em & stm & _ & Hm & Hw2).
  destruct Hm as (Hm & _ & Hlast); [cbn; lia|].
  cbv zeta in Hw2.
  eexists _, st1, em, stm, _, _.
  split; [exact Hw1|]. split; [reflexivity|]. split; [exact Hm|].
  split; [apply Hlast; cbn; done|]. split; [exact Hw2|].
  split; [reflexivity|]. cbn.
  (* the mapping after the merge *)
  unfold merge_sequential in Hm. cbn [sequential_logical_address st1 set_sequential] in Hm.
  destruct (Z.eqb_spec L (-1)); [done|].
  cbn [get_free_block] in Hm.
  set (D' := env_get_free_block env (calls st1) DATA) in *.
  set (st1' := print _ (log_call _ st1)) in Hm.
  change (data_list st1') with (data_list st) in Hm. rewrite Hd in Hm.
  cbn [mbind result_bind] in Hm.
  destruct (merge_loop_chain cfg
              (fun i => Ok (merge_sequential_source cfg env st1' d i))
              (merge_sequential_source cfg env st1' d) D'
              (seqZ 0 (BLOCK_SIZE cfg))
              ltac:(by apply Forall_forall) event2 st1') as (ms & Hloop & _).
  rewrite Hloop in Hm. cbn [mbind result_bind] in Hm.
  pose proof (at_index_lt _ _ _ Hd) as Hlt.
  apply at_index_Ok in Hd as [HL2 _].
  unfold merge_finish in Hm.
  destruct (d =? -1); cbn [negb] in Hm;
    (rewrite store_index_Ok in Hm by done); cbn [mbind result_bind] in Hm;
    injection Hm as <- <-; cbn;
    apply at_index_Ok; (split; [done|]); by apply list_lookup_insert_eq.
Qed.

End ftl_sequential_more.

(** ** The FAST FTL: the merge of a log block *)

Section ftl_random_merge.
Context (cfg : Config) (env : Fast.Env).
Import Fast.

Lemma merge_loop_state source newDataBlock slots : forall event st event' st',
  merge_loop cfg source newDataBlock event slots st = Ok (event', st') ->
  exists ms, st' = add_output ms st.
Proof.
  induction slots as [|i slots IH]; intros event st event' st'; simpl.
  - intros [= <- <-]. exists []. by rewrite add_output_nil.
  - destruct (source i) as [[r|]| |]; cbn [mbind result_bind];
      try discriminate; intros H; apply IH in H as [ms ->].
    + by exists ms.
    + exists (EmptyPage :: ms). unfold print. by rewrite add_output_app.
Qed.

(** [random_merge] replaces the blocks of the logical block: the manager
    hands out a new data block, which becomes the data block of the
    logical block; the log block and the old data block (if any) are given
    to the manager for invalidation, in this order; and the logical block
    is left without a log block. The other logical blocks keep their
    mapping and their log blocks, and the sequential log block is not
    touched. *)
Theorem random_merge_replaces_the_blocks logBlock L event st d b event' st' :
  at_index (data_list st) L = Ok d ->
  random_merge cfg env logBlock L event st = Ok (b, event', st') ->
  let D' := env_get_free_block env (calls st) DATA in
  b = true
  /\ data_list st' =
       <[Z.to_nat L := Address.get_linear_address D']> (data_list st)
  /\ at_index (data_list st') L = Ok (Address.get_linear_address D')
  /\ log_map st' = OMap.erase L (log_map st)
  /\ OMap.find L (log_map st') = None
  /\ calls st' =
       calls st
       ++ [GetFreeBlock DATA; Invalidate (LogPageBlock.address logBlock) LOG]
       ++ (if decide (d = -1) then []
           else [Invalidate (Address.of_linear cfg d BLOCK) DATA])
       ++ [InsertEvents event'; SimulateMapWrite event']
  /\ sequential_address st' = sequential_address st
  /\ sequential_logical_address st' = sequential_logical_address st
  /\ sequential_offset st' = sequential_offset st.
Proof.
  intros Hd H D'. unfold random_merge in H. cbn [get_free_block] in H.
  fold D' in H.
  set (st1 := print _ (log_call _ st)) in H.
  change (data_list st1) with (data_list st) in H. rewrite Hd in H.
  cbn [mbind result_bind] in H.
  destruct (merge_loop cfg _ D' event _ st1) as [[event1 st2]| |] eqn:Hloop;
    cbn [mbind result_bind] in H; try discriminate.
  apply merge_loop_state in Hloop as [ms ->].
  pose proof (at_index_lt _ _ _ Hd) as Hlt.
  apply at_index_Ok in Hd as [HL Hd].
  unfold merge_finish in H.
  assert (forall st0 : State,
            data_list st0 = data_list st ->
            store_index (data_list st0) L (Address.get_linear_address D')
            = Ok (<[Z.to_nat L := Address.get_linear_address D']>
                    (data_list st)))
    as Hstore by (intros st0 ->; by apply store_index_Ok).
  destruct (Z.eqb_spec d (-1)) as [Hd1|Hd1]; cbn [negb] in H;
    (rewrite Hstore in H by reflexivity); cbn [mbind result_bind] in H;
    injection H as <- <- <-; cbn;
    (split; [reflexivity|]); (split; [reflexivity|]);
    (split; [apply at_index_Ok; split; [done|];
             by apply list_lookup_insert_eq|]);
    (split; [reflexivity|]); (split; [apply omap_find_erase_eq|]);
    (split; [case_decide; try done; by rewrite <- ?app_assoc|]);
    by repeat split.
Qed.

End ftl_random_merge.

(** ** The block manager: what every operation keeps *)

Lemma same_shape3_refl {A} (v : list (list (list A))) : same_shape3 v v.
Proof.
  unfold same_shape3. apply Forall_Forall2_diag, Forall_forall. intros x _.
  apply Forall_Forall2_diag, Forall_forall. done.
Qed.

Lemma same_shape3_trans {A} (u v w : list (list (list A))) :
  same_shape3 u v -> same_shape3 v w -> same_shape3 u w.
Proof.
  unfold same_shape3. intros H1 H2.
  eapply Forall2_trans; [|exact H1|exact H2].
  intros x y z Hxy Hyz. eapply Forall2_trans; [|exact Hxy|exact Hyz].
  intros a b c. cbv beta. congruence.
Qed.

Lemma update_index3_shape {A} (v v' : list (list (list A))) i j k f :
  update_index3 v i j k f = Ok v' -> same_shape3 v v'.
Proof.
  unfold update_index3.
  destruct (at_index v i) as [x| |] eqn:Hx; cbn [mbind result_bind];
    try discriminate.
  destruct (at_index x j) as [y| |] eqn:Hy; cbn [mbind result_bind];
    try discriminate.
  destruct (at_index y k) as [z| |] eqn:Hz; cbn [mbind result_bind];
    try discriminate.
  destruct (store_index y k (f z)) as [y'| |] eqn:Hy';
    cbn [mbind result_bind]; try discriminate.
  destruct (store_index x j y') as [x'| |] eqn:Hx';
    cbn [mbind result_bind]; try discriminate.
  intros Hv'.
  apply store_index_inv in Hy' as (_ & _ & ->).
  apply store_index_inv in Hx' as (_ & _ & ->).
  apply store_index_inv in Hv' as (_ & _ & ->).
  apply at_index_Ok in Hx as [_ Hx]. apply at_index_Ok in Hy as [_ Hy].
  unfold same_shape3.
  rewrite <- (list_insert_id v (Z.to_nat i) x Hx) at 1.
  apply Forall2_insert.
  - apply (same_shape3_refl v).
  - rewrite <- (list_insert_id x (Z.to_nat j) y Hy) at 1.
    apply Forall2_insert.
    + apply Forall_Forall2_diag, Forall_forall. done.
    + by rewrite length_insert.
Qed.

Lemma effect_refl st : effect 0 st st.
Proof.
  unfold effect, frame. split; [|lia]. split; [done|]. split; [by left|].
  repeat split; try done; apply same_shape3_refl.
Qed.

Lemma effect_trans d1 d2 st1 st2 st3 :
  effect d1 st1 st2 -> effect d2 st2 st3 -> effect (d1 + d2) st1 st3.
Proof.
  unfold effect, frame.
  intros [(A1 & A0 & A2 & A3 & A4 & A5 & A6 & A7 & A8) A9]
         [(B1 & B0 & B2 & B3 & B4 & B5 & B6 & B7 & B8) B9].
  split; [|lia]. split; [lia|]. split.
  { destruct B0 as [B0|B0]; [|by right].
    rewrite B0. destruct A0 as [A0|A0]; [left; congruence|by right]. }
  repeat split; try congruence.
  - by eapply same_shape3_trans.
  - by eapply same_shape3_trans.
Qed.

Lemma effect_trans0 st1 st2 st3 :
  effect 0 st1 st2 -> effect 0 st2 st3 -> effect 0 st1 st3.
Proof. apply (effect_trans 0 0). Qed.

Section bm_frame.
Context (cfg : Config) (ssd : list BM.Block)
  (get_logical_address : Address.t -> Z).
Import BM.

Ltac simple_effect :=
  unfold effect, frame; cbn;
  (split; [|lia]); (split; [lia|]);
  (split; [first [by left | right; apply Z.mod_pos_bound; lia]|]);
  repeat split; try done; try apply same_shape3_refl.

Lemma effect_set_num_available x st : effect 0 st (set_num_available x st).
Proof. simple_effect. Qed.

Lemma effect_set_blocks_with_min_age x st :
  effect 0 st (set_blocks_with_min_age x st).
Proof. simple_effect. Qed.

Lemma effect_schedule es st : effect 0 st (schedule es st).
Proof. simple_effect. Qed.

Lemma effect_set_gc_candidates gc st :
  same_shape3 (gc_candidates st) gc -> effect 0 st (set_gc_candidates gc st).
Proof. intros H. simple_effect. Qed.

Lemma effect_set_free_blocks fb st :
  same_shape3 (free_blocks st) fb -> effect 0 st (set_free_blocks fb st).
Proof. intros H. simple_effect. Qed.

Lemma effect_sort_into_age_class a st klass st' :
  sort_into_age_class cfg ssd a st = Ok (klass, st') -> effect 0 st st'.
Proof.
  intros H.
  apply sort_into_age_class_state in H as (p & b & _ & _ & -> & _).
  cbv zeta. destruct (Z.gtb_spec (u32 (BLOCK_ERASES cfg - erases_remaining b))
                        (max_age st)).
  - simple_effect.
  - apply effect_refl.
Qed.

Lemma effect_fold_schedule ess st :
  effect 0 st (fold_left (fun s es => schedule es s) ess st).
Proof.
  revert st. induction ess as [|es ess IH]; intros st; simpl.
  - apply effect_refl.
  - eapply effect_trans0; [apply effect_schedule|apply IH].
Qed.

Lemma effect_migrate b st st' :
  migrate cfg ssd get_logical_address b st = Ok st' -> effect 0 st st'.
Proof.
  intros H. apply migrate_result in H as (block & _ & _ & _ & _ & ->).
  eapply effect_trans0; [apply effect_set_num_available|].
  apply effect_fold_schedule.
Qed.

Lemma effect_choose_gc_victim candidates st st' :
  choose_gc_victim cfg ssd get_logical_address candidates st = Ok st' ->
  effect 0 st st'.
Proof.
  intros H. apply choose_gc_victim_result in H as (m & best & _ & H).
  destruct best as [v|]; [|subst; apply effect_refl].
  destruct H as (block & klass & st1 & s & gc & _ & Hsort & _ & _ & Hup & Hmig).
  pose proof (effect_sort_into_age_class _ _ _ _ Hsort) as E1.
  destruct (sort_into_age_class_keeps _ _ _ _ _ _ Hsort) as (Hgc & _).
  eapply effect_trans0; [exact E1|].
  eapply effect_trans0; [|exact (effect_migrate _ _ _ Hmig)].
  apply effect_set_gc_candidates. rewrite Hgc.
  by eapply update_index3_shape.
Qed.

Lemma effect_perform_gc_in scope st st' :
  perform_gc_in cfg ssd get_logical_address scope st = Ok st' ->
  effect 0 st st'.
Proof.
  intros H.
  destruct scope; cbn [perform_gc_in] in H;
    unfold perform_gc, perform_gc_die, perform_gc_class,
      perform_gc_die_class in H;
    match type of H with
    | (?c ≫= _) = _ =>
        destruct c as [sets| |]; cbn [mbind result_bind] in H;
          try discriminate; by eapply effect_choose_gc_victim
    end.
Qed.

Lemma effect_perform_gc_die_class p d k st st' :
  perform_gc_die_class cfg ssd get_logical_address p d k st = Ok st' ->
  effect 0 st st'.
Proof. apply (effect_perform_gc_in (OneDieClass p d k)). Qed.

Lemma effect_perform_gc st st' :
  perform_gc cfg ssd get_logical_address st = Ok st' -> effect 0 st st'.
Proof. apply (effect_perform_gc_in WholeDevice). Qed.

Lemma effect_register_erase_outcome event s st st' :
  register_erase_outcome cfg ssd event s st = Ok st' ->
  effect (BLOCK_SIZE cfg) st st'.
Proof.
  unfold register_erase_outcome.
  destruct (sort_into_age_class cfg ssd _ st) as [[klass st1]| |] eqn:Hs;
    cbn [mbind result_bind]; try discriminate.
  destruct (update_index3 (free_blocks st1) _ _ klass _) as [fb| |] eqn:Hup;
    cbn [mbind result_bind]; try discriminate.
  intros [= <-].
  apply effect_sort_into_age_class in Hs.
  apply update_index3_shape in Hup.
  change (BLOCK_SIZE cfg) with (0 + BLOCK_SIZE cfg).
  eapply effect_trans; [exact Hs|].
  simple_effect.
Qed.

Lemma effect_register_write_outcome event s st st' :
  register_write_outcome cfg ssd get_logical_address event s st = Ok st' ->
  effect (-1) st st'.
Proof.
  unfold register_write_outcome.
  destruct (assert (num_free_pages st >? 0)); cbn [mbind result_bind];
    try discriminate.
  set (st0 := set_num_free_pages _ st).
  assert (effect (-1) st st0) as E0 by (unfold st0; simple_effect).
  destruct (if negb (garbage_collection_op event) then _ else Ok st0)
    as [st1| |] eqn:H1; cbn [mbind result_bind]; try discriminate.
  assert (effect 0 st0 st1) as E1.
  { destruct (negb (garbage_collection_op event)).
    - destruct (assert _); cbn [mbind result_bind] in H1; try discriminate.
      injection H1 as <-. apply effect_set_num_available.
    - injection H1 as <-. apply effect_refl. }
  destruct (if num_free_pages st1 <=? BLOCK_SIZE cfg then _ else Ok st1)
    as [st2| |] eqn:H2; cbn [mbind result_bind]; try discriminate.
  assert (effect 0 st1 st2) as E2.
  { destruct (num_free_pages st1 <=? BLOCK_SIZE cfg).
    - by apply effect_perform_gc.
    - injection H2 as <-. apply effect_refl. }
  destruct (block_pointer cfg (replace_address event)) as [p| |];
    cbn [mbind result_bind]; try discriminate.
  destruct (deref ssd p) as [block| |]; cbn [mbind result_bind];
    try discriminate.
  destruct (sort_into_age_class cfg ssd (replace_address event) st2)
    as [[klass st3]| |] eqn:Hs; cbn [mbind result_bind]; try discriminate.
  pose proof (effect_sort_into_age_class _ _ _ _ Hs) as E3.
  match goal with
  | |- (?c ≫= _) = _ -> _ =>
      destruct c as [st4| |] eqn:H4; cbn [mbind result_bind];
        try discriminate
  end.
  assert (effect 0 st3 st4) as E4.
  { destruct (bool_decide (state block = ACTIVE));
      [|injection H4 as <-; apply effect_refl].
    match type of H4 with
    | (?c ≫= _) = _ =>
        destruct c as [small| |]; cbn [mbind result_bind] in H4;
          try discriminate
    end.
    destruct small; [|injection H4 as <-; apply effect_refl].
    destruct (update_index3 (gc_candidates st3) _ _ klass _) as [gc| |]
      eqn:Hup; cbn [mbind result_bind] in H4; try discriminate.
    injection H4 as <-. apply effect_set_gc_candidates.
    by eapply update_index3_shape. }
  assert (effect (-1) st st4) as E.
  { replace (-1) with (-1 + 0 + 0 + 0 + 0) by lia.
    repeat (eapply effect_trans; [|eassumption]). exact E0. }
  destruct (pages_invalid block =? BLOCK_SIZE cfg).
  - destruct (update_index3 (gc_candidates st4) _ _ klass _) as [gc| |]
      eqn:Hup; cbn [mbind result_bind]; try discriminate.
    intros [= <-].
    replace (-1) with (-1 + 0 + 0) by lia.
    eapply effect_trans; [eapply effect_trans; [exact E|]|apply effect_schedule].
    apply effect_set_gc_candidates. by eapply update_index3_shape.
  - by intros [= <-].
Qed.

Lemma effect_update_blocks_with_min_age_from blocks a st st' :
  update_blocks_with_min_age_from cfg ssd blocks a st = Ok st' ->
  effect 0 st st'.
Proof.
  revert st. induction blocks as [|b blocks IH]; intros st; simpl.
  - intros [= <-]. apply effect_refl.
  - destruct (deref ssd b) as [block| |]; cbn [mbind result_bind];
      try discriminate.
    intros H. apply IH in H.
    eapply effect_trans0; [|exact H].
    destruct (_ =? a); [apply effect_set_blocks_with_min_age|apply effect_refl].
Qed.

Lemma effect_update_blocks_with_min_age a st st' :
  update_blocks_with_min_age cfg ssd a st = Ok st' -> effect 0 st st'.
Proof. apply effect_update_blocks_with_min_age_from. Qed.

Lemma effect_wear_level_queue queue st st' :
  wear_level_queue cfg ssd get_logical_address queue st = Ok st' ->
  effect 0 st st'.
Proof.
  revert st. induction queue as [|target rest IH]; intros st; simpl.
  - intros [= <-]. apply effect_refl.
  - destruct (deref ssd target) as [block| |]; cbn [mbind result_bind];
      try discriminate.
    destruct (_ >? _); [|intros [= <-]; apply effect_refl].
    destruct (migrate cfg ssd get_logical_address target _) as [st1| |]
      eqn:Hm; cbn [mbind result_bind]; try discriminate.
    intros H. apply IH in H. apply effect_migrate in Hm.
    eapply effect_trans0; [apply effect_set_num_available|].
    eapply effect_trans0; [exact Hm|exact H].
Qed.

(** [Wear_Level] keeps the frame but for [max_age], which it sets to the
    age of the block of the event when that is larger. *)
Lemma effect_Wear_Level event st st' :
  Wear_Level cfg ssd get_logical_address event st = Ok st' -> effect 0 st st'.
Proof.
  unfold Wear_Level. cbv zeta.
  destruct (block_pointer cfg (address event)) as [b| |];
    cbn [mbind result_bind]; try discriminate.
  destruct (deref ssd b) as [block| |]; cbn [mbind result_bind];
    try discriminate.
  match goal with
  | |- (?c ≫= _) = _ -> _ =>
      destruct c as [first| |]; cbn [mbind result_bind]; try discriminate
  end.
  match goal with
  | |- (?c ≫= _) = _ -> _ =>
      destruct c as [[queue st1]| |] eqn:H1; cbn [mbind result_bind];
        try discriminate
  end.
  intros H. apply effect_wear_level_queue in H.
  eapply effect_trans0; [|exact H]. clear H.
  destruct (Z.gtb_spec (u32 (BLOCK_ERASES cfg - erases_remaining block))
              (max_age st)) as [Hgt|Hle].
  - assert (effect 0 st
              (set_max_age (u32 (BLOCK_ERASES cfg - erases_remaining block))
                 st)) as E0 by simple_effect.
    destruct (_ >? 500).
    + match type of H1 with
      | (?c ≫= _) = _ =>
          destruct c as [st2| |] eqn:H2; cbn [mbind result_bind] in H1;
            try discriminate
      end.
      injection H1 as _ <-. apply effect_update_blocks_with_min_age in H2.
      eapply effect_trans0; [exact E0|exact H2].
    + injection H1 as _ <-. exact E0.
  - destruct (_ && _).
    + injection H1 as _ <-. apply effect_set_blocks_with_min_age.
    + destruct (_ && _).
      * match type of H1 with
        | (?c ≫= _) = _ =>
            destruct c as [st2| |] eqn:H2; cbn [mbind result_bind] in H1;
              try discriminate
        end.
        injection H1 as _ <-. apply effect_update_blocks_with_min_age in H2.
        eapply effect_trans0; [apply effect_set_blocks_with_min_age|exact H2].
      * injection H1 as _ <-. apply effect_refl.
Qed.

Lemma effect_check_dies dies st st' :
  check_dies cfg ssd get_logical_address dies st = Ok st' -> effect 0 st st'.
Proof.
  revert st. induction dies as [|[i j] dies IH]; intros st; simpl.
  - intros [= <-]. apply effect_refl.
  - destruct (at_index (free_block_pointers st) i) as [x| |];
      cbn [mbind result_bind]; try discriminate.
    destruct (at_index x j) as [pointer| |]; cbn [mbind result_bind];
      try discriminate.
    match goal with
    | |- (?c ≫= _) = _ -> _ =>
        destruct c as [st1| |] eqn:H1; cbn [mbind result_bind];
          try discriminate
    end.
    intros H. apply IH in H. eapply effect_trans0; [|exact H].
    destruct (_ >=? _).
    + by eapply effect_perform_gc_die_class.
    + injection H1 as <-. apply effect_refl.
Qed.

Lemma effect_check_if_should_trigger_more_GC st st' :
  check_if_should_trigger_more_GC cfg ssd get_logical_address st = Ok st' ->
  effect 0 st st'.
Proof.
  unfold check_if_should_trigger_more_GC.
  match goal with
  | |- (?c ≫= _) = _ -> _ =>
      destruct c as [st1| |] eqn:H1; cbn [mbind result_bind];
        try discriminate
  end.
  intros H. apply effect_check_dies in H. eapply effect_trans0; [|exact H].
  destruct (_ <=? _).
  - by apply effect_perform_gc.
  - injection H1 as <-. apply effect_refl.
Qed.

Lemma effect_find_free_unused_block_die_class p d k st a st' :
  find_free_unused_block_die_class cfg ssd get_logical_address p d k st
    = Ok (a, st') ->
  effect 0 st st'.
Proof.
  unfold find_free_unused_block_die_class.
  destruct (assert _); cbn [mbind result_bind]; try discriminate.
  destruct (at_index3 (free_blocks st) p d k) as [v| |];
    cbn [mbind result_bind]; try discriminate.
  match goal with
  | |- (?c ≫= _) = _ -> _ =>
      destruct c as [[r st1]| |] eqn:H1; cbn [mbind result_bind];
        try discriminate
  end.
  assert (effect 0 st st1) as E1.
  { destruct (last v).
    - destruct (update_index3 (free_blocks st) p d k _) as [fb| |] eqn:Hup;
        cbn [mbind result_bind] in H1; try discriminate.
      injection H1 as _ <-. apply effect_set_free_blocks.
      by eapply update_index3_shape.
    - injection H1 as _ <-. apply effect_refl. }
  destruct (at_index3 (free_blocks st1) p d k) as [v1| |];
    cbn [mbind result_bind]; try discriminate.
  match goal with
  | |- (?c ≫= _) = _ -> _ =>
      destruct c as [st2| |] eqn:H2; cbn [mbind result_bind];
        try discriminate
  end.
  intros [= _ <-]. eapply effect_trans0; [exact E1|].
  destruct (_ && _).
  - by eapply effect_perform_gc_die_class.
  - injection H2 as <-. apply effect_refl.
Qed.

Lemma effect_first_found find indices st a st' :
  (forall i s b s', find i s = Ok (b, s') -> effect 0 s s') ->
  first_found cfg find indices st = Ok (a, st') -> effect 0 st st'.
Proof.
  intros Hfind. revert st.
  induction indices as [|i indices IH]; intros st; simpl.
  - intros [= _ <-]. apply effect_refl.
  - destruct (find i st) as [[b s1]| |] eqn:H1; cbn [mbind result_bind];
      try discriminate.
    apply Hfind in H1. case_bool_decide.
    + by intros [= _ <-].
    + intros Hr. apply IH in Hr. by eapply effect_trans0.
Qed.

Lemma effect_find_free_unused_block_die p d st a st' :
  find_free_unused_block_die cfg ssd get_logical_address p d st = Ok (a, st') ->
  effect 0 st st'.
Proof.
  unfold find_free_unused_block_die.
  destruct (at_index (free_blocks st) p) as [x| |]; cbn [mbind result_bind];
    try discriminate.
  destruct (at_index x d) as [classes| |]; cbn [mbind result_bind];
    try discriminate.
  apply effect_first_found. intros i s b s'.
  apply effect_find_free_unused_block_die_class.
Qed.

Lemma effect_find_free_unused_block_package p st a st' :
  find_free_unused_block_package cfg ssd get_logical_address p st
    = Ok (a, st') ->
  effect 0 st st'.
Proof.
  apply effect_first_found. intros i s b s'.
  apply effect_find_free_unused_block_die.
Qed.

Lemma effect_find_free_unused_block st a st' :
  find_free_unused_block cfg ssd get_logical_address st = Ok (a, st') ->
  effect 0 st st'.
Proof.
  apply effect_first_found. intros i s b s'.
  apply effect_find_free_unused_block_package.
Qed.

Lemma effect_with_class_dies k dies st a st' :
  with_class_dies cfg ssd get_logical_address k dies st = Ok (a, st') ->
  effect 0 st st'.
Proof.
  induction dies as [|[i j] dies IH]; simpl.
  - intros [= _ <-]. apply effect_refl.
  - destruct (at_index3 (free_blocks st) i j k) as [v| |];
      cbn [mbind result_bind]; try discriminate.
    destruct (last v) as [b|]; try discriminate.
    case_bool_decide; [|exact IH].
    match goal with
    | |- (?c ≫= _) = _ -> _ =>
        destruct c as [st1| |] eqn:H1; cbn [mbind result_bind];
          try discriminate
    end.
    intros [= _ <-]. destruct (_ && _).
    + by eapply effect_perform_gc_die_class.
    + injection H1 as <-. apply effect_refl.
Qed.

Lemma effect_find_free_unused_block_with_class k st a st' :
  find_free_unused_block_with_class cfg ssd get_logical_address k st
    = Ok (a, st') ->
  effect 0 st st'.
Proof.
  unfold find_free_unused_block_with_class.
  destruct (assert _); cbn [mbind result_bind]; try discriminate.
  apply effect_with_class_dies.
Qed.

Lemma effect_bm_step op st st' :
  bm_step cfg ssd get_logical_address op st = Ok st' ->
  effect (free_pages_delta cfg op) st st'.
Proof.
  destruct op; cbn [bm_step free_pages_delta]; intros H.
  - by eapply effect_register_write_outcome.
  - by eapply effect_register_erase_outcome.
  - unfold register_read_outcome in H.
    destruct (assert _); cbn [mbind result_bind] in H; try discriminate.
    injection H as <-. apply effect_refl.
  - by eapply effect_Wear_Level.
  - by eapply effect_perform_gc_in.
  - by eapply effect_check_if_should_trigger_more_GC.
  - destruct (find_free_unused_block _ _ _ _) as [[a s]| |] eqn:E;
      cbn [mbind result_bind] in H; try discriminate.
    injection H as <-. by eapply effect_find_free_unused_block.
  - destruct (find_free_unused_block_package _ _ _ _ _) as [[a s]| |] eqn:E;
      cbn [mbind result_bind] in H; try discriminate.
    injection H as <-. by eapply effect_find_free_unused_block_package.
  - destruct (find_free_unused_block_die _ _ _ _ _ _) as [[a s]| |] eqn:E;
      cbn [mbind result_bind] in H; try discriminate.
    injection H as <-. by eapply effect_find_free_unused_block_die.
  - destruct (find_free_unused_block_die_class _ _ _ _ _ _ _)
      as [[a s]| |] eqn:E; cbn [mbind result_bind] in H; try discriminate.
    injection H as <-. by eapply effect_find_free_unused_block_die_class.
  - destruct (find_free_unused_block_with_class _ _ _ _ _) as [[a s]| |]
      eqn:E; cbn [mbind result_bind] in H; try discriminate.
    injection H as <-. by eapply effect_find_free_unused_block_with_class.
Qed.

End bm_frame.

(** ** The block manager: runs of calls *)

Section bm_runs.
Context (cfg : Config).
Import BM.

Lemma effect_bm_run calls st st' :
  bm_run cfg calls st = Ok st' ->
  effect (BLOCK_SIZE cfg * count_calls is_erase_outcome calls
          - count_calls is_write_outcome calls) st st'.
Proof.
  revert st. induction calls as [|[ssd gla op] calls IH]; intros st;
    cbn [bm_run].
  - intros [= <-]. unfold count_calls. cbn [List.filter length].
    replace (BLOCK_SIZE cfg * Z.of_nat 0 - Z.of_nat 0) with 0 by lia.
    apply effect_refl.
  - cbn [call_device call_get_logical_address call_operation].
    destruct (bm_step cfg ssd gla op st) as [st1| |] eqn:Hstep;
      cbn [mbind result_bind]; try discriminate.
    intros H. apply IH in H. apply effect_bm_step in Hstep.
    pose proof (effect_trans _ _ _ _ _ Hstep H) as E.
    replace (BLOCK_SIZE cfg * count_calls is_erase_outcome (BmCall ssd gla op :: calls)
             - count_calls is_write_outcome (BmCall ssd gla op :: calls))
      with (free_pages_delta cfg op
            + (BLOCK_SIZE cfg * count_calls is_erase_outcome calls
               - count_calls is_write_outcome calls)); [exact E|].
    unfold count_calls. cbn [List.filter call_operation].
    destruct op; cbn [is_erase_outcome is_write_outcome free_pages_delta length];
      lia.
Qed.

(** In every run of calls of the block manager, whatever the device does in
    between, the member [min_age], the number of age classes, the list of
    all blocks, the append pointers of the dies and the greedy mode stay as
    they were, the two vectors indexed by package, die and age class keep
    their dimensions, and [max_age] never decreases. *)
Theorem run_keeps_frame calls st st' :
  bm_run cfg calls st = Ok st' -> frame st st'.
Proof. intros H. by apply effect_bm_run in H as [H _]. Qed.

(** The count of free pages after a run is the count of before, less one
    for every completion of a write and plus [BLOCK_SIZE] for every
    completion of an erase: no other call, and no garbage collection that
    a call triggers, moves it. *)
Theorem num_free_pages_counts_writes_and_erases calls st st' :
  bm_run cfg calls st = Ok st' ->
  num_free_pages st' =
    num_free_pages st
    - count_calls is_write_outcome calls
    + BLOCK_SIZE cfg * count_calls is_erase_outcome calls.
Proof. intros H. apply effect_bm_run in H as [_ H]. lia. Qed.

End bm_runs.

(** ** The block manager: construction *)

Lemma gather_Forall2 {A B} (f : A -> result B) l ys :
  gather f l = Ok ys -> Forall2 (fun x y => f x = Ok y) l ys.
Proof.
  revert ys. induction l as [|x l IH]; intros ys; simpl.
  - intros [= <-]. constructor.
  - destruct (f x) as [y| |] eqn:Hx; cbn [mbind result_bind];
      try discriminate.
    destruct (gather f l) as [ys'| |]; cbn [mbind result_bind];
      try discriminate.
    intros [= <-]. constructor; [done|]. by apply IH.
Qed.

Lemma gather_all_Ok {A B} (f : A -> result B) l :
  Forall (fun x => exists y, f x = Ok y) l -> exists ys, gather f l = Ok ys.
Proof.
  induction 1 as [|x l [y Hy] _ [ys IH]]; simpl; [by eexists|].
  rewrite Hy, IH. by eexists.
Qed.

Lemma has_shape3_same {A} cfg n (v v' : list (list (list A))) :
  has_shape3 cfg n v -> same_shape3 v v' -> has_shape3 cfg n v'.
Proof.
  unfold has_shape3, same_shape3. intros [Hlen Hall] Hsame. split.
  - by rewrite <- (Forall2_length _ _ _ Hsame).
  - clear Hlen. induction Hsame as [|x x' v v' Hx _ IH]; [constructor|].
    apply Forall_cons in Hall as [[Hlx Hax] Hall].
    constructor; [|by apply IH]. split.
    + by rewrite <- (Forall2_length _ _ _ Hx).
    + clear Hlx. induction Hx as [|y y' x x' Hy _ IHx]; [constructor|].
      apply Forall_cons in Hax as [Hly Hax].
      constructor; [congruence|by apply IHx].
Qed.

Lemma has_shape3_at {A} cfg n (v : list (list (list A))) i j k :
  has_shape3 cfg n v ->
  0 <= i < SSD_SIZE cfg -> 0 <= j < PACKAGE_SIZE cfg -> 0 <= k < n ->
  exists z, at_index3 v i j k = Ok z.
Proof.
  intros [Hlen Hall] Hi Hj Hk. unfold at_index3.
  destruct (lookup_lt_is_Some_2 v (Z.to_nat i) ltac:(lia)) as [x Hx].
  rewrite (proj2 (at_index_Ok v i x) (conj (proj1 Hi) Hx)).
  cbn [mbind result_bind].
  rewrite Forall_lookup in Hall. destruct (Hall _ _ Hx) as [Hlx Hax].
  destruct (lookup_lt_is_Some_2 x (Z.to_nat j) ltac:(lia)) as [y Hy].
  rewrite (proj2 (at_index_Ok x j y) (conj (proj1 Hj) Hy)).
  cbn [mbind result_bind].
  rewrite Forall_lookup in Hax. pose proof (Hax _ _ Hy) as Hly.
  destruct (lookup_lt_is_Some_2 y (Z.to_nat k) ltac:(lia)) as [z Hz].
  exists z. apply at_index_Ok. split; [lia|done].
Qed.

Section bm_construction.
Context (cfg : Config).
Import BM.

Lemma init_result ssd n st :
  init cfg ssd n = Ok st ->
  0 <= n
  /\ has_shape3 cfg n (gc_candidates st)
  /\ has_shape3 cfg n (free_blocks st)
  /\ num_age_classes st = n
  /\ min_age st = 0
  /\ max_age st = 1
  /\ greedy_gc st = true
  /\ num_free_pages st =
       SSD_SIZE cfg * PACKAGE_SIZE cfg * DIE_SIZE cfg * PLANE_SIZE cfg
       * BLOCK_SIZE cfg
  /\ num_available_pages_for_new_writes st = num_free_pages st
  /\ scheduled st = []
  /\ (forall i j k s, at_index3 (gc_candidates st) i j k = Ok s -> s = []).
Proof.
  unfold init. destruct (Z.ltb_spec n 0) as [|Hn]; [discriminate|].
  match goal with
  | |- (?c ≫= _) = _ -> _ =>
      destruct c as [dies| |] eqn:Hdies; cbn [mbind result_bind];
        try discriminate
  end.
  intros [= <-]. cbn.
  split; [done|]. split; [|split].
  - unfold has_shape3. rewrite length_replicate. split; [done|].
    apply Forall_replicate. rewrite length_replicate. split; [done|].
    apply Forall_replicate. by rewrite length_replicate.
  - apply gather_Forall2 in Hdies. unfold has_shape3.
    rewrite length_map, <- (Forall2_length _ _ _ Hdies), length_seqZ.
    split; [done|].
    apply Forall_map. eapply Forall2_Forall_r; [exact Hdies|].
    apply Forall_forall. intros i _ row Hrow. cbn beta.
    apply gather_Forall2 in Hrow.
    rewrite length_map, <- (Forall2_length _ _ _ Hrow), length_seqZ.
    split; [done|].
    apply Forall_map. eapply Forall2_Forall_r; [exact Hrow|].
    apply Forall_forall. intros j _ [[ps pointer] rest] Hdie. cbn beta in *.
    destruct (die_blocks cfg ssd i j) as [blocks| |];
      cbn [mbind result_bind] in Hdie; try discriminate.
    destruct (Z.eqb_spec n 0); [discriminate|].
    cbn. rewrite length_replicate. lia.
  - repeat split; try done.
    intros i j k s. unfold at_index3.
    destruct (at_index _ i) as [x| |] eqn:Hx; cbn [mbind result_bind];
      try discriminate.
    apply at_index_Ok in Hx as [_ Hx].
    apply lookup_replicate in Hx as [-> _].
    destruct (at_index _ j) as [y| |] eqn:Hy; cbn [mbind result_bind];
      try discriminate.
    apply at_index_Ok in Hy as [_ Hy].
    apply lookup_replicate in Hy as [-> _].
    intros Hs. apply at_index_Ok in Hs as [_ Hs].
    by apply lookup_replicate in Hs as [-> _].
Qed.

(** After the constructor and any run of calls, the vectors
    [gc_candidates] and [free_blocks] have the dimensions of the device and
    as many age classes as the constructor was given, so that every access
    [gc_candidates[i][j][k]] and [free_blocks[i][j][k]] with indices in
    range is inside the vectors; the member [min_age] is still 0 and
    [max_age] is at least 1. *)
Theorem constructed_vectors_keep_their_shape ssd n calls st0 st i j k :
  init cfg ssd n = Ok st0 ->
  bm_run cfg calls st0 = Ok st ->
  0 <= i < SSD_SIZE cfg -> 0 <= j < PACKAGE_SIZE cfg -> 0 <= k < n ->
  num_age_classes st = n
  /\ min_age st = 0
  /\ 1 <= max_age st
  /\ has_shape3 cfg n (gc_candidates st)
  /\ has_shape3 cfg n (free_blocks st)
  /\ (exists s, at_index3 (gc_candidates st) i j k = Ok s)
  /\ (exists v, at_index3 (free_blocks st) i j k = Ok v).
Proof.
  intros Hinit Hrun Hi Hj Hk.
  apply init_result in Hinit
    as (_ & Hgc & Hfb & Hn & Hmin & Hmax & _).
  apply effect_bm_run in Hrun
    as [(F1 & _ & F2 & F3 & _ & _ & _ & F7 & F8) _].
  pose proof (has_shape3_same _ _ _ _ Hgc F7) as Hgc'.
  pose proof (has_shape3_same _ _ _ _ Hfb F8) as Hfb'.
  split; [congruence|]. split; [congruence|]. split; [lia|].
  split; [done|]. split; [done|].
  split; by eapply has_shape3_at.
Qed.


End bm_construction.

(** ** The block manager: free blocks *)

Lemma update_index3_undo {A} (v v1 : list (list (list A))) i j k f g :
  (forall z, g (f z) = z) ->
  update_index3 v i j k f = Ok v1 -> update_index3 v1 i j k g = Ok v.
Proof.
  intros Hgf. unfold update_index3.
  destruct (at_index v i) as [x| |] eqn:Hx; cbn [mbind result_bind];
    try discriminate.
  destruct (at_index x j) as [y| |] eqn:Hy; cbn [mbind result_bind];
    try discriminate.
  destruct (at_index y k) as [z| |] eqn:Hz; cbn [mbind result_bind];
    try discriminate.
  pose proof (at_index_lt _ _ _ Hx) as Hix.
  pose proof (at_index_lt _ _ _ Hy) as Hjy.
  pose proof (at_index_lt _ _ _ Hz) as Hkz.
  apply at_index_Ok in Hx as [Hi Hx]. apply at_index_Ok in Hy as [Hj Hy].
  apply at_index_Ok in Hz as [Hk Hz].
  rewrite (store_index_Ok y k) by done. cbn [mbind result_bind].
  rewrite (store_index_Ok x j) by done. cbn [mbind result_bind].
  rewrite (store_index_Ok v i) by done. intros [= <-].
  set (y1 := <[Z.to_nat k := f z]> y). set (x1 := <[Z.to_nat j := y1]> x).
  assert (at_index (<[Z.to_nat i := x1]> v) i = Ok x1) as ->
    by (apply at_index_Ok; split; [done|]; apply list_lookup_insert_eq; lia).
  cbn [mbind result_bind].
  assert (at_index x1 j = Ok y1) as ->
    by (apply at_index_Ok; split; [done|]; apply list_lookup_insert_eq; lia).
  cbn [mbind result_bind].
  assert (at_index y1 k = Ok (f z)) as ->
    by (apply at_index_Ok; split; [done|]; apply list_lookup_insert_eq; lia).
  cbn [mbind result_bind].
  rewrite (store_index_Ok y1 k)
    by (try done; unfold y1; rewrite length_insert; lia).
  cbn [mbind result_bind].
  rewrite (store_index_Ok x1 j)
    by (try done; unfold x1; rewrite length_insert; lia).
  cbn [mbind result_bind].
  rewrite (store_index_Ok (<[Z.to_nat i := x1]> v) i)
    by (try done; rewrite length_insert; lia).
  f_equal. unfold x1, y1.
  rewrite !list_insert_insert_eq, Hgf.
  by rewrite (list_insert_id y), (list_insert_id x), (list_insert_id v).
Qed.

Section bm_free_blocks.
Context (cfg : Config) (ssd : list BM.Block)
  (get_logical_address : Address.t -> Z).
Import BM.

Lemma fold_schedule_keeps ess st :
  let st' := fold_left (fun s es => schedule es s) ess st in
  free_blocks st' = free_blocks st
  /\ blocks_with_min_age st' = blocks_with_min_age st.
Proof.
  revert st. induction ess as [|es ess IH]; intros st; simpl; [done|].
  destruct (IH (schedule es st)) as [-> ->]. done.
Qed.

Lemma migrate_keeps b st st' :
  migrate cfg ssd get_logical_address b st = Ok st' ->
  free_blocks st' = free_blocks st
  /\ blocks_with_min_age st' = blocks_with_min_age st
  /\ gc_candidates st' = gc_candidates st.
Proof.
  intros H. apply migrate_result in H as (block & _ & _ & _ & _ & ->).
  destruct (fold_schedule_keeps
              (migration_of cfg get_logical_address block
                 (seqZ 0 (BLOCK_SIZE cfg)))
              (set_num_available
                 (num_available_pages_for_new_writes st - pages_valid block)
                 st)) as [-> ->].
  destruct (fold_schedule_fields
              (migration_of cfg get_logical_address block
                 (seqZ 0 (BLOCK_SIZE cfg)))
              (set_num_available
                 (num_available_pages_for_new_writes st - pages_valid block)
                 st)) as (_ & -> & _).
  done.
Qed.

Lemma choose_gc_victim_keeps candidates st st' :
  choose_gc_victim cfg ssd get_logical_address candidates st = Ok st' ->
  free_blocks st' = free_blocks st
  /\ blocks_with_min_age st' = blocks_with_min_age st.
Proof.
  intros H. apply choose_gc_victim_result in H as (m & best & _ & H).
  destruct best as [v|]; [|by subst].
  destruct H as (block & klass & st1 & s & gc & _ & Hsort & _ & _ & _ & Hmig).
  apply sort_into_age_class_keeps in Hsort as (_ & _ & Hfb & _ & Hbm & _).
  apply migrate_keeps in Hmig as (-> & -> & _). done.
Qed.

Lemma perform_gc_in_keeps scope st st' :
  perform_gc_in cfg ssd get_logical_address scope st = Ok st' ->
  free_blocks st' = free_blocks st
  /\ blocks_with_min_age st' = blocks_with_min_age st.
Proof.
  intros H.
  destruct scope; cbn [perform_gc_in] in H;
    unfold perform_gc, perform_gc_die, perform_gc_class,
      perform_gc_die_class in H;
    match type of H with
    | (?c ≫= _) = _ =>
        destruct c as [sets| |]; cbn [mbind result_bind] in H;
          try discriminate; by eapply choose_gc_victim_keeps
    end.
Qed.

Lemma greedy_gc_keeps (b : bool) p d k st st' :
  (if b then perform_gc_die_class cfg ssd get_logical_address p d k st
   else Ok st) = Ok st' ->
  free_blocks st' = free_blocks st.
Proof.
  destruct b.
  - intros H. by apply (perform_gc_in_keeps (OneDieClass p d k)) in H as [? _].
  - by intros [= <-].
Qed.

(** What [find_free_unused_block] of one age class of one die returns. *)
Lemma find_free_unused_block_die_class_inv p d k st r st' :
  find_free_unused_block_die_class cfg ssd get_logical_address p d k st
    = Ok (r, st') ->
  k < num_age_classes st
  /\ exists v,
       at_index3 (free_blocks st) p d k = Ok v
       /\ match last v with
          | Some a =>
              r = a
              /\ update_index3 (free_blocks st) p d k (@removelast Address.t)
                 = Ok (free_blocks st')
          | None =>
              r = Address.of_linear cfg 0 NONE
              /\ free_blocks st' = free_blocks st
          end.
Proof.
  unfold find_free_unused_block_die_class.
  destruct (Z.ltb_spec k (num_age_classes st)) as [Hk|];
    cbn [assert mbind result_bind]; [|discriminate].
  destruct (at_index3 (free_blocks st) p d k) as [v| |];
    cbn [mbind result_bind]; try discriminate.
  intros H. split; [done|]. exists v. split; [done|].
  destruct (last v) as [a|].
  - destruct (update_index3 (free_blocks st) p d k _) as [fb| |] eqn:Hup;
      cbn [mbind result_bind] in H; try discriminate.
    change (free_blocks (set_free_blocks fb st)) with fb in H.
    destruct (at_index3 fb p d k) as [v1| |]; cbn [mbind result_bind] in H;
      try discriminate.
    match type of H with
    | (?c ≫= _) = _ =>
        destruct c as [st2| |] eqn:H2; cbn [mbind result_bind] in H;
          try discriminate
    end.
    injection H as <- <-. apply greedy_gc_keeps in H2. by rewrite H2.
  - cbn [mbind result_bind] in H.
    destruct (at_index3 (free_blocks st) p d k) as [v1| |];
      cbn [mbind result_bind] in H; try discriminate.
    match type of H with
    | (?c ≫= _) = _ =>
        destruct c as [st2| |] eqn:H2; cbn [mbind result_bind] in H;
          try discriminate
    end.
    injection H as <- <-. by apply greedy_gc_keeps in H2.
Qed.

(** [find_free_unused_block] of one age class of one die takes the block
    that was freed last: the last address of the list is returned and
    removed, the others stay in their order. From an empty list it returns
    [Address(0, NONE)] and leaves every list as it is. *)
Theorem find_free_unused_block_takes_the_last_freed p d k st v r st' :
  at_index3 (free_blocks st) p d k = Ok v ->
  find_free_unused_block_die_class cfg ssd get_logical_address p d k st
    = Ok (r, st') ->
  match last v with
  | Some a =>
      r = a /\ at_index3 (free_blocks st') p d k = Ok (removelast v)
  | None =>
      Address.valid r = NONE /\ free_blocks st' = free_blocks st
  end.
Proof.
  intros Hv H.
  apply find_free_unused_block_die_class_inv in H as (_ & v' & Hv' & H).
  rewrite Hv in Hv'. injection Hv' as <-.
  destruct (last v) as [a|].
  - destruct H as [-> Hup]. split; [done|].
    apply update_index3_at in Hup as (z & Hz & Hz').
    rewrite Hv in Hz. by injection Hz as <-.
  - destruct H as [-> ->]. done.
Qed.

(** What the loop of [find_free_unused_block_with_class] returns. *)
Lemma with_class_dies_inv k dies st a st' :
  with_class_dies cfg ssd get_logical_address k dies st = Ok (a, st') ->
  free_blocks st' = free_blocks st
  /\ (Address.valid a <> NONE ->
      exists i j v,
        (i, j) ∈ dies
        /\ at_index3 (free_blocks st) i j k = Ok v /\ last v = Some a).
Proof.
  induction dies as [|[i j] dies IH]; simpl.
  - intros [= <- <-]. split; [done|]. cbn. done.
  - destruct (at_index3 (free_blocks st) i j k) as [v| |] eqn:Hv;
      cbn [mbind result_bind]; try discriminate.
    destruct (last v) as [b|] eqn:Hlast; try discriminate.
    case_bool_decide as Hb.
    + match goal with
      | |- (?c ≫= _) = _ -> _ =>
          destruct c as [st1| |] eqn:H1; cbn [mbind result_bind];
            try discriminate
      end.
      intros [= <- <-]. apply greedy_gc_keeps in H1. split; [done|].
      intros _. exists i, j, v. repeat split; try done. by left.
    + intros H. apply IH in H as [Hfb Hex]. split; [done|].
      intros Ha. destruct (Hex Ha) as (i' & j' & v' & Hin & H').
      exists i', j', v'. split; [by right|done].
Qed.

(** [find_free_unused_block_with_class] returns the last address of a
    free list without taking it out: the free lists are as before, and the
    block it returns is still the last of its list, ready to be returned
    again. *)
Theorem find_free_unused_block_with_class_takes_nothing k st a st' :
  find_free_unused_block_with_class cfg ssd get_logical_address k st
    = Ok (a, st') ->
  free_blocks st' = free_blocks st
  /\ (Address.valid a <> NONE ->
      exists i j v,
        at_index3 (free_blocks st') i j k = Ok v /\ last v = Some a).
Proof.
  unfold find_free_unused_block_with_class.
  destruct (assert _); cbn [mbind result_bind]; try discriminate.
  intros H. apply with_class_dies_inv in H as [Hfb Hex].
  split; [done|]. intros Ha. destruct (Hex Ha) as (i & j & v & _ & Hv & Hl).
  exists i, j, v. by rewrite Hfb.
Qed.

(** [find_free_unused_block_with_class] reads [back()] of the free list
    of the first die even when that list is empty: the behaviour is
    undefined, no [Address(0, NONE)] is returned. *)
Theorem find_free_unused_block_with_class_of_empty_list k st :
  0 < SSD_SIZE cfg -> 0 < PACKAGE_SIZE cfg ->
  k < num_age_classes st ->
  at_index3 (free_blocks st) 0 0 k = Ok [] ->
  find_free_unused_block_with_class cfg ssd get_logical_address k st
    = Undefined.
Proof.
  intros HS HP Hk Hv. unfold find_free_unused_block_with_class.
  destruct (Z.ltb_spec k (num_age_classes st)); [|lia].
  cbn [assert mbind result_bind]. unfold all_dies.
  assert (seqZ 0 (SSD_SIZE cfg) = 0 :: seqZ 1 (SSD_SIZE cfg - 1)) as ->
    by (rewrite (seqZ_cons 0) by lia; f_equal; f_equal; lia).
  assert (seqZ 0 (PACKAGE_SIZE cfg) = 0 :: seqZ 1 (PACKAGE_SIZE cfg - 1)) as ->
    by (rewrite (seqZ_cons 0) by lia; f_equal; f_equal; lia).
  cbn [mbind list_bind mret list_ret app with_class_dies].
  rewrite Hv. reflexivity.
Qed.

End bm_free_blocks.

(** Round trip: the block whose erase has completed is the next one that
    [find_free_unused_block] returns for its die and age class, and the
    free lists are then those of before the erase. *)
Theorem erased_block_is_found_next
    cfg ssd ssd' gla' event s st st1 klass stk r st2 :
  let a := Address.set_page 0 (Address.set_valid PAGE (address event)) in
  BM.register_erase_outcome cfg ssd event s st = Ok st1 ->
  BM.sort_into_age_class cfg ssd a st = Ok (klass, stk) ->
  BM.find_free_unused_block_die_class cfg ssd' gla' (Address.package a)
    (Address.die a) klass st1 = Ok (r, st2) ->
  r = a
  /\ BM.free_blocks st2 = BM.free_blocks st
  /\ BM.num_free_pages st2 = BM.num_free_pages st + BLOCK_SIZE cfg.
Proof.
  intros a Herase Hsort Hfind.
  pose proof (effect_register_erase_outcome _ _ _ _ _ _ Herase) as [_ Hn1].
  pose proof (effect_find_free_unused_block_die_class _ _ _ _ _ _ _ _ _ Hfind)
    as [_ Hn2].
  unfold BM.register_erase_outcome in Herase. fold a in Herase.
  rewrite Hsort in Herase. cbn [mbind result_bind] in Herase.
  destruct (update_index3 (BM.free_blocks stk) _ _ klass _) as [fb| |] eqn:Hup;
    cbn [mbind result_bind] in Herase; try discriminate.
  injection Herase as <-.
  apply sort_into_age_class_keeps in Hsort as (_ & _ & Hfb & _).
  rewrite Hfb in Hup.
  apply find_free_unused_block_die_class_inv in Hfind as (_ & v & Hv & H).
  pose proof (update_index3_at _ _ _ _ _ _ Hup) as (z & _ & Hz).
  cbn in Hv, H, Hz, Hup |- *.
  rewrite Hv in Hz. injection Hz as ->. rewrite last_snoc in H.
  destruct H as [-> H]. split; [done|]. split; [|lia].
  apply (update_index3_undo _ _ _ _ _ _ (@removelast Address.t)) in Hup.
  - rewrite Hup in H. by injection H as <-.
  - intros l. apply removelast_last.
Qed.

(** ** The block manager: writes, wear levelling and migration *)

Lemma bset_elem_of_insert x y s : x ∈ BSet.insert y s <-> x = y \/ x ∈ s.
Proof.
  induction s as [|z s IH]; simpl.
  - rewrite list_elem_of_singleton, elem_of_nil. tauto.
  - destruct (y <? z); [by rewrite elem_of_cons|].
    destruct (Z.eqb_spec y z) as [->|_].
    + rewrite elem_of_cons. tauto.
    + rewrite !elem_of_cons, IH. tauto.
Qed.

Lemma gather_head_fails {A B} (f : A -> result B) x l :
  (forall y, f x <> Ok y) -> forall ys, gather f (x :: l) <> Ok ys.
Proof.
  intros Hx ys. simpl. destruct (f x) as [y| |] eqn:E;
    cbn [mbind result_bind]; try discriminate.
  by destruct (Hx y).
Qed.

Section bm_more.
Context (cfg : Config) (ssd : list BM.Block)
  (get_logical_address : Address.t -> Z).
Import BM.

Lemma init_without_age_class n :
  0 < SSD_SIZE cfg -> 0 < PACKAGE_SIZE cfg -> n <= 0 ->
  forall st, init cfg ssd n <> Ok st.
Proof.
  intros HS HP Hn st. unfold init.
  destruct (Z.ltb_spec n 0) as [|Hn0]; [discriminate|].
  assert (n = 0) as -> by lia.
  assert (seqZ 0 (SSD_SIZE cfg) = 0 :: seqZ 1 (SSD_SIZE cfg - 1)) as ->
    by (rewrite (seqZ_cons 0) by lia; f_equal; f_equal; lia).
  assert (seqZ 0 (PACKAGE_SIZE cfg) = 0 :: seqZ 1 (PACKAGE_SIZE cfg - 1)) as ->
    by (rewrite (seqZ_cons 0) by lia; f_equal; f_equal; lia).
  match goal with
  | |- (?c ≫= _) <> _ =>
      destruct c as [dies| |] eqn:Hdies; cbn [mbind result_bind];
        try discriminate
  end.
  exfalso. revert Hdies. apply gather_head_fails. intros row.
  apply gather_head_fails. intros die.
  destruct (die_blocks cfg ssd 0 0); cbn [mbind result_bind]; discriminate.
Qed.

(** The constructor needs an age class: with a package and a die, and no
    age class (or a negative number of them), it reads outside the vector
    of the free lists and returns no block manager. *)
Theorem init_needs_an_age_class n :
  0 < SSD_SIZE cfg -> 0 < PACKAGE_SIZE cfg -> n <= 0 ->
  forall st, init cfg ssd n <> Ok st.
Proof. apply init_without_age_class. Qed.

(** After the constructor and any run of calls, [sort_into_age_class]
    returns for every block an age class below the number of age classes:
    [free_blocks] and [gc_candidates] are never indexed beyond their last
    class, and the denominator [max_age - min_age] is never 0. *)
Theorem age_class_is_in_range n calls st0 st ssd' a klass st' :
  init cfg ssd n = Ok st0 ->
  bm_run cfg calls st0 = Ok st ->
  sort_into_age_class cfg ssd' a st = Ok (klass, st') ->
  0 <= klass < n.
Proof.
  intros Hinit Hrun Hsort.
  pose proof (init_result _ _ _ _ Hinit)
    as (Hn0 & _ & _ & Hn & Hmin & Hmax & _).
  apply effect_bm_run in Hrun
    as [(F1 & F0 & F2 & F3 & _) _].
  pose proof (sort_into_age_class_state _ _ _ _ _ _ Hsort)
    as (p & b & Hp & Hb & _).
  assert (0 < SSD_SIZE cfg /\ 0 < PACKAGE_SIZE cfg) as [HS HP].
  { unfold block_pointer in Hp.
    destruct (bool_decide (0 <= Address.package a < SSD_SIZE cfg)) eqn:E1;
      [|discriminate].
    destruct (bool_decide (0 <= Address.die a < PACKAGE_SIZE cfg)) eqn:E2;
      [|discriminate].
    apply bool_decide_eq_true in E1, E2. lia. }
  assert (0 < n) as Hpos.
  { destruct (Z.le_gt_cases n 0) as [Hle|]; [|done].
    by destruct (init_without_age_class n HS HP Hle st0). }
  rewrite <- Hn, <- F3.
  eapply (sort_into_age_class_below_num_age_classes cfg ssd' a st klass st' p b);
    try done.
  - rewrite F3, Hn. done.
  - rewrite F2, Hmin. split; [done|]. apply Z.mod_pos_bound. lia.
  - destruct F0 as [F0|F0]; [|lia]. rewrite F0, Hmax. lia.
Qed.

(** The completion of a write for which [can_write] says no stops on an
    assertion of [register_write_outcome]: either no page is free, or the
    write is no garbage-collection write and no page is available for new
    writes. *)
Theorem write_outcome_needs_can_write event s st :
  can_write event st = false ->
  register_write_outcome cfg ssd get_logical_address event s st
  = AssertFailed.
Proof.
  unfold can_write. intros H. apply orb_false_iff in H as [Havail Hgc].
  unfold register_write_outcome.
  destruct (num_free_pages st >? 0); cbn [assert mbind result_bind];
    [|reflexivity].
  rewrite Hgc. cbn [negb num_available_pages_for_new_writes set_num_free_pages].
  rewrite Havail. reflexivity.
Qed.

(** Wear levelling takes the valid pages of a block off the pages
    available for new writes twice, once in the loop of [Wear_Level] and
    once in [migrate]; with fewer than twice as many pages available, the
    assertion of [migrate] fails. *)
Theorem wear_level_reserves_valid_pages_twice target rest block st :
  deref ssd target = Ok block ->
  pages_valid block < num_available_pages_for_new_writes st ->
  (num_available_pages_for_new_writes st < 2 * pages_valid block ->
   wear_level_queue cfg ssd get_logical_address (target :: rest) st
   = AssertFailed)
  /\ (forall st',
        wear_level_queue cfg ssd get_logical_address [target] st = Ok st' ->
        num_available_pages_for_new_writes st' =
          num_available_pages_for_new_writes st - 2 * pages_valid block).
Proof.
  intros Hd Hlt. cbn [wear_level_queue]. rewrite Hd.
  cbn [mbind result_bind].
  destruct (Z.gtb_spec (num_available_pages_for_new_writes st)
              (pages_valid block)); [|lia].
  split.
  - intros Hlt2. unfold migrate. rewrite Hd. cbn [mbind result_bind].
    cbn [num_available_pages_for_new_writes set_num_available].
    destruct (Z.leb_spec (pages_valid block)
                (num_available_pages_for_new_writes st - pages_valid block));
      [lia|].
    rewrite andb_false_r. reflexivity.
  - intros st'.
    destruct (migrate cfg ssd get_logical_address target _) as [st1| |] eqn:Hm;
      cbn [mbind result_bind]; try discriminate.
    intros [= <-].
    apply migrate_result in Hm as (block' & Hd' & _ & _ & _ & ->).
    rewrite Hd in Hd'. injection Hd' as <-.
    match goal with
    | |- context [fold_left _ ?ess ?s] =>
        destruct (fold_schedule_fields ess s) as (_ & _ & -> & _)
    end.
    cbn. lia.
Qed.

Lemma update_blocks_with_min_age_from_members blocks a st st' :
  update_blocks_with_min_age_from cfg ssd blocks a st = Ok st' ->
  all_blocks st' = all_blocks st
  /\ num_available_pages_for_new_writes st'
     = num_available_pages_for_new_writes st
  /\ scheduled st' = scheduled st
  /\ forall x,
       x ∈ blocks_with_min_age st' <->
       x ∈ blocks_with_min_age st
       \/ (x ∈ blocks
           /\ exists bx,
                deref ssd x = Ok bx
                /\ u32 (BLOCK_ERASES cfg - erases_remaining bx) = a).
Proof.
  revert st. induction blocks as [|b blocks IH]; intros st; simpl.
  - intros [= <-]. repeat split; try done; [tauto|].
    intros [H|[H _]]; [done|]. by apply elem_of_nil in H.
  - destruct (deref ssd b) as [block| |] eqn:Hb; cbn [mbind result_bind];
      try discriminate.
    intros H. apply IH in H as (H1 & H2 & H3 & H4).
    destruct (Z.eqb_spec (u32 (BLOCK_ERASES cfg - erases_remaining block)) a)
      as [Ha|Ha].
    + cbn in H1, H2, H3. repeat split; try done.
      * rewrite H4. cbn. rewrite bset_elem_of_insert, elem_of_cons.
        intros [[->|?]|(? & ?)]; eauto 10.
      * rewrite H4. cbn. rewrite bset_elem_of_insert, elem_of_cons.
        intros [?|([->|?] & ?)]; eauto 10.
    + repeat split; try done.
      * rewrite H4, elem_of_cons. intros [?|(? & ?)]; eauto 10.
      * rewrite H4, elem_of_cons.
        intros [?|([->|?] & bx & Hbx & Hage)]; eauto 10.
        rewrite Hb in Hbx. injection Hbx as <-. done.
Qed.

Lemma update_blocks_with_min_age_from_max_age blocks a st st' :
  update_blocks_with_min_age_from cfg ssd blocks a st = Ok st' ->
  max_age st' = max_age st.
Proof.
  revert st. induction blocks as [|b blocks IH]; intros st; simpl.
  - by intros [= <-].
  - destruct (deref ssd b) as [block| |]; cbn [mbind result_bind];
      try discriminate.
    intros H. apply IH in H. rewrite H. by destruct (_ =? a).
Qed.

(** [update_blocks_with_min_age] only adds to the set: the blocks that
    were in it stay, and every block of the device whose age is the
    argument joins them. *)
Theorem update_blocks_with_min_age_only_adds a st st' :
  update_blocks_with_min_age cfg ssd a st = Ok st' ->
  forall x,
    x ∈ blocks_with_min_age st' <->
    x ∈ blocks_with_min_age st
    \/ (x ∈ all_blocks st
        /\ exists bx,
             deref ssd x = Ok bx
             /\ u32 (BLOCK_ERASES cfg - erases_remaining bx) = a).
Proof.
  intros H. by apply update_blocks_with_min_age_from_members in H as (_ & _ & _ & H).
Qed.

(** When the block of the event is the only one in [blocks_with_min_age]
    and is no older than [max_age], [Wear_Level] rebuilds the set from the
    blocks of the same age as that block; the member [min_age] is not
    advanced (the function counts up a local variable of that name), and
    nothing is migrated. *)
Theorem Wear_Level_with_the_only_block_of_min_age event b block st st' :
  block_pointer cfg (address event) = Ok b ->
  deref ssd b = Ok block ->
  blocks_with_min_age st = [b] ->
  u32 (BLOCK_ERASES cfg - erases_remaining block) <= max_age st ->
  Wear_Level cfg ssd get_logical_address event st = Ok st' ->
  min_age st' = min_age st
  /\ max_age st' = max_age st
  /\ scheduled st' = scheduled st
  /\ num_available_pages_for_new_writes st'
     = num_available_pages_for_new_writes st
  /\ forall x,
       x ∈ blocks_with_min_age st' <->
       x ∈ all_blocks st
       /\ exists bx,
            deref ssd x = Ok bx
            /\ u32 (BLOCK_ERASES cfg - erases_remaining bx)
               = u32 (BLOCK_ERASES cfg - erases_remaining block).
Proof.
  intros Hp Hd Hset Hage H.
  pose proof (effect_Wear_Level _ _ _ _ _ _ H) as [(_ & _ & Hmin & _) _].
  unfold Wear_Level in H. cbv zeta in H.
  rewrite Hp in H. cbn [mbind result_bind] in H.
  rewrite Hd, Hset in H. cbn [mbind result_bind] in H.
  rewrite Hd in H. cbn [mbind result_bind] in H.
  destruct (Z.gtb_spec (u32 (BLOCK_ERASES cfg - erases_remaining block))
              (max_age st)); [lia|].
  cbn [BSet.count BSet.erase] in H. rewrite Z.eqb_refl in H.
  change (BSet.size [b] >? 1) with false in H.
  change (BSet.size [b] =? 1) with true in H.
  cbn [andb] in H. unfold update_blocks_with_min_age in H.
  destruct (update_blocks_with_min_age_from cfg ssd _ _ _) as [st1| |] eqn:Hup;
    cbn [mbind result_bind] in H; try discriminate.
  cbn [wear_level_queue] in H. injection H as <-.
  pose proof (update_blocks_with_min_age_from_max_age _ _ _ _ Hup) as Hmax.
  apply update_blocks_with_min_age_from_members in Hup
    as (Hall & Havail & Hsched & Hmem).
  cbn in Hall, Havail, Hsched, Hmem, Hmax.
  split; [done|]. split; [done|]. split; [done|]. split; [done|].
  intros x. rewrite Hmem, elem_of_nil. tauto.
Qed.


End bm_more.

(** ** The block manager: the order of the age classes *)

Section bm_class_order.
Context (cfg : Config) (ssd : list BM.Block)
  (get_logical_address : Address.t -> Z).
Import BM.

Lemma first_found_classes p d x classes len : forall m st r st',
  at_index (free_blocks st) p = Ok x ->
  at_index x d = Ok classes ->
  Forall (Forall (fun a => Address.valid a <> NONE)) classes ->
  first_found cfg
    (find_free_unused_block_die_class cfg ssd get_logical_address p d)
    (seqZ m (Z.of_nat len)) st = Ok (r, st') ->
  (Address.valid r = NONE
   /\ free_blocks st' = free_blocks st
   /\ forall k, m <= k < m + Z.of_nat len ->
        at_index3 (free_blocks st) p d k = Ok [])
  \/ (Address.valid r <> NONE
      /\ exists k v,
           m <= k < m + Z.of_nat len
           /\ (forall k', m <= k' < k ->
                 at_index3 (free_blocks st) p d k' = Ok [])
           /\ at_index3 (free_blocks st) p d k = Ok (v ++ [r])
           /\ at_index3 (free_blocks st') p d k = Ok v).
Proof.
  induction len as [|len IH]; intros m st r st' Hx Hclasses Hvalid.
  - cbn [first_found seqZ]. intros [= <- <-]. left.
    split; [done|]. split; [done|]. intros k Hk. lia.
  - rewrite seqZ_cons by lia.
    replace (Z.pred (Z.of_nat (S len))) with (Z.of_nat len) by lia.
    cbn [first_found].
    destruct (find_free_unused_block_die_class cfg ssd get_logical_address
                p d m st) as [[a st1]| |] eqn:Hfind;
      cbn [mbind result_bind]; try discriminate.
    apply find_free_unused_block_die_class_inv in Hfind as (_ & v & Hv & H).
    destruct (last v) as [b|] eqn:Hlast.
    + destruct H as [-> Hup]. apply last_Some in Hlast as [v0 ->].
      assert (Address.valid b <> NONE) as Hb.
      { unfold at_index3 in Hv. rewrite Hx in Hv.
        cbn [mbind result_bind] in Hv. rewrite Hclasses in Hv.
        cbn [mbind result_bind] in Hv. apply at_index_Ok in Hv as [_ Hv].
        rewrite Forall_lookup in Hvalid. specialize (Hvalid _ _ Hv).
        rewrite Forall_forall in Hvalid. apply Hvalid.
        apply elem_of_app. right. by left. }
      rewrite bool_decide_eq_true_2 by done. intros [= <- <-]. right.
      split; [done|]. exists m, v0. split; [lia|]. split; [intros; lia|].
      split; [done|].
      apply update_index3_at in Hup as (z & Hz & Hz').
      rewrite Hv in Hz. injection Hz as <-.
      by rewrite removelast_last in Hz'.
    + destruct H as [-> Hfb]. apply last_None in Hlast as ->.
      rewrite bool_decide_eq_false_2 by (cbn; intros Hne; by apply Hne).
      intros Hrest. rewrite <- Hfb in Hx.
      destruct (IH (Z.succ m) st1 r st' Hx Hclasses Hvalid Hrest)
        as [(Hr & Hfb' & Hempty)|(Hr & k & v & Hk & Hbelow & Hat & Hat')].
      * left. split; [done|]. split; [congruence|].
        intros k Hk. destruct (Z.eq_dec k m) as [->|]; [done|].
        rewrite <- Hfb. apply Hempty. lia.
      * right. split; [done|]. exists k, v. split; [lia|].
        rewrite Hfb in Hbelow, Hat. split; [|done].
        intros k' Hk'. destruct (Z.eq_dec k' m) as [->|]; [done|].
        apply Hbelow. lia.
Qed.

(** [find_free_unused_block] of one die goes through the age classes in
    ascending order: it takes the block freed last in the lowest class
    that has a free block, and returns [Address(0, NONE)], with every
    list as before, only when no class of the die has one. (The free
    addresses are valid ones, as the constructor and the erase
    completions make them.) *)
Theorem find_free_unused_block_takes_the_lowest_class p d x classes st r st' :
  at_index (free_blocks st) p = Ok x ->
  at_index x d = Ok classes ->
  Forall (Forall (fun a => Address.valid a <> NONE)) classes ->
  find_free_unused_block_die cfg ssd get_logical_address p d st
    = Ok (r, st') ->
  (Address.valid r = NONE
   /\ free_blocks st' = free_blocks st
   /\ Forall (fun v => v = []) classes)
  \/ (Address.valid r <> NONE
      /\ exists k v,
           0 <= k < Z.of_nat (length classes)
           /\ (forall k', 0 <= k' < k ->
                 at_index3 (free_blocks st) p d k' = Ok [])
           /\ at_index3 (free_blocks st) p d k = Ok (v ++ [r])
           /\ at_index3 (free_blocks st') p d k = Ok v).
Proof.
  intros Hx Hclasses Hvalid H. unfold find_free_unused_block_die in H.
  rewrite Hx in H. cbn [mbind result_bind] in H.
  rewrite Hclasses in H. cbn [mbind result_bind] in H.
  destruct (first_found_classes p d x classes (length classes) 0 st r st'
              Hx Hclasses Hvalid H)
    as [(Hr & Hfb & Hempty)|(Hr & k & v & Hk & Hrest)].
  - left. split; [done|]. split; [done|].
    apply Forall_lookup. intros i v Hi.
    pose proof (lookup_lt_Some _ _ _ Hi) as Hlt.
    specialize (Hempty (Z.of_nat i) ltac:(lia)).
    unfold at_index3 in Hempty. rewrite Hx in Hempty.
    cbn [mbind result_bind] in Hempty. rewrite Hclasses in Hempty.
    cbn [mbind result_bind] in Hempty.
    apply at_index_Ok in Hempty as [_ Hempty].
    rewrite Nat2Z.id in Hempty. congruence.
  - right. split; [done|]. exists k, v. split; [lia|done].
Qed.

End bm_class_order.

(** ** The further properties on the scenarios

    Each property that has a premise, applied to the FTL and the block
    manager of the scenarios. *)

Lemma read_changes_no_mapping_witness :
  exists s event' st',
    Fast.read Scenario.cfg Scenario.env Scenario.state_with_log_block
      (new_event READ 0) = Ok (s, event', st')
    /\ Fast.data_list st' = Fast.data_list Scenario.state_with_log_block
    /\ Fast.log_map st' = Fast.log_map Scenario.state_with_log_block
    /\ logical_address event' = 0.
Proof.
  destruct (Fast.read Scenario.cfg Scenario.env Scenario.state_with_log_block
              (new_event READ 0)) as [[[s event'] st']| |] eqn:H;
    [|vm_compute in H; discriminate..].
  destruct (read_changes_no_mapping _ _ _ _ _ _ _ H)
    as (H1 & H2 & _ & _ & _ & H6 & _).
  exists s, event', st'. split; [reflexivity|]. split; [exact H1|].
  split; [exact H2|exact H6].
Defined.

Lemma read_beyond_data_list_witness :
  Fast.read Scenario.cfg Scenario.env (Fast.init Scenario.cfg (-1))
    (new_event READ 32) = Undefined.
Proof.
  apply (read_beyond_data_list Scenario.cfg Scenario.env
           (Fast.init Scenario.cfg (-1)) (new_event READ 32)).
  vm_compute. discriminate.
Defined.

Lemma write_keeps_mapping_witness :
  exists s event' st',
    Fast.write Scenario.cfg Scenario.env Scenario.state_with_log_block
      (new_event WRITE 5) = Ok (s, event', st')
    /\ Fast.data_list st' = Fast.data_list Scenario.state_with_log_block
    /\ (exists lb, OMap.find 1 (Fast.log_map st') = Some lb)
    /\ OMap.find 0 (Fast.log_map st')
       = Some Scenario.log_block_with_page_0.
Proof.
  destruct (Fast.write Scenario.cfg Scenario.env Scenario.state_with_log_block
              (new_event WRITE 5)) as [[[s event'] st']| |] eqn:H;
    [|vm_compute in H; discriminate..].
  destruct (write_keeps_mapping _ _ _ _ _ _ _ H)
    as (H1 & _ & _ & _ & H5 & H6 & _).
  exists s, event', st'. split; [reflexivity|]. split; [exact H1|].
  split; [exact H5|]. etransitivity; [apply H6; discriminate|reflexivity].
Defined.

Lemma write_answers_as_the_controller_witness :
  exists s event' st',
    Fast.write Scenario.cfg Scenario.env Scenario.state_with_log_block
      (new_event WRITE 5) = Ok (s, event', st')
    /\ exists h,
         Fast.calls st' = h ++ [Fast.Issue (new_event WRITE 5)]
         /\ s = Fast.env_issue Scenario.env h (new_event WRITE 5)
         /\ h = [Fast.GetFreeBlock LOG]
         /\ OMap.find 1 (Fast.log_map Scenario.state_with_log_block) = None.
Proof.
  destruct (Fast.write Scenario.cfg Scenario.env Scenario.state_with_log_block
              (new_event WRITE 5)) as [[[s event'] st']| |] eqn:H;
    [|vm_compute in H; discriminate..].
  destruct (write_answers_as_the_controller _ _ _ _ _ _ _ H)
    as (h & Hcalls & Hs & Hh & _).
  exists s, event', st'. split; [reflexivity|].
  exists h. split; [exact Hcalls|]. split; [exact Hs|].
  split; [exact Hh|reflexivity].
Defined.

Lemma write_asserts_log_block_active_witness :
  Fast.write Scenario.cfg ScenarioMore.env_inactive
    Scenario.state_with_log_block (new_event WRITE 1) = AssertFailed.
Proof.
  apply (write_asserts_log_block_active Scenario.cfg ScenarioMore.env_inactive
           Scenario.state_with_log_block (new_event WRITE 1)
           Scenario.log_block_with_page_0); reflexivity.
Defined.

Lemma read_after_first_write_witness :
  exists s event' st' rd',
    Fast.write Scenario.cfg Scenario.env ScenarioMore.state_with_data_block
      (new_event WRITE 1) = Ok (s, event', st')
    /\ Fast.read Scenario.cfg Scenario.env st' (new_event READ 1)
       = Ok (SUCCESS, rd',
             Fast.log_call (Fast.Issue rd')
               (Fast.log_call (Fast.SimulateMapRead rd') st'))
    /\ address rd' = Address.of_linear Scenario.cfg 17 PAGE.
Proof.
  destruct (Fast.write Scenario.cfg Scenario.env
              ScenarioMore.state_with_data_block (new_event WRITE 1))
    as [[[s event'] st']| |] eqn:H; [|vm_compute in H; discriminate..].
  pose proof (read_after_first_write Scenario.cfg Scenario.env
                ScenarioMore.state_with_data_block (new_event WRITE 1)
                s event' st' (new_event READ 1) 16
                ltac:(simpl; lia) eq_refl eq_refl H eq_refl) as Hr.
  exists s, event', st',
    (set_address (Address.of_linear Scenario.cfg 17 PAGE) (new_event READ 1)).
  split; [reflexivity|]. split; [exact Hr|]. reflexivity.
Defined.

Lemma dispose_after_allocate_witness :
  exists st1,
    Fast.allocate_new_logblock Scenario.cfg Scenario.env 3 (new_event WRITE 12)
      (Fast.init Scenario.cfg (-1)) = Ok st1
    /\ OMap.size (Fast.log_map st1) = 1
    /\ Fast.log_map (Fast.dispose_logblock 3 st1) = [].
Proof.
  destruct (Fast.allocate_new_logblock Scenario.cfg Scenario.env 3
              (new_event WRITE 12) (Fast.init Scenario.cfg (-1)))
    as [st1| |] eqn:H; [|vm_compute in H; discriminate..].
  destruct (dispose_after_allocate Scenario.cfg Scenario.env 3
              (new_event WRITE 12) (Fast.init Scenario.cfg (-1)) st1
              eq_refl H) as (H1 & _ & _).
  exists st1. split; [reflexivity|]. split; [|exact H1].
  vm_compute in H. by injection H as <-.
Defined.

Lemma switch_sequential_promotes_witness :
  exists st',
    Fast.switch_sequential Scenario.cfg Scenario.env 0 (new_event WRITE 0)
      Scenario.filling_state = Ok st'
    /\ Fast.data_list st' = [4; -1; -1; -1; -1; -1; -1; -1]
    /\ Fast.sequential_logical_address st' = -1
    /\ Fast.sequential_offset st' = 0.
Proof.
  destruct (switch_sequential_promotes Scenario.cfg Scenario.env
              Scenario.filling_state 0 (new_event WRITE 0) (-1) eq_refl)
    as (st' & H & Hd & _ & HS & HO & _).
  exists st'. split; [exact H|]. split; [exact Hd|]. split; [exact HS|exact HO].
Defined.

Lemma merge_sequential_cost_witness :
  let st :=
    Fast.set_data_list [16; -1; -1; -1; -1; -1; -1; -1] Scenario.filling_state in
  exists event' st' added,
    Fast.merge_sequential Scenario.cfg Scenario.env 0 (new_event WRITE 2) st
    = Ok (event', st')
    /\ chain event' = added
    /\ length added = 8%nat
    /\ length (filter (fun nd => node_type nd = READ) added) = 4%nat
    /\ length (filter (fun nd => node_type nd = WRITE) added) = 4%nat.
Proof.
  intros st.
  destruct (Fast.merge_sequential Scenario.cfg Scenario.env 0
              (new_event WRITE 2) st) as [[event' st']| |] eqn:H;
    [|vm_compute in H; discriminate..].
  destruct (merge_sequential_cost Scenario.cfg Scenario.env st 0
              (new_event WRITE 2) 16 event' st'
              ltac:(discriminate) eq_refl H)
    as (added & n & Hchain & Hlen & _ & Hn & HR & HW & _).
  rewrite (Hn ltac:(discriminate)) in Hlen, HR, HW.
  exists event', st', added.
  split; [reflexivity|]. split; [exact Hchain|]. split; [exact Hlen|].
  split; [exact HR|exact HW].
Defined.

Lemma sequential_offset_stays_in_block_witness :
  run Scenario.cfg Scenario.env three_appends
    (Fast.init Scenario.cfg (-1), []) = Ok after_three_appends
  /\ 0 <= Fast.sequential_offset (fst after_three_appends) <= 4.
Proof.
  assert (run Scenario.cfg Scenario.env three_appends
            (Fast.init Scenario.cfg (-1), []) = Ok after_three_appends) as Hrun
    by (vm_compute; reflexivity).
  split; [exact Hrun|].
  exact (sequential_offset_stays_in_block Scenario.cfg Scenario.env
           three_appends (-1) (fst after_three_appends)
           (snd after_three_appends) ltac:(simpl; lia) Hrun).
Defined.

Lemma full_sequential_block_is_merged_witness :
  exists e1 st1 e2 st2,
    Fast.write_to_log_block Scenario.cfg Scenario.env (new_event WRITE 3) 0
      ScenarioMore.last_page_pending = Ok (true, e1, st1)
    /\ Fast.sequential_offset st1 = 4
    /\ Fast.write_to_log_block Scenario.cfg Scenario.env (new_event WRITE 4) 1
         st1 = Ok (true, e2, st2)
    /\ last (Fast.output st2) = Some Fast.MergeSequential.
Proof.
  destruct (full_sequential_block_is_merged Scenario.cfg Scenario.env
              ScenarioMore.last_page_pending 0 (new_event WRITE 3)
              (new_event WRITE 4) 1 (-1)
              ltac:(simpl; lia) eq_refl ltac:(discriminate) eq_refl eq_refl
              eq_refl eq_refl)
    as (e1 & st1 & em & stm & e2 & st2 & H1 & H2 & _ & H4 & H5 & H6 & _).
  exists e1, st1, e2, st2. split; [exact H1|]. split; [exact H2|].
  split; [exact H5|]. rewrite H6. exact H4.
Defined.

Lemma run_keeps_frame_witness :
  exists st',
    bm_run ScenarioBM.cfg ScenarioMore.three_calls ScenarioBM.st = Ok st'
    /\ BM.min_age st' = 0
    /\ BM.num_age_classes st' = 2
    /\ BM.all_blocks st' = [0; 1; 2; 3; 4; 5; 6; 7].
Proof.
  destruct (bm_run ScenarioBM.cfg ScenarioMore.three_calls ScenarioBM.st)
    as [st'| |] eqn:H; [|vm_compute in H; discriminate..].
  destruct (run_keeps_frame _ _ _ _ H) as (_ & _ & H2 & H3 & H4 & _).
  exists st'. split; [reflexivity|]. split; [exact H2|].
  split; [exact H3|exact H4].
Defined.

Lemma num_free_pages_counts_writes_and_erases_witness :
  exists st',
    bm_run ScenarioBM.cfg ScenarioMore.three_calls ScenarioBM.st = Ok st'
    /\ BM.num_free_pages st' = 20 - 1 + 4 * 1.
Proof.
  destruct (bm_run ScenarioBM.cfg ScenarioMore.three_calls ScenarioBM.st)
    as [st'| |] eqn:H; [|vm_compute in H; discriminate..].
  exists st'. split; [reflexivity|].
  exact (num_free_pages_counts_writes_and_erases _ _ _ _ H).
Defined.

Lemma constructed_vectors_keep_their_shape_witness :
  exists st0 st,
    BM.init ScenarioBM.cfg ScenarioBM.ssd 2 = Ok st0
    /\ bm_run ScenarioBM.cfg ScenarioMore.three_calls st0 = Ok st
    /\ BM.num_age_classes st = 2
    /\ BM.min_age st = 0
    /\ (exists s, at_index3 (BM.gc_candidates st) 0 0 1 = Ok s)
    /\ (exists v, at_index3 (BM.free_blocks st) 0 0 1 = Ok v).
Proof.
  destruct (BM.init ScenarioBM.cfg ScenarioBM.ssd 2) as [st0| |] eqn:H0;
    [|vm_compute in H0; discriminate..].
  destruct (bm_run ScenarioBM.cfg ScenarioMore.three_calls st0)
    as [st| |] eqn:H;
    [|vm_compute in H0; injection H0 as <-; vm_compute in H; discriminate..].
  destruct (constructed_vectors_keep_their_shape ScenarioBM.cfg ScenarioBM.ssd
              2 ScenarioMore.three_calls st0 st 0 0 1 H0 H
              ltac:(simpl; lia) ltac:(simpl; lia) ltac:(lia))
    as (H1 & H2 & _ & _ & _ & H6 & H7).
  exists st0, st. split; [reflexivity|]. split; [exact H|].
  split; [exact H1|]. split; [exact H2|]. split; [exact H6|exact H7].
Defined.


Lemma age_class_is_in_range_witness :
  exists st0 st klass st',
    BM.init ScenarioBM.cfg ScenarioBM.ssd 2 = Ok st0
    /\ bm_run ScenarioBM.cfg ScenarioMore.three_calls st0 = Ok st
    /\ BM.sort_into_age_class ScenarioBM.cfg ScenarioBM.ssd
         (Address.of_linear ScenarioBM.cfg 8 BLOCK) st = Ok (klass, st')
    /\ 0 <= klass < 2.
Proof.
  destruct (BM.init ScenarioBM.cfg ScenarioBM.ssd 2) as [st0| |] eqn:H0;
    [|vm_compute in H0; discriminate..].
  destruct (bm_run ScenarioBM.cfg ScenarioMore.three_calls st0)
    as [st| |] eqn:H;
    [|vm_compute in H0; injection H0 as <-; vm_compute in H; discriminate..].
  destruct (BM.sort_into_age_class ScenarioBM.cfg ScenarioBM.ssd
              (Address.of_linear ScenarioBM.cfg 8 BLOCK) st)
    as [[klass st']| |] eqn:Hs;
    [|vm_compute in H0; injection H0 as <-; vm_compute in H;
      injection H as <-; vm_compute in Hs; discriminate..].
  exists st0, st, klass, st'.
  split; [reflexivity|]. split; [exact H|]. split; [exact Hs|].
  exact (age_class_is_in_range _ _ _ _ _ _ _ _ _ _ H0 H Hs).
Defined.

Lemma init_needs_an_age_class_witness :
  BM.init ScenarioBM.cfg ScenarioBM.ssd 0 = Undefined.
Proof.
  destruct (BM.init ScenarioBM.cfg ScenarioBM.ssd 0) as [st| |] eqn:H.
  - destruct (init_needs_an_age_class ScenarioBM.cfg ScenarioBM.ssd 0
                ltac:(simpl; lia) ltac:(simpl; lia) ltac:(lia) st H).
  - vm_compute in H. discriminate.
  - reflexivity.
Defined.

Lemma find_free_unused_block_takes_the_last_freed_witness :
  exists r st',
    BM.find_free_unused_block_die_class ScenarioBM.cfg ScenarioBM.ssd
      ScenarioBM.get_logical_address 0 0 0 ScenarioBM.st = Ok (r, st')
    /\ r = Address.of_linear ScenarioBM.cfg 28 PAGE
    /\ at_index3 (BM.free_blocks st') 0 0 0
       = Ok (map (fun x => Address.of_linear ScenarioBM.cfg x PAGE)
               [16; 20; 24]).
Proof.
  destruct (BM.find_free_unused_block_die_class ScenarioBM.cfg ScenarioBM.ssd
              ScenarioBM.get_logical_address 0 0 0 ScenarioBM.st)
    as [[r st']| |] eqn:H; [|vm_compute in H; discriminate..].
  destruct (find_free_unused_block_takes_the_last_freed ScenarioBM.cfg
              ScenarioBM.ssd ScenarioBM.get_logical_address 0 0 0
              ScenarioBM.st
              (map (fun x => Address.of_linear ScenarioBM.cfg x PAGE)
                 [16; 20; 24; 28]) r st' eq_refl H) as [Hr Hv].
  exists r, st'. split; [reflexivity|]. split; [exact Hr|exact Hv].
Defined.

Lemma erased_block_is_found_next_witness :
  exists st1 r st2,
    BM.register_erase_outcome ScenarioBM.cfg (ScenarioBM.ssd_after_erase 999)
      ScenarioBM.erase_of_block_3 SUCCESS ScenarioBM.st = Ok st1
    /\ BM.find_free_unused_block_die_class ScenarioBM.cfg
         (ScenarioBM.ssd_after_erase 999) ScenarioBM.get_logical_address
         0 0 1 st1 = Ok (r, st2)
    /\ r = Address.of_linear ScenarioBM.cfg 12 PAGE
    /\ BM.free_blocks st2 = BM.free_blocks ScenarioBM.st
    /\ BM.num_free_pages st2 = 24.
Proof.
  destruct (BM.register_erase_outcome ScenarioBM.cfg
              (ScenarioBM.ssd_after_erase 999) ScenarioBM.erase_of_block_3
              SUCCESS ScenarioBM.st) as [st1| |] eqn:H1;
    [|vm_compute in H1; discriminate..].
  destruct (BM.find_free_unused_block_die_class ScenarioBM.cfg
              (ScenarioBM.ssd_after_erase 999) ScenarioBM.get_logical_address
              0 0 1 st1) as [[r st2]| |] eqn:H2;
    [|vm_compute in H1; injection H1 as <-; vm_compute in H2; discriminate..].
  destruct (erased_block_is_found_next ScenarioBM.cfg
              (ScenarioBM.ssd_after_erase 999) (ScenarioBM.ssd_after_erase 999)
              ScenarioBM.get_logical_address ScenarioBM.erase_of_block_3
              SUCCESS ScenarioBM.st st1 1 ScenarioBM.st r st2 H1
              ltac:(vm_compute; reflexivity) H2) as (Hr & Hfb & Hn).
  exists st1, r, st2. split; [reflexivity|]. split; [exact H2|].
  split; [exact Hr|]. split; [exact Hfb|exact Hn].
Defined.

Lemma find_free_unused_block_with_class_takes_nothing_witness :
  exists a st',
    BM.find_free_unused_block_with_class ScenarioBM.cfg ScenarioBM.ssd
      ScenarioBM.get_logical_address 0 ScenarioBM.st = Ok (a, st')
    /\ BM.free_blocks st' = BM.free_blocks ScenarioBM.st.
Proof.
  destruct (BM.find_free_unused_block_with_class ScenarioBM.cfg ScenarioBM.ssd
              ScenarioBM.get_logical_address 0 ScenarioBM.st)
    as [[a st']| |] eqn:H; [|vm_compute in H; discriminate..].
  destruct (find_free_unused_block_with_class_takes_nothing _ _ _ _ _ _ _ H)
    as [Hfb _].
  exists a, st'. split; [reflexivity|exact Hfb].
Defined.

Lemma find_free_unused_block_with_class_of_empty_list_witness :
  BM.find_free_unused_block_with_class ScenarioBM.cfg ScenarioBM.ssd
    ScenarioBM.get_logical_address 1 ScenarioBM.st = Undefined.
Proof.
  apply (find_free_unused_block_with_class_of_empty_list ScenarioBM.cfg
           ScenarioBM.ssd ScenarioBM.get_logical_address 1 ScenarioBM.st);
    [simpl; lia|simpl; lia|simpl; lia|reflexivity].
Defined.

Lemma write_outcome_needs_can_write_witness :
  BM.can_write ScenarioBM.overwrite_of_page_1 ScenarioMore.st_no_page_available
  = false
  /\ BM.register_write_outcome ScenarioBM.cfg ScenarioBM.ssd
       ScenarioBM.get_logical_address ScenarioBM.overwrite_of_page_1 SUCCESS
       ScenarioMore.st_no_page_available = AssertFailed.
Proof.
  split; [reflexivity|].
  apply (write_outcome_needs_can_write ScenarioBM.cfg ScenarioBM.ssd
           ScenarioBM.get_logical_address ScenarioBM.overwrite_of_page_1
           SUCCESS ScenarioMore.st_no_page_available).
  reflexivity.
Defined.

Lemma wear_level_reserves_valid_pages_twice_witness :
  BM.wear_level_queue ScenarioBM.cfg ScenarioBM.ssd
    ScenarioBM.get_logical_address [0] ScenarioMore.st_three_pages_available
  = AssertFailed.
Proof.
  destruct (BM.deref ScenarioBM.ssd 0) as [block| |] eqn:Hd;
    [|vm_compute in Hd; discriminate..].
  assert (BM.pages_valid block = 2) as Hv
    by (vm_compute in Hd; by injection Hd as <-).
  apply (wear_level_reserves_valid_pages_twice ScenarioBM.cfg ScenarioBM.ssd
           ScenarioBM.get_logical_address 0 [] block
           ScenarioMore.st_three_pages_available Hd);
    rewrite Hv; simpl; lia.
Defined.

Lemma update_blocks_with_min_age_only_adds_witness :
  exists st',
    BM.update_blocks_with_min_age ScenarioBM.cfg ScenarioBM.ssd 1 ScenarioBM.st
    = Ok st'
    /\ 2 ∈ BM.blocks_with_min_age st'
    /\ 0 ∈ BM.blocks_with_min_age st'.
Proof.
  destruct (BM.update_blocks_with_min_age ScenarioBM.cfg ScenarioBM.ssd 1
              ScenarioBM.st) as [st'| |] eqn:H;
    [|vm_compute in H; discriminate..].
  pose proof (update_blocks_with_min_age_only_adds _ _ _ _ _ H) as Hmem.
  exists st'. split; [reflexivity|]. split.
  - apply Hmem. right. split.
    + simpl. do 2 right. left.
    + eexists. split; reflexivity.
  - apply Hmem. left. by left.
Defined.

Lemma Wear_Level_with_the_only_block_of_min_age_witness :
  exists st',
    BM.Wear_Level ScenarioBM.cfg ScenarioBM.ssd ScenarioBM.get_logical_address
      ScenarioMore.erase_of_block_2 ScenarioMore.st_block_2_youngest = Ok st'
    /\ BM.min_age st' = 0
    /\ BM.scheduled st' = [].
Proof.
  destruct (BM.Wear_Level ScenarioBM.cfg ScenarioBM.ssd
              ScenarioBM.get_logical_address ScenarioMore.erase_of_block_2
              ScenarioMore.st_block_2_youngest) as [st'| |] eqn:H;
    [|vm_compute in H; discriminate..].
  destruct (Wear_Level_with_the_only_block_of_min_age ScenarioBM.cfg
              ScenarioBM.ssd ScenarioBM.get_logical_address
              ScenarioMore.erase_of_block_2 2 (ScenarioBM.free_block 8 999)
              ScenarioMore.st_block_2_youngest st'
              eq_refl eq_refl eq_refl ltac:(vm_compute; discriminate) H)
    as (Hmin & _ & Hsched & _).
  exists st'. split; [reflexivity|]. split; [exact Hmin|exact Hsched].
Defined.


Lemma find_free_unused_block_takes_the_lowest_class_witness :
  exists r st',
    BM.find_free_unused_block_die ScenarioBM.cfg ScenarioBM.ssd
      ScenarioBM.get_logical_address 0 0 ScenarioMore.st_free_in_class_1
    = Ok (r, st')
    /\ r = Address.of_linear ScenarioBM.cfg 12 PAGE
    /\ at_index3 (BM.free_blocks st') 0 0 1 = Ok [].
Proof.
  destruct (BM.find_free_unused_block_die ScenarioBM.cfg ScenarioBM.ssd
              ScenarioBM.get_logical_address 0 0
              ScenarioMore.st_free_in_class_1) as [[r st']| |] eqn:H;
    [|vm_compute in H; discriminate..].
  destruct (find_free_unused_block_takes_the_lowest_class ScenarioBM.cfg
              ScenarioBM.ssd ScenarioBM.get_logical_address 0 0
              [[ []; [Address.of_linear ScenarioBM.cfg 12 PAGE] ]]
              [ []; [Address.of_linear ScenarioBM.cfg 12 PAGE] ]
              ScenarioMore.st_free_in_class_1 r st' eq_refl eq_refl
              ltac:(repeat constructor; discriminate) H)
    as [(_ & _ & Hempty)|(_ & k & v & Hk & Hbelow & Hat & Hat')].
  - apply Forall_cons in Hempty as [_ Hempty].
    apply Forall_cons in Hempty as [Hempty _]. discriminate.
  - exists r, st'. split; [reflexivity|].
    assert (k = 1) as ->.
    { destruct (Z.eq_dec k 0) as [->|]; [|simpl in Hk; lia].
      vm_compute in Hat. injection Hat as Hat. by destruct v. }
    vm_compute in Hat. injection Hat as Hat.
    destruct v as [|a [|b v]]; try discriminate.
    injection Hat as <-. split; [reflexivity|exact Hat'].
Defined.

Lemma random_merge_replaces_the_blocks_witness :
  exists b event' st',
    Fast.random_merge Scenario.cfg Scenario.env Scenario.log_block_with_page_0
      0 (new_event WRITE 0) Scenario.state_with_log_block = Ok (b, event', st')
    /\ b = true
    /\ at_index (Fast.data_list st') 0 = Ok 4
    /\ Fast.log_map st' = [].
Proof.
  destruct (Fast.random_merge Scenario.cfg Scenario.env
              Scenario.log_block_with_page_0 0 (new_event WRITE 0)
              Scenario.state_with_log_block) as [[[b event'] st']| |] eqn:H;
    [|vm_compute in H; discriminate..].
  destruct (random_merge_replaces_the_blocks Scenario.cfg Scenario.env
              Scenario.log_block_with_page_0 0 (new_event WRITE 0)
              Scenario.state_with_log_block 16 b event' st' eq_refl H)
    as (Hb & _ & Hat & Hmap & _).
  exists b, event', st'. split; [reflexivity|]. split; [exact Hb|].
  split; [exact Hat|exact Hmap].
Defined.
